(** * pisms: a shallow embedding of [src/pisms/__init__.py]

    The Python module drives a GSM modem over a serial line.  Its methods
    are embedded as computations in a state-and-exception monad over an
    explicit model of the process state (the [App] attributes that change)
    and of the environment (what the serial line delivers, the clock, and
    the observable effects in program order). *)

From Stdlib Require Import String Ascii.
From Stdlib Require Import ZArith List Bool Lia DecimalString.
From Stdlib Require Import Sorting.Sorted Sorting.Permutation.
Import ListNotations.
Open Scope Z_scope.

Set Implicit Arguments.

(** ** Python text and bytes *)

(** A Python [str] is a sequence of code points, a [bytes] object a sequence
    of octets; both are lists of integers here. *)
Definition str := list Z.
Definition bytes := list Z.

Definition lit (s : string) : str :=
  map (fun a => Z.of_N (N_of_ascii a)) (list_ascii_of_string s).

(** A text between double quotes. *)
Definition quoted (s : str) : str := 34 :: s ++ [34].

Definition CR : Z := 13.
Definition LF : Z := 10.

Fixpoint list_eqb (a b : list Z) : bool :=
  match a, b with
  | [], [] => true
  | x :: a', y :: b' => (x =? y) && list_eqb a' b'
  | _, _ => false
  end.

(** [s.startswith(p)] *)
Fixpoint starts_with (s p : list Z) : bool :=
  match p, s with
  | [], _ => true
  | x :: p', y :: s' => (x =? y) && starts_with s' p'
  | _ :: _, [] => false
  end.

(** [p in s] on two strings: [p] occurs in [s] as a contiguous block. *)
Fixpoint contains (s p : list Z) : bool :=
  starts_with s p ||
  match s with
  | [] => false
  | _ :: s' => contains s' p
  end.

(** [line[-n:]]: the last [n] items, and the whole of [line] when [n] is 0
    (Python reads [-0] as [0]) or exceeds the length. *)
Definition tail_slice (line : list Z) (n : nat) : list Z :=
  match n with
  | O => line
  | _ => skipn (length line - n) line
  end.

(** *** UTF-8, the codec behind [str.encode()] and [bytes.decode()] *)

Definition is_surrogate (c : Z) : bool := (0xD800 <=? c) && (c <=? 0xDFFF).
Definition is_nonbmp (c : Z) : bool := (0x10000 <=? c) && (c <=? 0x10FFFF).

Definition utf8_encode_char (c : Z) : option bytes :=
  if c <? 0 then None
  else if c <? 0x80 then Some [c]
  else if c <? 0x800 then
    Some [Z.lor 0xC0 (Z.shiftr c 6); Z.lor 0x80 (Z.land c 0x3F)]
  else if c <? 0x10000 then
    if is_surrogate c then None
    else Some [Z.lor 0xE0 (Z.shiftr c 12);
               Z.lor 0x80 (Z.land (Z.shiftr c 6) 0x3F);
               Z.lor 0x80 (Z.land c 0x3F)]
  else if c <=? 0x10FFFF then
    Some [Z.lor 0xF0 (Z.shiftr c 18);
          Z.lor 0x80 (Z.land (Z.shiftr c 12) 0x3F);
          Z.lor 0x80 (Z.land (Z.shiftr c 6) 0x3F);
          Z.lor 0x80 (Z.land c 0x3F)]
  else None.

Fixpoint utf8_encode (s : str) : option bytes :=
  match s with
  | [] => Some []
  | c :: s' =>
    match utf8_encode_char c, utf8_encode s' with
    | Some b, Some bs => Some (b ++ bs)
    | _, _ => None
    end
  end.

Definition is_cont (b : Z) : bool := (0x80 <=? b) && (b <=? 0xBF).
Definition cont_bits (b : Z) : Z := Z.land b 0x3F.

(** One strict decoding step: the code point at the head of [bs] and the
    number of further octets it took. *)
Definition utf8_decode_head (b0 : Z) (rest : bytes) : option (Z * nat) :=
  if (0 <=? b0) && (b0 <? 0x80) then Some (b0, 0%nat)
  else if (0xC2 <=? b0) && (b0 <=? 0xDF) then
    match rest with
    | b1 :: _ =>
      if is_cont b1
      then Some (Z.lor (Z.shiftl (Z.land b0 0x1F) 6) (cont_bits b1), 1%nat)
      else None
    | _ => None
    end
  else if (0xE0 <=? b0) && (b0 <=? 0xEF) then
    match rest with
    | b1 :: b2 :: _ =>
      let c := Z.lor (Z.shiftl (Z.land b0 0x0F) 12)
                 (Z.lor (Z.shiftl (cont_bits b1) 6) (cont_bits b2)) in
      if is_cont b1 && is_cont b2 && (0x800 <=? c) && negb (is_surrogate c)
      then Some (c, 2%nat) else None
    | _ => None
    end
  else if (0xF0 <=? b0) && (b0 <=? 0xF4) then
    match rest with
    | b1 :: b2 :: b3 :: _ =>
      let c := Z.lor (Z.shiftl (Z.land b0 0x07) 18)
                 (Z.lor (Z.shiftl (cont_bits b1) 12)
                    (Z.lor (Z.shiftl (cont_bits b2) 6) (cont_bits b3))) in
      if is_cont b1 && is_cont b2 && is_cont b3 && is_nonbmp c
      then Some (c, 3%nat) else None
    | _ => None
    end
  else None.

Fixpoint utf8_decode_fuel (fuel : nat) (bs : bytes) : option str :=
  match bs with
  | [] => Some []
  | b0 :: rest =>
    match fuel with
    | O => None
    | S fuel' =>
      match utf8_decode_head b0 rest with
      | Some (c, k) =>
        match utf8_decode_fuel fuel' (skipn k rest) with
        | Some s => Some (c :: s)
        | None => None
        end
      | None => None
      end
    end
  end.

(** Every step consumes an octet, so the length of the input is fuel
    enough. *)
Definition utf8_decode (bs : bytes) : option str :=
  utf8_decode_fuel (length bs) bs.

(** *** UTF-16, as used by [_surrogatepair] and [App.list_messages] *)

(** The code units of one code point.  Under [surrogatepass] a surrogate
    code point is written as the single unit it is. *)
Definition utf16_units (c : Z) : list Z :=
  if c <? 0x10000 then [c]
  else [0xD800 + Z.shiftr (c - 0x10000) 10;
        0xDC00 + Z.land (c - 0x10000) 0x3FF].

Definition unit_bytes (big_endian : bool) (u : Z) : bytes :=
  if big_endian then [Z.shiftr u 8; Z.land u 0xFF]
  else [Z.land u 0xFF; Z.shiftr u 8].

Definition units_bytes (big_endian : bool) (us : list Z) : bytes :=
  flat_map (unit_bytes big_endian) us.

(** [c.encode('utf-16-le')] for one character; strict, so a surrogate is an
    error. *)
Definition utf16le_encode_char (c : Z) : option bytes :=
  if is_surrogate c then None
  else Some (units_bytes false (utf16_units c)).

(** [int.from_bytes(b, 'little')] *)
Fixpoint from_bytes_little (b : bytes) : Z :=
  match b with
  | [] => 0
  | x :: b' => x + 256 * from_bytes_little b'
  end.

Definition bom (big_endian : bool) : bytes :=
  if big_endian then [0xFE; 0xFF] else [0xFF; 0xFE].

(** [text.encode('utf-16', 'surrogatepass')]: a byte order mark, then the
    code units in the byte order of the machine. *)
Definition utf16_encode_surrogatepass (native_be : bool) (text : str) : bytes :=
  bom native_be ++ units_bytes native_be (flat_map utf16_units text).

Fixpoint bytes_units (big_endian : bool) (b : bytes) : option (list Z) :=
  match b with
  | [] => Some []
  | x :: y :: b' =>
    match bytes_units big_endian b' with
    | Some us => Some ((if big_endian then 256 * x + y else x + 256 * y) :: us)
    | None => None
    end
  | [_] => None                       (* truncated data *)
  end.

Definition is_high (u : Z) : bool := (0xD800 <=? u) && (u <=? 0xDBFF).
Definition is_low (u : Z) : bool := (0xDC00 <=? u) && (u <=? 0xDFFF).

(** Strict decoding of code units: a high surrogate needs its low
    surrogate, and no surrogate may stand alone. *)
Fixpoint units_decode (us : list Z) : option str :=
  match us with
  | [] => Some []
  | u :: us' =>
    if is_high u then
      match us' with
      | l :: us'' =>
        if is_low l then
          match units_decode us'' with
          | Some s =>
            Some (0x10000 + Z.shiftl (u - 0xD800) 10 + (l - 0xDC00) :: s)
          | None => None
          end
        else None
      | [] => None
      end
    else if is_low u then None
    else
      match units_decode us' with
      | Some s => Some (u :: s)
      | None => None
      end
  end.

(** [b.decode('utf-16')]: a leading byte order mark selects the byte order
    and is dropped; without one the machine's order is used. *)
Definition utf16_decode (native_be : bool) (b : bytes) : option str :=
  let '(be, body) :=
    match b with
    | 0xFF :: 0xFE :: b' => (false, b')
    | 0xFE :: 0xFF :: b' => (true, b')
    | _ => (native_be, b)
    end in
  match bytes_units be body with
  | Some us => units_decode us
  | None => None
  end.

(** *** Character classes and the two regular expressions *)

(** [\s] on [str] patterns: the code points Python counts as whitespace. *)
Definition is_space (c : Z) : bool :=
  ((9 <=? c) && (c <=? 13)) || ((28 <=? c) && (c <=? 32)) ||
  (c =? 133) || (c =? 160) || (c =? 5760) ||
  ((8192 <=? c) && (c <=? 8202)) || (c =? 8232) || (c =? 8233) ||
  (c =? 8239) || (c =? 8287) || (c =? 12288).

Definition is_digit (c : Z) : bool := (48 <=? c) && (c <=? 57).   (* [0-9] *)
Definition is_char (x c : Z) : bool := c =? x.
Definition is_dot (c : Z) : bool := negb (c =? LF).               (* . *)
Definition is_crlf (c : Z) : bool := (c =? CR) || (c =? LF).      (* [\r\n] *)
Definition not_crlf (c : Z) : bool := negb (is_crlf c).           (* [^\r\n] *)

(** A pattern is a sequence of items: one character of a class, a greedy
    repetition of a class, or the start or end of a capturing group. *)
Inductive Item :=
| One (cls : Z -> bool)
| Star (cls : Z -> bool)
| Plus (cls : Z -> bool)
| Open
| Close.

Definition literal (s : string) : list Item :=
  map (fun c => One (is_char c)) (lit s).

(** Greedy repetition with backtracking: take as many characters of the
    class as the rest of the pattern, [k], allows. *)
Fixpoint many {R} (cls : Z -> bool) (k : str -> option R) (s : str)
  : option R :=
  match s with
  | c :: s' =>
    if cls c then
      match many cls k s' with
      | Some r => Some r
      | None => k s
      end
    else k s
  | [] => k s
  end.

(** Match [p] at the head of [s]: the captured groups and what is left of
    [s] after the match.  [opens] holds the input as it was where each
    group still open began. *)
Fixpoint match_here (p : list Item) (opens : list str) (caps : list str)
    (s : str) : option (list str * str) :=
  match p with
  | [] => Some (rev caps, s)
  | One cls :: p' =>
    match s with
    | c :: s' => if cls c then match_here p' opens caps s' else None
    | [] => None
    end
  | Star cls :: p' => many cls (match_here p' opens caps) s
  | Plus cls :: p' =>
    match s with
    | c :: s' => if cls c then many cls (match_here p' opens caps) s' else None
    | [] => None
    end
  | Open :: p' => match_here p' (s :: opens) caps s
  | Close :: p' =>
    match opens with
    | o :: opens' =>
      match_here p' opens' (firstn (length o - length s) o :: caps) s
    | [] => None
    end
  end.

(** [re.search]: the leftmost match. *)
Fixpoint re_search (p : list Item) (s : str) : option (list str) :=
  match match_here p [] [] s with
  | Some (caps, _) => Some caps
  | None =>
    match s with
    | [] => None
    | _ :: s' => re_search p s'
    end
  end.

(** [re.findall]: the groups of every match, left to right, each search
    resuming where the previous match ended (one further on after an empty
    match). *)
Fixpoint re_findall_fuel (fuel : nat) (p : list Item) (s : str)
  : list (list str) :=
  match fuel with
  | O => []
  | S fuel' =>
    match match_here p [] [] s with
    | Some (caps, rest) =>
      caps ::
      (if (length rest <? length s)%nat then re_findall_fuel fuel' p rest
       else match s with
            | [] => []
            | _ :: s' => re_findall_fuel fuel' p s'
            end)
    | None =>
      match s with
      | [] => []
      | _ :: s' => re_findall_fuel fuel' p s'
      end
    end
  end.

Definition re_findall (p : list Item) (s : str) : list (list str) :=
  re_findall_fuel (S (length s)) p s.

(** [\+CREG:\s[0-9],(?P<status>[0-9])] *)
Definition creg_pattern : list Item :=
  literal "+CREG:" ++
  [One is_space; One is_digit; One (is_char 44); Open; One is_digit; Close].

(** [\+CMGL:\s([0-9]+),.*[\r\n]+([^\r\n]+)] *)
Definition cmgl_pattern : list Item :=
  literal "+CMGL:" ++
  [One is_space; Open; Plus is_digit; Close; One (is_char 44);
   Star is_dot; Plus is_crlf; Open; Plus not_crlf; Close].

(** [_nonbmp], the class [\U00010000-\U0010FFFF] *)
Definition _nonbmp (c : Z) : bool := is_nonbmp c.

(** *** Formatting and trimming *)

(** ['%d' % n] *)
Definition fmt_d (n : Z) : str :=
  lit (DecimalString.NilZero.string_of_int (Z.to_int n)).

Fixpoint lstrip (s : str) : str :=
  match s with
  | c :: s' => if is_space c then lstrip s' else s
  | [] => []
  end.

(** [s.strip()] *)
Definition strip (s : str) : str := rev (lstrip (rev (lstrip s))).

(** ** Messages *)

(** The fragment keys of a decoded message: ['ref'], ['cnt'] and ['seq'],
    which the codec sets together on a part of a concatenated SMS. *)
Record Frag := mkFrag {
  ref : Z;
  cnt : Z;
  seq : Z
}.

(** The dictionary [SmsDeliver(...).data] with the ['idx'] key that
    [list_messages] adds. *)
Record Message := mkMessage {
  idx : str;            (* storage slot, as listed by the modem *)
  date : Z;             (* timestamp, in milliseconds *)
  sender : str;         (* the ['number'] key *)
  text : str;
  frag : option Frag
}.

(** One element of [SmsSubmit(...).to_pdu()]. *)
Record Pdu := mkPdu {
  pdu_length : Z;       (* [pdu.length] *)
  pdu : str             (* [pdu.pdu], the hexadecimal text *)
}.

(** The object [SmsSubmit(number, text)] builds. *)
Record Sms := mkSms {
  sms_number : str;
  sms_text : str
}.

(** ** Exceptions, state and the monad *)

Inductive Exn :=
| RuntimeError (msg : string)
| ValueError (msg : string)
| KeyError (key : string)
| IndexError
| AssertionError
| AttributeError
| ImportError
| NameError (name : string)
| OverflowError
| UnicodeError
| SerialException
| KeyboardInterrupt
| SystemExit.

(** The result of code that touches no state. *)
Inductive Try (A : Type) :=
| Ok (a : A)
| Err (e : Exn).
Arguments Err {A} e.

(** How a computation ends: with a value, with an exception, or never (a
    read with no timeout on a line that stays silent). *)
Inductive Res (A : Type) :=
| Ret (a : A)
| Raise (e : Exn)
| Hang.
Arguments Raise {A} e.
Arguments Hang {A}.

Inductive LogLevel := DEBUG | INFO | WARNING | ERROR.
Inductive Stream := Stdout | Stderr.
Inductive Level := LOW | HIGH.

(** What one blocking read on the serial line observes: the octets that
    arrive before the read gives up together with the time that took, or an
    exception raised inside the read (an interrupt delivered by the signal
    handler, or a transport fault). *)
Inductive Reply :=
| Arrive (data : bytes) (elapsed_ms : N)
| Fault (e : Exn).

(** The state of [self.ser]. *)
Inductive Port :=
| NoPort                          (* [self.ser = None] *)
| PortOpen (timeout : option Z)   (* [serial.Serial(...)], read timeout *)
| PortClosed.

(** Effects the outside world can observe, in program order. *)
Inductive Event :=
| SerResetInput
| SerResetOutput
| SerWrite (data : bytes)
| SerClose
| GpioSetup (pin : Z)
| GpioOutput (pin : Z) (level : Level)
| GpioCleanup
| Sleep (ms : Z)
| RunShell (command : str)
| Log (lvl : LogLevel) (msg : string)
| Print (to : Stream) (text : str)
| PrintJson (messages : list Message).

Record State := mkState {
  powered : bool;          (* [self.powered] *)
  ser : Port;              (* [self.ser] *)
  gpio_loaded : bool;      (* ['GPIO' in sys.modules] *)
  script : list Reply;     (* what the next blocking reads will observe *)
  clock : Z;               (* [time.time()], in milliseconds *)
  trace : list Event       (* effects so far, oldest first *)
}.

Definition M (A : Type) := State -> Res A * State.

Definition ret {A} (a : A) : M A := fun s => (Ret a, s).
Definition raise {A} (e : Exn) : M A := fun s => (Raise e, s).
Definition hang {A} : M A := fun s => (Hang, s).
Definition bind {A B} (c : M A) (k : A -> M B) : M B :=
  fun s =>
    match c s with
    | (Ret a, s') => k a s'
    | (Raise e, s') => (Raise e, s')
    | (Hang, s') => (Hang, s')
    end.

Notation "x <- c ;; k" := (bind c (fun x => k))
  (at level 61, c at next level, right associativity).
Notation "' pat <- c ;; k" := (bind c (fun x => match x with pat => k end))
  (at level 61, pat pattern, c at next level, right associativity).
Notation "c ;; k" := (bind c (fun _ => k))
  (at level 61, right associativity).

Definition emit (e : Event) : M unit :=
  fun s => (Ret tt, mkState (powered s) (ser s) (gpio_loaded s) (script s)
                      (clock s) (trace s ++ [e])).

Definition tick (ms : Z) : M unit :=
  fun s => (Ret tt, mkState (powered s) (ser s) (gpio_loaded s) (script s)
                      (clock s + ms) (trace s)).

Definition set_powered (b : bool) : M unit :=
  fun s => (Ret tt, mkState b (ser s) (gpio_loaded s) (script s)
                      (clock s) (trace s)).

Definition set_ser (p : Port) : M unit :=
  fun s => (Ret tt, mkState (powered s) p (gpio_loaded s) (script s)
                      (clock s) (trace s)).

Definition set_script (r : list Reply) : M unit :=
  fun s => (Ret tt, mkState (powered s) (ser s) (gpio_loaded s) r
                      (clock s) (trace s)).

Definition get {A} (f : State -> A) : M A := fun s => (Ret (f s), s).

Definition lift {A} (t : Try A) : M A :=
  match t with
  | Ok a => ret a
  | Err e => raise e
  end.

Definition option_try {A} (e : Exn) (o : option A) : Try A :=
  match o with
  | Some a => Ok a
  | None => Err e
  end.

Definition log (lvl : LogLevel) (msg : string) : M unit := emit (Log lvl msg).
Definition print (to : Stream) (text : str) : M unit := emit (Print to text).

(** [time.sleep]; a negative length is refused. *)
Definition sleep_ms (ms : Z) : M unit :=
  if ms <? 0 then raise (ValueError "sleep length must be non-negative")
  else emit (Sleep ms) ;; tick ms.

(** [time.sleep(seconds)] for a whole number of seconds *)
Definition sleep (seconds : Z) : M unit := sleep_ms (seconds * 1000).
Definition time_time : M Z := get clock.

(** [GPIO.output(pin, level)] *)
Definition gpio_output (pin : Z) (level : Level) : M unit :=
  emit (GpioOutput pin level).

(** The name [GPIO] looked up outside [setup].  The module never binds it:
    [setup] imports [RPi.GPIO] into a local variable of its own, so every
    other method that names [GPIO] ends here. *)
Definition global_GPIO : M unit := raise (NameError "GPIO").

Definition encode (s : str) : M bytes :=
  lift (option_try UnicodeError (utf8_encode s)).

Definition decode (b : bytes) : M str :=
  lift (option_try UnicodeError (utf8_decode b)).

(** ** The serial transport (pyserial's [Serial] object) *)

(** Every method needs an open port: on [None] the attribute lookup fails,
    on a closed port pyserial raises. *)
Definition with_port {A} (k : option Z -> M A) : M A :=
  p <- get ser ;;
  match p with
  | NoPort => raise AttributeError
  | PortClosed => raise SerialException
  | PortOpen t => k t
  end.

Definition ser_reset_input_buffer : M unit :=
  with_port (fun _ => emit SerResetInput).
Definition ser_reset_output_buffer : M unit :=
  with_port (fun _ => emit SerResetOutput).
Definition ser_write (data : bytes) : M unit :=
  with_port (fun _ => emit (SerWrite data)).
(** [self.ser.timeout = t]; pyserial refuses a negative timeout. *)
Definition ser_set_timeout (t : Z) : M unit :=
  with_port (fun _ =>
    if t <? 0 then raise (ValueError "Not a valid timeout")
    else set_ser (PortOpen (Some t))).

(** [self.ser.close()], which does nothing on a port already closed *)
Definition ser_close : M unit :=
  p <- get ser ;;
  match p with
  | NoPort => raise AttributeError
  | PortClosed => ret tt
  | PortOpen _ => emit SerClose ;; set_ser PortClosed
  end.

(** [Serial.read_until]'s loop: octets are appended one at a time until the
    line ends with [expected]; when no octet arrives in time the line read
    so far is returned. *)
Fixpoint read_until_loop (expected line rx : bytes) : bytes :=
  match rx with
  | [] => line
  | c :: rx' =>
    let line' := line ++ [c] in
    if list_eqb (tail_slice line' (length expected)) expected
    then line'
    else read_until_loop expected line' rx'
  end.

(** The next reply of the environment.  Once the script is used up the
    line stays silent: a timed read gives up after its timeout with nothing
    read, a read without timeout never returns. *)
Definition next_reply (timeout : option Z) : M Reply :=
  sc <- get script ;;
  match sc with
  | r :: sc' => set_script sc' ;; ret r
  | [] =>
    match timeout with
    | Some t => ret (Arrive [] (Z.to_N (t * 1000)))
    | None => hang
    end
  end.

Definition ser_read_until (expected : bytes) : M bytes :=
  with_port (fun t =>
    r <- next_reply t ;;
    match r with
    | Arrive rx dt => tick (Z.of_N dt) ;; ret (read_until_loop expected [] rx)
    | Fault e => raise e
    end).

(** ** [App.at_command] *)

Definition CRLF : str := [CR; LF].

Definition at_command (command back : str) (timeout : Z) (quiet : bool)
  : M (bool * str) :=
  log DEBUG "AT command: %s" ;;
  ser_reset_input_buffer ;;
  ser_write [0x1B] ;;
  cmd <- encode (command ++ CRLF) ;;
  ser_write cmd ;;
  ser_set_timeout timeout ;;
  expected <- encode back ;;
  rec_buff <- ser_read_until expected ;;
  response <- decode rec_buff ;;
  if negb (contains response back) then
    (if negb quiet
     then log ERROR "AT ERROR:\t%s" ;; log ERROR "AT Response:\t%s"
     else ret tt) ;;
    ret (false, response)
  else
    log DEBUG "%s" ;;
    ret (true, response).

(** ** Configuration and collaborators *)

Inductive Command := Send | Receive | Monitor | Clear | ModemInfo | At.

(** The attributes [parse_args] stores on the application object. *)
Record Config := mkConfig {
  pwrpin : Z;
  pwrup : Z;
  pwrdown : Z;
  wait : Z;
  pwrlow : bool;
  cmd : Command;            (* the sub-command chosen *)
  number : str;             (* send *)
  maxage : Z;               (* recv *)
  preserve : bool;
  deleteall : bool;
  command : option str;     (* monitor, at *)
  back : str;               (* at *)
  timeout : Z
}.

(** Facts about the machine the program runs on. *)
Record Host := mkHost {
  stdin : str;              (* what [sys.stdin.read()] returns *)
  isatty : bool;
  big_endian : bool;        (* byte order, for the [utf-16] codec *)
  port_present : bool;      (* whether the serial device can be opened *)
  gpio_present : bool       (* whether [RPi.GPIO] can be imported *)
}.

(** The PDU codec of the [messaging.sms] package: [SmsDeliver(pdu).data],
    the constructor [SmsSubmit(number, text)], and its method
    [to_pdu()]. *)
Record Codec := mkCodec {
  SmsDeliver : str -> Try Message;
  SmsSubmit : str -> str -> Try Sms;
  to_pdu : Sms -> Try (list Pdu)
}.

(** ** Fragment reassembly: [App.collect_fragments] *)

(** The [fragments] dictionary: reference number to the members ingested so
    far, in insertion order of the keys. *)
Definition FragMap := list (Z * list Message).

Definition has_key (k : Z) (fs : FragMap) : bool :=
  existsb (fun e => fst e =? k) fs.

(** [fragments[k].append(d)] for a key that is present *)
Fixpoint append_at (k : Z) (d : Message) (fs : FragMap) : FragMap :=
  match fs with
  | [] => []
  | (r, ms) :: fs' =>
    if r =? k then (r, ms ++ [d]) :: fs' else (r, ms) :: append_at k d fs'
  end.

Definition frag_key (key : string) (f : Frag -> Z) (m : Message) : Try Z :=
  match frag m with
  | Some fr => Ok (f fr)
  | None => Err (KeyError key)
  end.

Definition ingest (fragments : FragMap) (data : Message) : Try FragMap :=
  match frag_key "ref" ref data with
  | Err e => Err e
  | Ok r =>
    if has_key r fragments
    then Ok (append_at r data fragments)
    else Ok (fragments ++ [(r, [data])])
  end.

(** The keys of [list.sort(key=lambda f: f['seq'])], computed before any
    item moves. *)
Fixpoint seq_keys (ms : list Message) : Try (list (Z * Message)) :=
  match ms with
  | [] => Ok []
  | m :: ms' =>
    match frag_key "seq" seq m, seq_keys ms' with
    | Ok k, Ok l => Ok ((k, m) :: l)
    | Err e, _ => Err e
    | _, Err e => Err e
    end
  end.

(** Python's sort is stable: an item goes in front of the first item whose
    key is not smaller, and items are inserted last to first. *)
Fixpoint insert_by_key (x : Z * Message) (l : list (Z * Message))
  : list (Z * Message) :=
  match l with
  | [] => [x]
  | y :: l' =>
    if fst x <=? fst y then x :: y :: l' else y :: insert_by_key x l'
  end.

Fixpoint sort_by_key (l : list (Z * Message)) : list (Z * Message) :=
  match l with
  | [] => []
  | x :: l' => insert_by_key x (sort_by_key l')
  end.

Definition sort_by_seq (ms : list Message) : Try (list Message) :=
  match seq_keys ms with
  | Ok l => Ok (map snd (sort_by_key l))
  | Err e => Err e
  end.

(** [del message['ref']; del message['cnt']; del message['seq'];
    message['text'] = text] *)
Definition synthesize (message : Message) (text' : str) : Message :=
  mkMessage (idx message) (date message) (sender message) text' None.

(** What the body of the [for ref in fragments.keys()] loop does to one set:
    the set as it is left in the dictionary, and the message and the slots
    it yields when it is complete. *)
Definition process_set (members : list Message)
  : Try (list Message * option (Message * list str)) :=
  match members with
  | [] => Err IndexError
  | first :: _ =>
    match frag_key "cnt" cnt first with
    | Err e => Err e
    | Ok declared =>
      if Z.of_nat (length members) =? declared then
        match sort_by_seq members with
        | Err e => Err e
        | Ok sorted =>
          let text' := concat (map text sorted) in
          let slots := map idx sorted in
          let message := synthesize (last sorted first) text' in
          Ok (removelast sorted ++ [message], Some (message, slots))
        end
      else Ok (members, None)
    end
  end.

Fixpoint process_sets (fragments : FragMap)
  : Try (FragMap * (list Message * list str)) :=
  match fragments with
  | [] => Ok ([], ([], []))
  | (r, members) :: rest =>
    match process_set members with
    | Err e => Err e
    | Ok (members', out) =>
      match process_sets rest with
      | Err e => Err e
      | Ok (rest', (messages, read_idx)) =>
        Ok ((r, members') :: rest',
            match out with
            | Some (message, slots) => (message :: messages, slots ++ read_idx)
            | None => (messages, read_idx)
            end)
      end
    end
  end.

(** [collect_fragments(fragments, data, process)]: the dictionary as the
    call leaves it and the value returned ([None] unless [process]). *)
Definition collect_fragments (fragments : FragMap) (data : option Message)
    (process : bool) : Try (FragMap * option (list Message * list str)) :=
  match (match data with
         | Some d => ingest fragments d
         | None => Ok fragments
         end) with
  | Err e => Err e
  | Ok fragments' =>
    if negb process then Ok (fragments', None)
    else
      match process_sets fragments' with
      | Err e => Err e
      | Ok (fragments'', result) => Ok (fragments'', Some result)
      end
  end.

(** The sets held after ingesting [records] one by one into an empty
    dictionary. *)
Fixpoint ingest_all (fragments : FragMap) (records : list Message)
  : Try FragMap :=
  match records with
  | [] => Ok fragments
  | d :: records' =>
    match collect_fragments fragments (Some d) false with
    | Ok (fragments', _) => ingest_all fragments' records'
    | Err e => Err e
    end
  end.

(** ** Surrogate pairs: [_surrogatepair] and [App.with_surrogates] *)

Definition _surrogatepair (char : Z) : Try str :=
  if negb (char >? 0xffff) then Err AssertionError
  else
    match utf16le_encode_char char with
    | None => Err UnicodeError
    | Some encoded =>
      Ok [from_bytes_little (firstn 2 encoded);
          from_bytes_little (skipn 2 encoded)]
    end.

(** [_nonbmp.sub(_surrogatepair, text)] *)
Fixpoint with_surrogates (text : str) : Try str :=
  match text with
  | [] => Ok []
  | c :: text' =>
    match (if _nonbmp c then _surrogatepair c else Ok [c]),
          with_surrogates text' with
    | Ok r, Ok s => Ok (r ++ s)
    | Err e, _ => Err e
    | _, Err e => Err e
    end
  end.

(** [text.encode('utf-16','surrogatepass').decode('utf-16')], the
    normalisation [list_messages] applies to a decoded text *)
Definition surrogatepass_decode (native_be : bool) (text : str) : Try str :=
  option_try UnicodeError
    (utf16_decode native_be (utf16_encode_surrogatepass native_be text)).

(** ** The application *)

(** What a command method returns to [run]. *)
Inductive PyVal := PyNone | PyBool (b : bool).

Definition truthy (v : PyVal) : bool :=
  match v with
  | PyNone => false
  | PyBool b => b
  end.

Section App.

Variable cfg : Config.
Variable host : Host.
Variable codec : Codec.

(** [self.active] and [self.inactive], fixed by [parse_args] *)
Definition active : Level := if pwrlow cfg then LOW else HIGH.
Definition inactive : Level := if pwrlow cfg then HIGH else LOW.

Definition power_up : M unit :=
  if pwrpin cfg =? 0 then
    log DEBUG "Power pin not set, skipping modem power up"
  else
    (if negb (pwrup cfg =? 0) then
       log INFO "Sending modem power up signal on GPIO pin %d" ;;
       global_GPIO ;; gpio_output (pwrpin cfg) active ;;
       sleep (pwrup cfg) ;;
       global_GPIO ;; gpio_output (pwrpin cfg) inactive
     else
       log INFO "Setting modem GPIO pin %d active" ;;
       global_GPIO ;; gpio_output (pwrpin cfg) active) ;;
    set_powered true ;;
    ser_reset_input_buffer ;;
    ser_reset_output_buffer.

Definition power_down : M unit :=
  is_powered <- get powered ;;
  if negb is_powered then
    log DEBUG "No modem power control, skipping power down"
  else
    if negb (pwrdown cfg =? 0) then
      log INFO "Sending modem power down signal on GPIO pin %d" ;;
      global_GPIO ;; gpio_output (pwrpin cfg) active ;;
      sleep (pwrdown cfg) ;;
      global_GPIO ;; gpio_output (pwrpin cfg) inactive ;;
      sleep 2
    else
      log INFO "Setting modem GPIO pin %d inactive" ;;
      global_GPIO ;; gpio_output (pwrpin cfg) inactive.

Definition read_message : M str :=
  (if isatty host then
     print Stdout (lit "Enter message, press Ctrl-D on blank line to send") ;;
     print Stdout (lit "> ")
   else ret tt) ;;
  let message := strip (stdin host) in
  match message with
  | [] => raise (ValueError "No message on stdin!")
  | _ => ret message
  end.

(** *** [App.check_connection] *)

(** [match and match.group('status') in ('1','5','6','7')] *)
Definition registered (response : str) : bool :=
  match re_search creg_pattern response with
  | Some [status] =>
    existsb (list_eqb status) [lit "1"; lit "5"; lit "6"; lit "7"]
  | _ => false
  end.

(** The [while time.time() < t_end] loop, [fuel] bounding the number of
    times its condition is evaluated. *)
Fixpoint check_connection_loop (fuel : nat) (t_end : Z) : M unit :=
  match fuel with
  | O => hang
  | S fuel' =>
    now <- time_time ;;
    if now <? t_end then
      '(result, response) <- at_command (lit "AT+CREG?") (lit "OK") 1 true ;;
      if result then
        if registered response then
          log INFO "Network connection established"
        else sleep 1 ;; check_connection_loop fuel' t_end
      else sleep 1 ;; check_connection_loop fuel' t_end
    else raise (RuntimeError "No mobile network connection")
  end.

(** Every turn of the loop sleeps a second, so its condition is evaluated
    at most [wait + 1] times. *)
Definition check_connection : M unit :=
  log DEBUG "Waiting %d seconds for mobile network connection" ;;
  now <- time_time ;;
  let t_end := now + wait cfg * 1000 in
  check_connection_loop (S (Z.to_nat (wait cfg))) t_end.

(** *** [App.send] *)

Fixpoint send_pdus (pdus : list Pdu) : M bool :=
  match pdus with
  | [] =>
    log INFO "Message sent successfully" ;;
    print Stderr (lit "Message sent successfully") ;;
    ret true
  | p :: rest =>
    '(result, _) <-
      at_command (lit "AT+CMGS=" ++ fmt_d (pdu_length p) ++ [CR]) (lit ">") 2
        false ;;
    if result then
      log DEBUG "%s" ;;
      data <- encode (pdu p) ;;
      ser_write data ;;
      ser_write [0x1A] ;;
      '(result, _) <- at_command [] (lit "OK") 5 false ;;
      if negb result then
        log ERROR "Error sending message!" ;;
        print Stderr (lit "Error sending message!") ;;
        ret false
      else send_pdus rest
    else send_pdus rest
  end.

Definition send : M bool :=
  message <- read_message ;;
  text' <- lift (with_surrogates message) ;;
  sms <- lift (SmsSubmit codec (number cfg) text') ;;
  log INFO "Sending SMS message to %s" ;;
  print Stderr (lit "Sending SMS message to " ++ number cfg) ;;
  power_up ;;
  check_connection ;;
  at_command (lit "AT+CMGF=0") (lit "OK") 1 false ;;
  pdus <- lift (to_pdu codec sms) ;;
  send_pdus pdus.

(** *** [App.list_messages] *)

Fixpoint decode_entries (matches : list (list str)) : Try (list Message) :=
  match matches with
  | [] => Ok []
  | m :: matches' =>
    match m with
    | [slot; entry] =>
      match SmsDeliver codec entry with
      | Err e => Err e
      | Ok data =>
        match surrogatepass_decode (big_endian host) (text data) with
        | Err e => Err e
        | Ok text' =>
          match decode_entries matches' with
          | Err e => Err e
          | Ok messages =>
            Ok (mkMessage slot (date data) (sender data) text' (frag data)
                  :: messages)
          end
        end
      end
    | _ => Err IndexError
    end
  end.

Definition list_messages (status : Z) : M (bool * list Message) :=
  '(result, response) <-
    at_command (lit "AT+CMGL=" ++ fmt_d status) (lit "OK") 2 false ;;
  if result then
    messages <- lift (decode_entries (re_findall cmgl_pattern response)) ;;
    ret (result, messages)
  else ret (result, []).

(** *** [App.receive] *)

Definition hour_ms : Z := 3600000.

(** [timedelta(hours=h)], in milliseconds: a [timedelta] holds at most
    999999999 days either way. *)
Definition timedelta_hours (h : Z) : Try Z :=
  let days := h / 24 in
  if (days <? -999999999) || (999999999 <? days) then Err OverflowError
  else Ok (h * hour_ms).

(** The first and the last millisecond a [datetime] can hold (years 1 to
    9999), counted like the clock. *)
Definition datetime_min : Z := -62135596800000.
Definition datetime_max : Z := 253402300799999.

(** [t - delta] on a [datetime] *)
Definition datetime_sub (t delta : Z) : Try Z :=
  let r := t - delta in
  if (r <? datetime_min) || (datetime_max <? r) then Err OverflowError
  else Ok r.

(** [now - timedelta(hours=self.maxage)] *)
Definition age_limit (now : Z) : Try Z :=
  match timedelta_hours (maxage cfg) with
  | Ok delta => datetime_sub now delta
  | Err e => Err e
  end.

(** The loop over the messages already read: an old message gives up its
    slot, and a fragment is ingested. *)
Fixpoint scan_read (now : Z) (sim_read : list Message)
    (read_idx : list str) (fragments : FragMap)
  : Try (list str * FragMap) :=
  match sim_read with
  | [] => Ok (read_idx, fragments)
  | message :: rest =>
    match age_limit now with
    | Err e => Err e
    | Ok limit =>
      let read_idx' :=
        if date message <? limit
        then read_idx ++ [idx message] else read_idx in
      match frag message with
      | Some _ =>
        match collect_fragments fragments (Some message) false with
        | Ok (fragments', _) => scan_read now rest read_idx' fragments'
        | Err e => Err e
        end
      | None => scan_read now rest read_idx' fragments
      end
    end
  end.

(** The loop over the unread messages. *)
Fixpoint scan_unread (unread messages : list Message)
    (read_idx : list str) (fragments : FragMap)
  : Try (list Message * list str * FragMap) :=
  match unread with
  | [] => Ok (messages, read_idx, fragments)
  | message :: rest =>
    match frag message with
    | Some _ =>
      match collect_fragments fragments (Some message) false with
      | Ok (fragments', _) => scan_unread rest messages read_idx fragments'
      | Err e => Err e
      end
    | None =>
      scan_unread rest (messages ++ [message]) (read_idx ++ [idx message])
        fragments
    end
  end.

Fixpoint delete_slots (slots : list str) : M unit :=
  match slots with
  | [] => ret tt
  | slot :: rest =>
    at_command (lit "AT+CMGD=" ++ slot) (lit "OK") 2 false ;;
    delete_slots rest
  end.

Definition receive : M bool :=
  log INFO "Checking for received messages" ;;
  print Stderr (lit "Checking for received messages") ;;
  power_up ;;
  at_command (lit "AT+CMGF=0") (lit "OK") 1 false ;;
  at_command
    (lit "AT+CPMS=" ++ quoted (lit "SM") ++ lit "," ++ quoted (lit "SM") ++
     lit "," ++ quoted (lit "SM"))
    (lit "OK") 1 false ;;
  '(result, sim_read) <- list_messages 1 ;;
  '(read_idx, fragments) <-
    (if (result : bool) then
       now <- time_time ;;
       lift (scan_read now sim_read [] [])
     else ret ([], [])) ;;
  '(result, unread) <- list_messages 0 ;;
  if (result : bool) then
    '(messages, read_idx, fragments) <-
      lift (scan_unread unread [] read_idx fragments) ;;
    '(_, drained) <- lift (collect_fragments fragments None true) ;;
    match drained with
    | None => raise (ValueError "cannot unpack None")
    | Some (long_messages, frag_read_idx) =>
      emit (PrintJson (messages ++ long_messages)) ;;
      (if deleteall cfg then
         at_command (lit "AT+CMGD=1,1") (lit "OK") 2 false ;; ret tt
       else if negb (preserve cfg) then
         delete_slots (read_idx ++ frag_read_idx)
       else ret tt) ;;
      ret true
    end
  else
    log ERROR "Error checking messages!" ;;
    print Stderr (lit "Error checking messages!") ;;
    ret false.

(** *** [App.clear], [App.modem_info], [App.at], [App.monitor] *)

Definition clear : M bool :=
  log INFO "Clearing all SMS messages from modem storage" ;;
  print Stderr (lit "Clearing all SMS messages from modem storage") ;;
  power_up ;;
  '(result, _) <- at_command (lit "AT+CMGD=1,4") (lit "OK") 2 false ;;
  ret result.

(** Issue a query and print the raw response. *)
Definition query (command : str) (echo : option str) : M unit :=
  '(_, res) <- at_command command (lit "OK") 1 false ;;
  match echo with
  | Some line => print Stdout line
  | None => ret tt
  end ;;
  print Stdout res.

Definition modem_info : M unit :=
  print Stdout (lit "Querying modem information...") ;;
  power_up ;;
  query (lit "ATI") None ;;
  query (lit "AT+CPIN?") None ;;
  query (lit "AT+CIMI") (Some (lit "AT+CIMI")) ;;
  query (lit "AT+CSQ") None ;;
  query (lit "AT+CREG?") None ;;
  query (lit "AT+COPS?") None.

Definition at_ : M unit :=
  log INFO "Sending specified AT command" ;;
  match command cfg with
  | None => raise AttributeError
  | Some c =>
    print Stdout c ;;
    '(_, res) <- at_command c (back cfg) (timeout cfg) false ;;
    print Stdout res
  end.

(** The [while True] loop of [monitor]; it has no exit of its own, so
    using up [fuel] turns is never returning. *)
Fixpoint monitor_loop (fuel : nat) : M bool :=
  match fuel with
  | O => hang
  | S fuel' =>
    raw <- ser_read_until [LF] ;;
    line <- decode raw ;;
    log DEBUG "Read line: %s" ;;
    (if contains line (lit "+CMTI:") then
       log INFO "+CMTI received" ;;
       print Stdout (lit "New message received") ;;
       match command cfg with
       | Some (c :: rest) =>
         log INFO "Running command: %s" ;;
         emit (RunShell (c :: rest)) ;;
         log DEBUG "Return code: %d" ;;
         log DEBUG "stdout: %s" ;;
         log DEBUG "stderr: %s"
       | _ => ret tt
       end
     else ret tt) ;;
    monitor_loop fuel'
  end.

(** Once the script is used up the line is silent for good, the loop turns
    (or blocks) for ever, and one turn per scripted reply and one more
    decide the outcome. *)
Definition monitor : M bool :=
  log INFO "Listening for +CMTI messages on %s" ;;
  print Stdout (lit "Listening for +CMTI messages") ;;
  sc <- get script ;;
  monitor_loop (S (length sc)).

(** [self.cmd()] *)
Definition run_cmd : M PyVal :=
  match cmd cfg with
  | Send => b <- send ;; ret (PyBool b)
  | Receive => b <- receive ;; ret (PyBool b)
  | Monitor => b <- monitor ;; ret (PyBool b)
  | Clear => b <- clear ;; ret (PyBool b)
  | ModemInfo => modem_info ;; ret PyNone
  | At => at_ ;; ret PyNone
  end.

(** *** [App.setup] and [App.cleanup] *)

Definition setup : M unit :=
  log INFO "Setting up serial port %s at %d %s" ;;
  (if port_present host then set_ser (PortOpen None)
   else raise SerialException) ;;
  ser_reset_input_buffer ;;
  ser_reset_output_buffer ;;
  if negb (pwrpin cfg =? 0) then
    (if gpio_present host then ret tt else raise ImportError) ;;
    log DEBUG "Setup GPIO pin %d" ;;
    emit (GpioSetup (pwrpin cfg)) ;;
    sleep_ms 100 ;;
    gpio_output (pwrpin cfg) inactive
  else ret tt.

Definition cleanup : M unit :=
  log INFO "Closing serial port and cleaning up GPIO" ;;
  p <- get ser ;;
  match p with
  | NoPort => ret tt
  | _ => ser_close
  end ;;
  power_down ;;
  in_modules <- get gpio_loaded ;;
  if (in_modules : bool) then global_GPIO ;; emit GpioCleanup else ret tt.

End App.

(** ** [App.run] *)

(** [try: c finally: f] *)
Definition try_finally {A} (c : M A) (f : M unit) : M A :=
  fun s =>
    match c s with
    | (Ret a, s1) =>
      match f s1 with
      | (Ret _, s2) => (Ret a, s2)
      | (Raise e, s2) => (Raise e, s2)
      | (Hang, s2) => (Hang, s2)
      end
    | (Raise e, s1) =>
      match f s1 with
      | (Ret _, s2) => (Raise e, s2)
      | (Raise e', s2) => (Raise e', s2)
      | (Hang, s2) => (Hang, s2)
      end
    | (Hang, s1) => (Hang, s1)
    end.

(** [try: c except (handled): h] *)
Definition try_except {A} (c : M A) (handled : Exn -> bool) (h : M A) : M A :=
  fun s =>
    match c s with
    | (Raise e, s1) => if handled e then h s1 else (Raise e, s1)
    | r => r
    end.

Definition is_interrupt (e : Exn) : bool :=
  match e with
  | KeyboardInterrupt | SystemExit => true
  | _ => false
  end.

(** What argparse and the lines after it make of the command line: the
    attributes stored, or the exception they end with (argparse leaves
    through [SystemExit] on a usage error, on [-h] and on [--version]; a
    log level or a serial mode that cannot be read raises). *)
Inductive Argv :=
| Parsed (cfg : Config)
| Rejected (e : Exn).

(** The last statement of [parse_args] names [GPIO] when a power pin is
    given. *)
Definition parse_args (argv : Argv) : M Config :=
  match argv with
  | Parsed cfg =>
    (if negb (pwrpin cfg =? 0) then global_GPIO else ret tt) ;;
    ret cfg
  | Rejected e => raise e
  end.

(** The [try] statement of [run], for a command [c] in place of
    [self.cmd]. *)
Definition session (cfg : Config) (c : M PyVal) : M Z :=
  try_finally
    (try_except
       (v <- c ;; ret (if truthy v then 0 else 1))
       is_interrupt
       (log INFO "Received interrupt. Exiting..." ;; ret 0))
    (cleanup cfg).

Definition run (host : Host) (codec : Codec) (argv : Argv) : M Z :=
  cfg <- parse_args argv ;;
  setup cfg host ;;
  session cfg (run_cmd cfg host codec).

(** The process as [run()] finds it: [App()] has just been built. *)
Definition initial (sc : list Reply) (now : Z) (in_modules : bool) : State :=
  mkState false NoPort in_modules sc now [].

(** ** Vocabulary of the statements *)

(** [p] occurs in [s] as a contiguous block. *)
Definition occurs_in (p s : list Z) : Prop :=
  exists pre post, s = pre ++ p ++ post.

(** [line] ends with the non-empty terminator [e]. *)
Definition terminated (line e : list Z) : Prop :=
  e <> [] /\ exists pre, line = pre ++ e.

(** What the next timed read on the serial line will observe. *)
Definition pending (s : State) (timeout : Z) : Reply :=
  match script s with
  | r :: _ => r
  | [] => Arrive [] (Z.to_N (timeout * 1000))
  end.

(** The events of one exchange that runs to its end: the command [cmd] as
    written, then the log entries of the classification. *)
Definition at_events (cmd : bytes) (ok quiet : bool) : list Event :=
  [Log DEBUG "AT command: %s"; SerResetInput; SerWrite [0x1B]; SerWrite cmd] ++
  (if ok then [Log DEBUG "%s"]
   else if quiet then []
   else [Log ERROR "AT ERROR:\t%s"; Log ERROR "AT Response:\t%s"]).

(** What [power_down] leaves when the modem was never powered: one debug
    entry in the log and nothing else. *)
Definition skipped_power_down (s : State) : State :=
  mkState (powered s) (ser s) (gpio_loaded s) (script s) (clock s)
    (trace s ++ [Log DEBUG "No modem power control, skipping power down"]).

(** A code point that is a character: in range and not a surrogate. *)
Definition is_scalar (c : Z) : bool :=
  (0 <=? c) && (c <=? 0x10FFFF) && negb (is_surrogate c).

(** A UTF-16 code unit. *)
Definition is_unit (u : Z) : bool := (0 <=? u) && (u <? 65536).

(** The fragment keys of a message, read as [0] where the key is absent. *)
Definition ref_of (m : Message) : Z :=
  match frag m with Some f => ref f | None => 0 end.
Definition cnt_of (m : Message) : Z :=
  match frag m with Some f => cnt f | None => 0 end.
Definition seq_of (m : Message) : Z :=
  match frag m with Some f => seq f | None => 0 end.

Definition is_fragment (m : Message) : Prop := frag m <> None.

(** Ascending sequence numbers. *)
Definition by_seq (a b : Message) : Prop := seq_of a <= seq_of b.

(** [message] and [slots] are what a complete set [members] yields: the
    members ordered by sequence number give the text and the slots, the
    last of them gives the rest of the message. *)
Definition reassembled (members : list Message) (message : Message)
    (slots : list str) : Prop :=
  exists sorted init final,
    Permutation members sorted /\
    StronglySorted by_seq sorted /\
    sorted = init ++ [final] /\
    text message = concat (map text sorted) /\
    idx message = idx final /\
    date message = date final /\
    sender message = sender final /\
    frag message = None /\
    slots = map idx sorted /\
    (forall m, In m members -> In (idx m) slots).

(** Every member of the set declares the count [n]. *)
Definition declares (members : list Message) (n : Z) : Prop :=
  forall m, In m members -> exists f, frag m = Some f /\ cnt f = n.

(** What draining makes of one set: [Some] message with its slots, or
    nothing. *)
Definition Drained := option (Message * list str).

Definition emitted (out : Drained) : list Message :=
  match out with Some (message, _) => [message] | None => [] end.

Definition released (out : Drained) : list str :=
  match out with Some (_, slots) => slots | None => [] end.

(** The set [members] is drained to [out] as the reassembler promises. *)
Definition drained_as (members : list Message) (out : Drained) : Prop :=
  match out with
  | Some (message, slots) => reassembled members message slots
  | None => True
  end /\
  forall n, declares members n ->
            (out <> None <-> Z.of_nat (length members) = n).

(** The set [members] is drained to [out] by the count of its first
    member. *)
Definition drained_by_first (members : list Message) (out : Drained) : Prop :=
  exists first later,
    members = first :: later /\
    (out <> None <-> Z.of_nat (length members) = cnt_of first).

(** [m] with its declared count replaced by [n]. *)
Definition with_cnt (n : Z) (m : Message) : Message :=
  mkMessage (idx m) (date m) (sender m) (text m)
    (option_map (fun f => mkFrag (ref f) n (seq f)) (frag m)).

(** The sets with the counts of all members but the first of each set
    rewritten by [g]. *)
Definition recount_set (g : Message -> Z) (members : list Message)
  : list Message :=
  match members with
  | [] => []
  | first :: later => first :: map (fun m => with_cnt (g m) m) later
  end.

Definition recount (g : Message -> Z) (fragments : FragMap) : FragMap :=
  map (fun e => (fst e, recount_set g (snd e))) fragments.

(** What a call of [collect_fragments] hands back, the dictionary left
    aside. *)
Definition returned {A B} (r : Try (A * B)) : Try B :=
  match r with
  | Ok (_, b) => Ok b
  | Err e => Err e
  end.

(** Sets as ingestion builds them: distinct keys, no empty set, fragments
    only, each under its own reference. *)
Definition well_formed (fragments : FragMap) : Prop :=
  NoDup (map fst fragments) /\
  Forall (fun e => snd e <> [] /\
                   Forall (fun m => is_fragment m /\ ref_of m = fst e) (snd e))
         fragments.

(** The order of the sort keys. *)
Definition key_le (a b : Z * Message) : Prop := fst a <= fst b.

(** A fragment with its sort key. *)
Definition keyed (m : Message) : Z * Message := (seq_of m, m).

(** The set is drained by the count of its first member, and what it
    yields is its reassembly. *)
Definition set_drained (members : list Message) (out : Drained) : Prop :=
  drained_by_first members out /\
  match out with
  | Some (message, slots) => reassembled members message slots
  | None => True
  end.

(** No set is empty and every member is a fragment. *)
Definition sets_ok (fragments : FragMap) : Prop :=
  Forall (fun e => snd e <> [] /\ Forall is_fragment (snd e)) fragments.

(** The members held under the reference [r]. *)
Definition members_of (r : Z) (fragments : FragMap) : list Message :=
  match find (fun e => fst e =? r) fragments with
  | Some e => snd e
  | None => []
  end.

(** Two messages that differ at most in the reference and the count they
    declare. *)
Definition alike (m m' : Message) : Prop :=
  idx m = idx m' /\ date m = date m' /\ sender m = sender m' /\
  text m = text m' /\
  match frag m, frag m' with
  | Some f, Some f' => seq f = seq f'
  | None, None => True
  | _, _ => False
  end.

(** Sort items with the same key and like messages. *)
Definition alike_keyed (a b : Z * Message) : Prop :=
  fst a = fst b /\ alike (snd a) (snd b).

(** The set [e] holds, in ingestion order, exactly the records that carry
    its reference. *)
Definition grouped (records : list Message) (e : Z * list Message) : Prop :=
  snd e = filter (fun m => ref_of m =? fst e) records.

(** Whether an event is the log entry that opens [cleanup]. *)
Definition is_cleanup (e : Event) : bool :=
  match e with
  | Log INFO msg => String.eqb msg "Closing serial port and cleaning up GPIO"
  | _ => false
  end.

(** How many times [cleanup] was entered. *)
Definition cleanups (evs : list Event) : nat :=
  length (filter is_cleanup evs).

(** The state in which [cleanup] starts: the one the command left, with the
    log entry of the interrupt handler when the command was interrupted. *)
Definition after_handler (rc : Res PyVal) (s1 : State) : State :=
  match rc with
  | Raise e =>
    if is_interrupt e
    then snd (log INFO "Received interrupt. Exiting..." s1)
    else s1
  | _ => s1
  end.

(** How [run] ends, from how the command and [cleanup] ended. *)
Definition exit_of (rc : Res PyVal) (rcl : Res unit) : Res Z :=
  match rcl with
  | Ret _ =>
    match rc with
    | Ret v => Ret (if truthy v then 0 else 1)
    | Raise e => if is_interrupt e then Ret 0 else Raise e
    | Hang => Hang
    end
  | Raise e' => Raise e'
  | Hang => Hang
  end.

(** [self.ser] after [close()]. *)
Definition closed (p : Port) : Port :=
  match p with
  | NoPort => NoPort
  | _ => PortClosed
  end.




(** The response text a poll makes of a reply. *)
Definition creg_response (r : Reply) : option str :=
  match r with
  | Arrive rx _ => utf8_decode (read_until_loop (lit "OK") [] rx)
  | Fault _ => None
  end.


(** A registration report at the head of [s]: the text [+CREG:], a
    whitespace character, a digit, a comma and the status digit, which is
    what is given. *)
Definition report_here (s : str) : option Z :=
  if starts_with s (lit "+CREG:") then
    match skipn 6 s with
    | sp :: d :: c :: status :: _ =>
      if is_space sp && is_digit d && (c =? 44) && is_digit status
      then Some status else None
    | _ => None
    end
  else None.

(** The status of the first registration report in a response. *)
Fixpoint first_report (s : str) : option Z :=
  match report_here s with
  | Some status => Some status
  | None =>
    match s with
    | [] => None
    | _ :: s' => first_report s'
    end
  end.

(** The statuses that count as registered: the digits 1, 5, 6 and 7. *)
Definition accepted_status (status : Z) : bool :=
  (status =? 49) || (status =? 53) || (status =? 54) || (status =? 55).

(** The reply is terminated by [OK] and its first registration report
    carries an accepted status. *)
Definition accepted (r : Reply) : bool :=
  match creg_response r with
  | Some response =>
    contains response (lit "OK") &&
    match first_report response with
    | Some status => accepted_status status
    | None => false
    end
  | None => false
  end.


(** The registration query as written to the modem. *)
Definition creg_cmd : bytes := lit "AT+CREG?" ++ CRLF.



(** The error of [check_connection]. *)
Definition no_network : Exn := RuntimeError "No mobile network connection".


(** [receive] up to and including the listing of the messages already
    read. *)
Definition read_listing (cfg : Config) (host : Host) (codec : Codec)
  : M (bool * list Message) :=
  log INFO "Checking for received messages" ;;
  print Stderr (lit "Checking for received messages") ;;
  power_up cfg ;;
  at_command (lit "AT+CMGF=0") (lit "OK") 1 false ;;
  at_command
    (lit "AT+CPMS=" ++ quoted (lit "SM") ++ lit "," ++ quoted (lit "SM") ++
     lit "," ++ quoted (lit "SM"))
    (lit "OK") 1 false ;;
  list_messages host codec 1.

(** What [receive] does with that listing. *)
Definition receive_rest (cfg : Config) (host : Host) (codec : Codec)
    (result : bool) (sim_read : list Message) : M bool :=
  '(read_idx, fragments) <-
    (if result then
       now <- time_time ;;
       lift (scan_read cfg now sim_read [] [])
     else ret ([], [])) ;;
  '(result, unread) <- list_messages host codec 0 ;;
  if (result : bool) then
    '(messages, read_idx, fragments) <-
      lift (scan_unread unread [] read_idx fragments) ;;
    '(_, drained) <- lift (collect_fragments fragments None true) ;;
    match drained with
    | None => raise (ValueError "cannot unpack None")
    | Some (long_messages, frag_read_idx) =>
      emit (PrintJson (messages ++ long_messages)) ;;
      (if deleteall cfg then
         at_command (lit "AT+CMGD=1,1") (lit "OK") 2 false ;; ret tt
       else if negb (preserve cfg) then
         delete_slots (read_idx ++ frag_read_idx)
       else ret tt) ;;
      ret true
    end
  else
    log ERROR "Error checking messages!" ;;
    print Stderr (lit "Error checking messages!") ;;
    ret false.

(** The command that deletes the message in [slot] was written to the
    modem. *)
Definition deletes (slot : str) (evs : list Event) : Prop :=
  exists cmd,
    utf8_encode (lit "AT+CMGD=" ++ slot ++ CRLF) = Some cmd /\
    In (SerWrite cmd) evs.

(** [s'] continues the trace of [s]. *)
Definition extends (s s' : State) : Prop :=
  exists evs, trace s' = trace s ++ evs.

(** Whether an event is a log entry. *)
Definition is_log (e : Event) : bool :=
  match e with
  | Log _ _ => true
  | _ => false
  end.

(** A state with the log entries taken out of its trace. *)
Definition unlogged (s : State) : State :=
  mkState (powered s) (ser s) (gpio_loaded s) (script s) (clock s)
    (filter (fun e => negb (is_log e)) (trace s)).

(** What was written to the serial line, in order. *)
Definition writes (evs : list Event) : list bytes :=
  flat_map (fun e => match e with SerWrite d => [d] | _ => [] end) evs.

(** The levels the pin was driven to, in order. *)
Definition pin_levels (evs : list Event) : list (Z * Level) :=
  flat_map (fun e => match e with
                     | GpioOutput pin level => [(pin, level)]
                     | _ => []
                     end) evs.


(** The prompt printed when standard input is a terminal. *)
Definition tty_prompt (host : Host) : list Event :=
  if isatty host then
    [Print Stdout (lit "Enter message, press Ctrl-D on blank line to send");
     Print Stdout (lit "> ")]
  else [].

(** Only the trace of [s] has grown, by [evs]. *)
Definition traced (s : State) (evs : list Event) : State :=
  mkState (powered s) (ser s) (gpio_loaded s) (script s) (clock s)
    (trace s ++ evs).

(** How many times [data] was written to the serial line. *)
Definition count_writes (data : bytes) (evs : list Event) : nat :=
  length (filter (list_eqb data) (writes evs)).

(** A storage slot as the listing pattern captures it: decimal digits, at
    least one. *)
Definition is_slot (slot : str) : Prop :=
  slot <> [] /\ forallb is_digit slot = true.

(** The two groups of a match of the listing pattern: a slot, and an
    entry that is not empty and holds no line break. *)
Definition cmgl_groups (groups : list str) : Prop :=
  exists slot entry,
    groups = [slot; entry] /\ is_slot slot /\
    entry <> [] /\ forallb not_crlf entry = true.

(** What [list_messages] makes of one match: the slot becomes the index,
    the codec decodes the entry, and the text is normalised. *)
Definition listed (host : Host) (codec : Codec) (groups : list str)
    (m : Message) : Prop :=
  exists entry data,
    groups = [idx m; entry] /\
    SmsDeliver codec entry = Ok data /\
    surrogatepass_decode (big_endian host) (text data) = Ok (text m) /\
    date m = date data /\ sender m = sender data /\ frag m = frag data.

(** A message that carries the fragment keys. *)
Definition has_frag (m : Message) : bool :=
  match frag m with Some _ => true | None => false end.

(** A message dated before [limit]. *)
Definition is_old (limit : Z) (m : Message) : bool := date m <? limit.

(** The age limit [now - timedelta(hours=maxage)] can be computed: the
    time span fits a [timedelta] and the limit is a date of the years 1 to
    9999. *)
Definition limit_computable (cfg : Config) (now : Z) : Prop :=
  -999999999 <= maxage cfg / 24 <= 999999999 /\
  datetime_min <= now - maxage cfg * hour_ms <= datetime_max.

(** Every effect that [c] adds to the trace satisfies [P], however [c]
    ends. *)
Definition only {A} (P : Event -> bool) (c : M A) : Prop :=
  forall s, exists evs,
    trace (snd (c s)) = trace s ++ evs /\ forallb P evs = true.

(** What [monitor] may do: log, print, and run the configured command. *)
Definition listening (cfg : Config) (e : Event) : bool :=
  match e with
  | Log _ _ | Print _ _ => true
  | RunShell c =>
    match command cfg with
    | Some c' => list_eqb c c'
    | None => false
    end
  | _ => false
  end.

(** A command that deletes from the message storage. *)
Definition is_deletion (w : bytes) : bool := starts_with w (lit "AT+CMGD").

Definition is_json (e : Event) : bool :=
  match e with
  | PrintJson _ => true
  | _ => false
  end.

(** What [receive] does before it prints: no deletion, and no listing
    yet. *)
Definition listing (e : Event) : bool :=
  match e with
  | SerWrite w => negb (is_deletion w)
  | PrintJson _ => false
  | _ => true
  end.

(** The command of [--deleteall], as it is written to the line. *)
Definition wipe : bytes := lit "AT+CMGD=1,1" ++ CRLF.

(** What [receive] does after it has printed: under [--deleteall] it
    writes the one command that deletes the messages read, under
    [--preserve] it writes nothing, and it prints no second listing. *)
Definition deleting (cfg : Config) (e : Event) : bool :=
  match e with
  | SerWrite w =>
    if deleteall cfg then list_eqb w [0x1B] || list_eqb w wipe
    else negb (preserve cfg)
  | PrintJson _ => false
  | _ => true
  end.

(** How [receive] ends after the effects [post] that follow its listing
    phase: with nothing more and no success, or with the printed listing,
    the deletions, and no failure reported. *)
Definition receive_ends (cfg : Config) (r : Res bool) (post : list Event)
  : Prop :=
  (post = [] /\ r <> Ret true) \/
  (exists ms del,
     post = PrintJson ms :: del /\
     forallb (deleting cfg) del = true /\
     r <> Ret false).

Definition phased (cfg : Config) (c : M bool) : Prop :=
  forall s, exists pre post,
    trace (snd (c s)) = trace s ++ pre ++ post /\
    forallb listing pre = true /\
    receive_ends cfg (fst (c s)) post.

(** The commands of [modem_info], as they are written to the line: each
    after the escape octet. *)
Definition info_writes : list bytes :=
  flat_map (fun q => [[0x1B]; lit q ++ CRLF])
    ["ATI"; "AT+CPIN?"; "AT+CIMI"; "AT+CSQ"; "AT+CREG?"; "AT+COPS?"]%string.

(** [c] writes the octet strings [l] in this order: all of them when it
    returns, and otherwise the first of them. *)
Definition writes_exactly {A} (l : list bytes) (c : M A) : Prop :=
  forall s, exists evs,
    trace (snd (c s)) = trace s ++ evs /\
    (exists rest, l = writes evs ++ rest) /\
    (forall v, fst (c s) = Ret v -> writes evs = l).

Definition is_write (e : Event) : bool :=
  match e with
  | SerWrite _ => true
  | _ => false
  end.

Definition is_gpio_cleanup (e : Event) : bool :=
  match e with
  | GpioCleanup => true
  | _ => false
  end.

Definition is_open (p : Port) : bool :=
  match p with
  | PortOpen _ => true
  | _ => false
  end.

(** What no command changes: the powered flag, whether ['GPIO'] is in
    [sys.modules], and whether the port is open. *)
Definition standing (s : State) : bool * bool * bool :=
  (powered s, gpio_loaded s, is_open (ser s)).

(** What a command leaves to [setup] and [cleanup]: the pin, the closing
    of the port, and the log entry of [cleanup]. *)
Definition in_command (e : Event) : bool :=
  match e with
  | GpioSetup _ | GpioOutput _ _ | GpioCleanup | SerClose => false
  | _ => negb (is_cleanup e)
  end.

(** [c] does only what a command may do and leaves standing what a command
    leaves standing. *)
Definition orderly {A} (c : M A) : Prop :=
  only in_command c /\ forall s, standing (snd (c s)) = standing s.

(** The surrogate pair of a character from U+10000 on. *)
Definition surrogate_pair (c : Z) : list Z :=
  [0xD800 + (c - 0x10000) / 1024; 0xDC00 + (c - 0x10000) mod 1024].

(** A character as the 16-bit code units that stand for it. *)
Definition as_units (c : Z) : list Z :=
  if 0x10000 <=? c then surrogate_pair c else [c].

(** ** Scenarios *)

(** A process with the port open, the modem unpowered, and the given
    replies to come. *)
Definition demo_state (sc : list Reply) : State :=
  mkState false (PortOpen None) false sc 0 [].

(** No power pin, a wait of 18 seconds, and the command [c]. *)
Definition demo_config (c : Command) : Config :=
  mkConfig 0 0 0 18 false c (lit "+15550100") 1 false false None (lit "OK") 2.

(** A fragment in slot [slot] with the given text and fragment keys. *)
Definition fragment (slot body : string) (r c q : Z) : Message :=
  mkMessage (lit slot) 0 (lit "+15550123") (lit body) (Some (mkFrag r c q)).

(** Three parts of message 7 arriving as parts 3, 1, 2, and two of the
    three parts of message 9. *)
Definition scenario_records : list Message :=
  [fragment "5" "cc" 7 3 3; fragment "6" "aa" 7 3 1; fragment "8" "xx" 9 3 1;
   fragment "7" "bb" 7 3 2; fragment "9" "yy" 9 3 2].

Definition scenario_fragments : FragMap :=
  [(7, [fragment "5" "cc" 7 3 3; fragment "6" "aa" 7 3 1;
        fragment "7" "bb" 7 3 2]);
   (9, [fragment "8" "xx" 9 3 1; fragment "9" "yy" 9 3 2])].

(** Two parts of message 4 that disagree on the count. *)
Definition disagreeing_records : list Message :=
  [fragment "1" "aa" 4 2 1; fragment "2" "bb" 4 5 2].

Definition disagreeing_fragments : FragMap :=
  [(4, [fragment "1" "aa" 4 2 1; fragment "2" "bb" 4 5 2])].

(** A codec that splits every text into the same two chunks and decodes
    every entry to a part of message 7. *)
Definition demo_codec : Codec :=
  mkCodec
    (fun entry => Ok (mkMessage [] 0 (lit "+15550123") entry
                        (Some (mkFrag 7 3 1))))
    (fun number text' => Ok (mkSms number text'))
    (fun _ => Ok [mkPdu 20 (lit "0011AA"); mkPdu 21 (lit "0011BB")]).

Definition demo_host (input : string) : Host :=
  mkHost (lit input) false false true false.

Definition line (s : string) : bytes := lit s ++ CRLF.

(** The modem is registered and accepts the text mode, answers the prompt
    request of the first chunk with an error, then prompts for the second
    chunk and acknowledges it. *)
Definition failed_prompt_script : list Reply :=
  [Arrive (line "+CREG: 0,1" ++ line "OK") 30;
   Arrive (line "OK") 10;
   Arrive (line "ERROR") 10;
   Arrive (lit "> ") 10;
   Arrive (line "+CMGS: 5" ++ line "OK") 900].

(** The modem answers each of the six queries of [modem_info] with [OK]. *)
Definition obliging_script : list Reply :=
  repeat (Arrive (line "OK") 10) 6.

(** Whether [data] was written to the serial line. *)
Definition wrote (data : bytes) (evs : list Event) : bool :=
  existsb (fun e => match e with
                    | SerWrite d => list_eqb d data
                    | _ => false
                    end) evs.

(** Whether [text] was printed on [to]. *)
Definition printed (to : Stream) (text' : str) (evs : list Event) : bool :=
  existsb (fun e => match e, to with
                    | Print Stdout t, Stdout => list_eqb t text'
                    | Print Stderr t, Stderr => list_eqb t text'
                    | _, _ => false
                    end) evs.


(** The modem is still searching at the first poll and registered at the
    second. *)
Definition registering_script : list Reply :=
  [Arrive (line "+CREG: 0,2" ++ line "OK") 50;
   Arrive (line "+CREG: 0,1" ++ line "OK") 30].

(** [recv] with a maximum age of one hour, deleting what it lists. *)
Definition recv_config : Config :=
  mkConfig 0 0 0 18 false Receive [] 1 false false None (lit "OK") 2.

(** The modem holds one message already read, in slot 4; the codec makes
    it part 1 of 3 of message 7, stamped at time 0.  Nothing is unread. *)
Definition recv_script : list Reply :=
  [Arrive (line "OK") 10;
   Arrive (line "OK") 10;
   Arrive (line "+CMGL: 4,1,,23" ++ line "07911234" ++ line "OK") 50;
   Arrive (line "OK") 20;
   Arrive (line "OK") 20].

(** Three hours after time 0. *)
Definition recv_state : State :=
  mkState false (PortOpen None) false recv_script (3 * hour_ms) [].

Definition stored_part : Message :=
  mkMessage (lit "4") 0 (lit "+15550123") (lit "07911234")
    (Some (mkFrag 7 3 1)).

(** Whether an empty list of messages was printed. *)
Definition printed_nothing (evs : list Event) : bool :=
  existsb (fun e => match e with
                    | PrintJson [] => true
                    | _ => false
                    end) evs.

(** Power pin 4 with pulses of [up] and [down] seconds. *)
Definition pulse_config (up down : Z) : Config :=
  mkConfig 4 up down 18 false Clear [] 1 false false None [] 2.

(** The modem lists the stored part in slot 4. *)
Definition listing_state : State :=
  demo_state
    [Arrive (line "+CMGL: 4,1,,23" ++ line "07911234" ++ line "OK") 50].

(** The same modem, but the listing of the unread messages fails. *)
Definition unlisted_script : list Reply :=
  [Arrive (line "OK") 10;
   Arrive (line "OK") 10;
   Arrive (line "+CMGL: 4,1,,23" ++ line "07911234" ++ line "OK") 50;
   Arrive (line "ERROR") 20].

Definition unlisted_state : State :=
  mkState false (PortOpen None) false unlisted_script (3 * hour_ms) [].

(** * Properties *)

(** Let [lia] reason about division and remainder by constants. *)
Ltac Zify.zify_post_hook ::= Z.div_mod_to_equations.

Ltac run_monad :=
  unfold bind, ret, raise, hang, lift, option_try, log, print, emit, tick,
    set_powered, set_ser, set_script, get, with_port; cbn.

(** ** Text *)

Lemma list_eqb_eq (a b : list Z) : list_eqb a b = true <-> a = b.
Proof.
  revert b; induction a as [|x a IH]; intros [|y b]; simpl;
    try (split; [discriminate | congruence]); try tauto.
  rewrite andb_true_iff, Z.eqb_eq, IH.
  split; [intros [-> ->]; reflexivity | intros H; inversion H; auto].
Qed.

Lemma starts_with_spec (s p : list Z) :
  starts_with s p = true <-> exists post, s = p ++ post.
Proof.
  revert s; induction p as [|x p IH]; intros s; simpl.
  - split; [exists s; reflexivity | destruct s; reflexivity].
  - destruct s as [|y s].
    + split; [discriminate | intros [post H]; discriminate].
    + simpl. rewrite andb_true_iff, Z.eqb_eq, IH. split.
      * intros [-> [post ->]]. exists post. reflexivity.
      * intros [post H]. inversion H; subst.
        split; [reflexivity | now exists post].
Qed.

Lemma contains_spec (s p : list Z) :
  contains s p = true <-> occurs_in p s.
Proof.
  unfold occurs_in. induction s as [|y s IH].
  - cbn [contains]. rewrite orb_false_r, starts_with_spec. split.
    + intros [post H]. exists [], post. exact H.
    + intros [pre [post H]]. destruct pre; [now exists post | discriminate].
  - cbn [contains]. rewrite orb_true_iff, starts_with_spec, IH. split.
    + intros [[post H] | [pre [post H]]].
      * exists [], post. exact H.
      * exists (y :: pre), post. simpl. now rewrite H.
    + intros [[|z pre] [post H]].
      * left. now exists post.
      * right. inversion H; subst. now exists pre, post.
Qed.

(** ** The read loop of the transport *)

Lemma tail_slice_terminated (line e : list Z) :
  line <> [] ->
  (list_eqb (tail_slice line (length e)) e = true <-> terminated line e).
Proof.
  intros Hne. rewrite list_eqb_eq. unfold terminated, tail_slice.
  destruct e as [|x e].
  - simpl. split; [congruence | intros [H _]; congruence].
  - cbn [length]. split.
    + intros H. split; [discriminate |].
      exists (firstn (length line - S (length e)) line).
      rewrite <- H. symmetry. apply firstn_skipn.
    + intros [_ [pre ->]].
      rewrite length_app. cbn [length].
      replace (length pre + S (length e) - S (length e))%nat
        with (length pre + 0)%nat by lia.
      rewrite skipn_app. rewrite Nat.add_0_r, skipn_all, Nat.sub_diag.
      reflexivity.
Qed.

Lemma read_until_loop_spec (e rx line : bytes) :
  exists taken rest,
    rx = taken ++ rest /\
    read_until_loop e line rx = line ++ taken /\
    (rest = [] \/ terminated (line ++ taken) e) /\
    (forall t1 t2, taken = t1 ++ t2 -> t1 <> [] -> t2 <> [] ->
                   ~ terminated (line ++ t1) e).
Proof.
  revert line; induction rx as [|c rx IH]; intros line.
  - exists [], []. split; [reflexivity |]. split; [now rewrite app_nil_r |].
    split; [now left |].
    intros t1 t2 H. symmetry in H. apply app_eq_nil in H. tauto.
  - cbn [read_until_loop].
    destruct (list_eqb (tail_slice (line ++ [c]) (length e)) e) eqn:Hstop.
    + exists [c], rx. split; [reflexivity |]. split; [reflexivity |]. split.
      * right. apply tail_slice_terminated; [|exact Hstop].
        intros H. apply app_eq_nil in H. destruct H; discriminate.
      * intros [|a t1] t2 H; [congruence |].
        inversion H as [[Ha Ht]]. symmetry in Ht. apply app_eq_nil in Ht.
        tauto.
    + destruct (IH (line ++ [c])) as (taken & rest & Hrx & Hres & Hend & Hmin).
      exists (c :: taken), rest. rewrite <- app_assoc in Hres, Hend.
      split; [simpl; now rewrite Hrx |]. split; [exact Hres |].
      split; [exact Hend |].
      intros [|a t1] t2 H Hn1 Hn2; [congruence |].
      inversion H; subst a taken.
      destruct t1 as [|b t1].
      * intros Ht. apply tail_slice_terminated in Ht; [congruence |].
        intros Hnil. apply app_eq_nil in Hnil. destruct Hnil; discriminate.
      * specialize (Hmin (b :: t1) t2 eq_refl).
        rewrite <- app_assoc in Hmin. apply Hmin; [discriminate | exact Hn2].
Qed.

(** ** The AT command engine *)

(** An exchange on an open port whose texts encode and whose reply decodes
    runs to its end, and this is the state it leaves. *)
Lemma at_command_run command back timeout quiet s t rx dt cmd expected
    response :
  ser s = PortOpen t ->
  0 <= timeout ->
  utf8_encode (command ++ CRLF) = Some cmd ->
  utf8_encode back = Some expected ->
  pending s timeout = Arrive rx dt ->
  utf8_decode (read_until_loop expected [] rx) = Some response ->
  at_command command back timeout quiet s =
  (Ret (contains response back, response),
   mkState (powered s) (PortOpen (Some timeout)) (gpio_loaded s)
     (tl (script s)) (clock s + Z.of_N dt)
     (trace s ++ at_events cmd (contains response back) quiet)).
Proof.
  intros Hser Hto Hcmd Hexp Hpend Hdec.
  destruct s as [pw sr gl sc ck tr]; cbn in *; subst sr.
  unfold at_command, ser_reset_input_buffer, ser_write, ser_set_timeout,
    ser_read_until, next_reply, encode, decode.
  run_monad. rewrite Hcmd. cbn.
  destruct (Z.ltb_spec timeout 0) as [Hneg | _]; [lia |]. cbn.
  rewrite Hexp. cbn. unfold pending in Hpend. cbn in Hpend.
  destruct sc as [|r sc].
  - injection Hpend as <- <-. cbn in Hdec. injection Hdec as <-.
    unfold at_events. destruct back, quiet; cbn;
      rewrite <- ?app_assoc; reflexivity.
  - subst r. cbn. rewrite Hdec. cbn. unfold at_events.
    destruct (contains response back), quiet; cbn;
      rewrite <- ?app_assoc; reflexivity.
Qed.

(** C1.  An exchange with the modem reports success exactly when the
    expected terminator occurs in the response text, and the response is
    the text of the octets accumulated up to the first point where they end
    with the terminator, or of all that arrived before the timeout. *)
Theorem at_command_success_iff_terminator command back timeout quiet s t rx
    dt cmd expected response :
  ser s = PortOpen t ->
  0 <= timeout ->
  utf8_encode (command ++ CRLF) = Some cmd ->
  utf8_encode back = Some expected ->
  pending s timeout = Arrive rx dt ->
  utf8_decode (read_until_loop expected [] rx) = Some response ->
  exists success s' line rest,
    at_command command back timeout quiet s = (Ret (success, response), s') /\
    (success = true <-> occurs_in back response) /\
    rx = line ++ rest /\
    utf8_decode line = Some response /\
    (rest = [] \/ terminated line expected) /\
    (forall l1 l2, line = l1 ++ l2 -> l1 <> [] -> l2 <> [] ->
                   ~ terminated l1 expected).
Proof.
  intros Hser Hto Hcmd Hexp Hpend Hdec.
  destruct (read_until_loop_spec expected rx [])
    as (line & rest & Hrx & Hline & Hend & Hmin).
  cbn [app] in Hline, Hend, Hmin. rewrite Hline in Hdec.
  eexists (contains response back), _, line, rest.
  split.
  - erewrite at_command_run; try eassumption; [reflexivity |].
    now rewrite Hline.
  - split; [apply contains_spec |]. auto.
Qed.

Lemma at_command_success_iff_terminator_witness :
  exists success s' line rest,
    at_command (lit "AT") (lit "OK") 2 false
      (demo_state [Arrive [13; 10; 79; 75; 13; 10] 40]) =
      (Ret (success, [13; 10; 79; 75]), s') /\
    (success = true <-> occurs_in (lit "OK") [13; 10; 79; 75]) /\
    [13; 10; 79; 75; 13; 10] = line ++ rest /\
    utf8_decode line = Some [13; 10; 79; 75] /\
    (rest = [] \/ terminated line (lit "OK")) /\
    (forall l1 l2, line = l1 ++ l2 -> l1 <> [] -> l2 <> [] ->
                   ~ terminated l1 (lit "OK")).
Proof.
  apply (@at_command_success_iff_terminator (lit "AT") (lit "OK") 2 false
           (demo_state [Arrive [13; 10; 79; 75; 13; 10] 40]) None
           [13; 10; 79; 75; 13; 10] 40%N
           (lit "AT" ++ CRLF) (lit "OK") [13; 10; 79; 75]);
    solve [reflexivity | lia].
Defined.

(** ** The power sequencer *)

(** C5.  While the powered flag is unset, [power_down] changes no pin and
    takes no delay: it only logs that it skips.  The flag is unset as long
    as [power_up] was not called, and stays unset when [power_up] runs with
    no power pin configured. *)
Theorem power_down_noop_unless_powered (cfg : Config) (s : State) :
  powered s = false ->
  power_down cfg s = (Ret tt, skipped_power_down s) /\
  (pwrpin cfg = 0 ->
   exists s1,
     power_up cfg s = (Ret tt, s1) /\
     powered s1 = false /\
     power_down cfg s1 = (Ret tt, skipped_power_down s1)).
Proof.
  intros Hp. destruct s as [pw sr gl sc ck tr]. cbn in Hp. subst pw.
  split; [reflexivity |].
  intros Hpin. unfold power_up. rewrite Hpin. cbn.
  eexists. split; [reflexivity |]. split; reflexivity.
Qed.

Lemma power_down_noop_unless_powered_witness :
  power_down (demo_config Clear) (demo_state []) =
    (Ret tt, skipped_power_down (demo_state [])) /\
  exists s1,
    power_up (demo_config Clear) (demo_state []) = (Ret tt, s1) /\
    powered s1 = false /\
    power_down (demo_config Clear) s1 = (Ret tt, skipped_power_down s1).
Proof.
  destruct (power_down_noop_unless_powered (demo_config Clear)
              (demo_state []) eq_refl) as [Hdown Hup].
  split; [exact Hdown | apply Hup; reflexivity].
Defined.

(** ** Surrogate pairs *)

Lemma land_255 (u : Z) : Z.land u 0xFF = u mod 256.
Proof. change 0xFF with (Z.ones 8). now rewrite Z.land_ones by lia. Qed.

Lemma land_1023 (u : Z) : Z.land u 0x3FF = u mod 1024.
Proof. change 0x3FF with (Z.ones 10). now rewrite Z.land_ones by lia. Qed.

Lemma shiftr_8 (u : Z) : Z.shiftr u 8 = u / 256.
Proof. now rewrite Z.shiftr_div_pow2 by lia. Qed.

Lemma shiftr_10 (u : Z) : Z.shiftr u 10 = u / 1024.
Proof. now rewrite Z.shiftr_div_pow2 by lia. Qed.

Lemma shiftl_10 (u : Z) : Z.shiftl u 10 = u * 1024.
Proof. now rewrite Z.shiftl_mul_pow2 by lia. Qed.

Lemma is_scalar_range (c : Z) :
  is_scalar c = true ->
  0 <= c <= 0x10FFFF /\ (c < 0xD800 \/ 0xDFFF < c).
Proof. unfold is_scalar, is_surrogate. lia. Qed.

Lemma utf16_units_are_units (c : Z) :
  0 <= c <= 0x10FFFF -> Forall (fun u => is_unit u = true) (utf16_units c).
Proof.
  intros Hc. unfold utf16_units, is_unit.
  destruct (Z.ltb_spec c 0x10000).
  - constructor; [lia | constructor].
  - rewrite shiftr_10, land_1023.
    constructor; [lia |]. constructor; [lia | constructor].
Qed.

Lemma from_bytes_unit (u : Z) :
  is_unit u = true -> from_bytes_little (unit_bytes false u) = u.
Proof.
  unfold is_unit. intros Hu. cbn [unit_bytes from_bytes_little].
  rewrite land_255, shiftr_8. lia.
Qed.

Lemma surrogatepair_units (c : Z) :
  is_nonbmp c = true -> _surrogatepair c = Ok (utf16_units c).
Proof.
  unfold is_nonbmp. intros Hc. unfold _surrogatepair, utf16le_encode_char.
  destruct (Z.gtb_spec c 0xffff) as [_ | Hle]; [| lia]. cbn [negb].
  assert (Hs : is_surrogate c = false) by (unfold is_surrogate; lia).
  rewrite Hs. unfold utf16_units.
  destruct (Z.ltb_spec c 0x10000); [lia |].
  set (hi := 0xD800 + Z.shiftr (c - 0x10000) 10).
  set (lo := 0xDC00 + Z.land (c - 0x10000) 0x3FF).
  assert (Hhi : is_unit hi = true).
  { subst hi. rewrite shiftr_10. unfold is_unit. lia. }
  assert (Hlo : is_unit lo = true).
  { subst lo. rewrite land_1023. unfold is_unit. lia. }
  change (units_bytes false [hi; lo])
    with (unit_bytes false hi ++ unit_bytes false lo).
  change (firstn 2 (unit_bytes false hi ++ unit_bytes false lo))
    with (unit_bytes false hi).
  change (skipn 2 (unit_bytes false hi ++ unit_bytes false lo))
    with (unit_bytes false lo).
  now rewrite !from_bytes_unit.
Qed.

Lemma with_surrogates_units (text : str) :
  Forall (fun c => is_scalar c = true) text ->
  with_surrogates text = Ok (flat_map utf16_units text).
Proof.
  induction 1 as [| c text Hc _ IH]; [reflexivity |].
  cbn [with_surrogates flat_map]. rewrite IH. unfold _nonbmp.
  destruct (is_nonbmp c) eqn:Hn.
  - now rewrite surrogatepair_units.
  - apply is_scalar_range in Hc. unfold is_nonbmp in Hn. unfold utf16_units.
    destruct (Z.ltb_spec c 0x10000); [reflexivity | lia].
Qed.

Lemma units_of_units (us : list Z) :
  Forall (fun u => is_unit u = true) us -> flat_map utf16_units us = us.
Proof.
  induction 1 as [| u us Hu _ IH]; [reflexivity |].
  cbn [flat_map]. rewrite IH. unfold utf16_units, is_unit in *.
  destruct (Z.ltb_spec u 0x10000); [reflexivity | lia].
Qed.

Lemma bytes_units_inverse (be : bool) (us : list Z) :
  Forall (fun u => is_unit u = true) us ->
  bytes_units be (units_bytes be us) = Some us.
Proof.
  induction 1 as [| u us Hu _ IH]; [reflexivity |].
  unfold units_bytes in *. cbn [flat_map].
  unfold is_unit in Hu.
  destruct be; cbn [unit_bytes app bytes_units]; rewrite IH;
    rewrite land_255, shiftr_8; do 2 f_equal; lia.
Qed.

Lemma units_decode_inverse (text : str) :
  Forall (fun c => is_scalar c = true) text ->
  units_decode (flat_map utf16_units text) = Some text.
Proof.
  induction 1 as [| c text Hc _ IH]; [reflexivity |].
  apply is_scalar_range in Hc. cbn [flat_map]. unfold utf16_units at 1.
  destruct (Z.ltb_spec c 0x10000).
  - cbn [app units_decode].
    replace (is_high c) with false by (unfold is_high; lia).
    replace (is_low c) with false by (unfold is_low; lia).
    now rewrite IH.
  - rewrite shiftr_10, land_1023. cbn [app units_decode].
    replace (is_high _) with true by (unfold is_high; lia).
    replace (is_low _) with true by (unfold is_low; lia).
    rewrite IH, shiftl_10. do 2 f_equal. lia.
Qed.

Lemma utf16_decode_bom (be : bool) (body : bytes) :
  utf16_decode be (bom be ++ body) =
  match bytes_units be body with
  | Some us => units_decode us
  | None => None
  end.
Proof. destruct be; reflexivity. Qed.

(** C6.  A message text made of characters, those outside the 16-bit range
    included, comes back unchanged when [with_surrogates] (applied before
    sending) is followed by the [surrogatepass] UTF-16 re-decoding that
    [list_messages] applies, whatever the byte order of the machine. *)
Theorem surrogate_round_trip (native_be : bool) (text : str) :
  Forall (fun c => is_scalar c = true) text ->
  exists sent,
    with_surrogates text = Ok sent /\
    surrogatepass_decode native_be sent = Ok text.
Proof.
  intros Htext. exists (flat_map utf16_units text).
  split; [now apply with_surrogates_units |].
  assert (Hu : Forall (fun u => is_unit u = true) (flat_map utf16_units text)).
  { apply Forall_flat_map. eapply Forall_impl; [| exact Htext].
    intros c Hc. apply utf16_units_are_units.
    apply is_scalar_range in Hc. lia. }
  unfold surrogatepass_decode, utf16_encode_surrogatepass.
  rewrite utf16_decode_bom, units_of_units, bytes_units_inverse by exact Hu.
  now rewrite units_decode_inverse.
Qed.

Lemma surrogate_round_trip_witness :
  exists sent,
    with_surrogates [72; 105; 32; 0x1F600; 0x20AC; 0x10FFFF] = Ok sent /\
    surrogatepass_decode false sent =
      Ok [72; 105; 32; 0x1F600; 0x20AC; 0x10FFFF].
Proof.
  apply (@surrogate_round_trip false [72; 105; 32; 0x1F600; 0x20AC; 0x10FFFF]).
  repeat constructor.
Defined.

(** ** The stable sort *)

Lemma insert_by_key_perm x l : Permutation (x :: l) (insert_by_key x l).
Proof.
  induction l as [| y l IH]; cbn [insert_by_key]; [reflexivity |].
  destruct (fst x <=? fst y); [reflexivity |].
  rewrite perm_swap. now apply perm_skip.
Qed.

Lemma sort_by_key_perm l : Permutation l (sort_by_key l).
Proof.
  induction l as [| x l IH]; cbn [sort_by_key]; [reflexivity |].
  rewrite <- insert_by_key_perm. now apply perm_skip.
Qed.

Lemma insert_by_key_sorted x l :
  StronglySorted key_le l -> StronglySorted key_le (insert_by_key x l).
Proof.
  induction 1 as [| y l Hs IH Hy]; cbn [insert_by_key].
  - repeat constructor.
  - destruct (Z.leb_spec (fst x) (fst y)) as [Hle | Hgt].
    + constructor; [now constructor |].
      constructor; [exact Hle |].
      eapply Forall_impl; [| exact Hy]. unfold key_le. intros; lia.
    + constructor; [exact IH |].
      eapply Permutation_Forall; [apply insert_by_key_perm |].
      constructor; [unfold key_le; lia | exact Hy].
Qed.

Lemma sort_by_key_sorted l : StronglySorted key_le (sort_by_key l).
Proof.
  induction l as [| x l IH]; cbn [sort_by_key]; [constructor |].
  now apply insert_by_key_sorted.
Qed.

Lemma seq_keys_fragments ms :
  Forall is_fragment ms -> seq_keys ms = Ok (map keyed ms).
Proof.
  induction 1 as [| m ms Hm _ IH]; [reflexivity |].
  cbn [seq_keys map]. rewrite IH. unfold frag_key, keyed, seq_of.
  unfold is_fragment in Hm. destruct (frag m); [reflexivity | congruence].
Qed.

Lemma sorted_keys_by_seq l :
  StronglySorted key_le l ->
  Forall (fun e => fst e = seq_of (snd e)) l ->
  StronglySorted by_seq (map snd l).
Proof.
  induction 1 as [| e l Hs IH He]; intros Hk; [constructor |].
  inversion Hk as [| ? ? Hke Hkl]; subst. cbn [map].
  constructor; [now apply IH |].
  apply Forall_map. rewrite Forall_forall in *.
  intros e' Hin. unfold by_seq. rewrite <- Hke, <- (Hkl e' Hin).
  now apply He.
Qed.

Lemma sort_by_seq_spec ms :
  Forall is_fragment ms ->
  exists sorted,
    sort_by_seq ms = Ok sorted /\
    Permutation ms sorted /\ StronglySorted by_seq sorted.
Proof.
  intros Hms. unfold sort_by_seq. rewrite seq_keys_fragments by exact Hms.
  eexists. split; [reflexivity |].
  pose proof (sort_by_key_perm (map keyed ms)) as Hperm.
  split.
  - apply (Permutation_map snd) in Hperm.
    rewrite map_map in Hperm. cbn in Hperm. now rewrite map_id in Hperm.
  - apply sorted_keys_by_seq; [apply sort_by_key_sorted |].
    eapply Permutation_Forall; [exact Hperm |].
    apply Forall_map. apply Forall_forall. reflexivity.
Qed.

(** ** Draining one set *)

Lemma process_set_spec members :
  members <> [] ->
  Forall is_fragment members ->
  exists members' out,
    process_set members = Ok (members', out) /\ set_drained members out.
Proof.
  intros Hne Hfr. destruct members as [| first later]; [congruence |].
  pose proof (Forall_inv Hfr) as Hfirst. unfold is_fragment in Hfirst.
  unfold process_set, frag_key, set_drained, drained_by_first, cnt_of.
  destruct (frag first) as [f |] eqn:Hf; [| congruence].
  destruct (Z.eqb_spec (Z.of_nat (length (first :: later))) (cnt f))
    as [Hlen | Hlen].
  - destruct (sort_by_seq_spec Hfr) as (sorted & Hsort & Hperm & Hsorted).
    rewrite Hsort.
    assert (Hsne : sorted <> []).
    { intros ->. apply Permutation_sym, Permutation_nil in Hperm.
      discriminate. }
    destruct (exists_last Hsne) as (init & final & ->).
    eexists _, _. split; [reflexivity |]. split.
    + exists first, later. rewrite Hf.
      split; [reflexivity |]. split; [intros _; exact Hlen | discriminate].
    + exists (init ++ [final]), init, final. rewrite last_last.
      repeat (split; [solve [auto] |]).
      intros m Hin. apply in_map. eapply Permutation_in; eassumption.
  - eexists _, _. split; [reflexivity |]. split; [| exact I].
    exists first, later. rewrite Hf.
    split; [reflexivity |]. split; [congruence | intros H; contradiction].
Qed.

Lemma set_drained_as members out :
  set_drained members out -> drained_as members out.
Proof.
  intros [(first & later & -> & Hiff) Hre]. split; [exact Hre |].
  intros n Hn. destruct (Hn first (or_introl eq_refl)) as (f & Hf & Hc).
  unfold cnt_of in Hiff. rewrite Hf, Hc in Hiff. exact Hiff.
Qed.

Lemma process_sets_spec fragments :
  sets_ok fragments ->
  exists fragments' outs,
    process_sets fragments =
      Ok (fragments', (flat_map emitted outs, flat_map released outs)) /\
    Forall2 set_drained (map snd fragments) outs.
Proof.
  induction 1 as [| [r members] rest [Hne Hfr] _ IH].
  - exists [], []. split; [reflexivity | constructor].
  - destruct IH as (rest' & outs & Hrest & Hall).
    destruct (process_set_spec Hne Hfr) as (members' & out & Hset & Hout).
    cbn [process_sets]. cbn [snd] in Hset. rewrite Hset, Hrest.
    exists ((r, members') :: rest'), (out :: outs).
    split; [| now constructor].
    destruct out as [[message slots] |]; reflexivity.
Qed.

(** ** Ingestion *)

Lemma has_key_In k (fs : FragMap) :
  has_key k fs = true <-> In k (map fst fs).
Proof.
  unfold has_key. rewrite existsb_exists, in_map_iff. split.
  - intros (e & Hin & He). exists e. split; [lia | exact Hin].
  - intros (e & He & Hin). exists e. split; [exact Hin | lia].
Qed.

Lemma append_at_keys k d (fs : FragMap) :
  map fst (append_at k d fs) = map fst fs.
Proof.
  induction fs as [| [r ms] fs IH]; [reflexivity |].
  cbn [append_at]. destruct (r =? k); cbn [map fst]; [| rewrite IH];
    reflexivity.
Qed.

Lemma append_at_members k d (fs : FragMap) (P : Z -> list Message -> Prop) :
  Forall (fun e => P (fst e) (snd e)) fs ->
  (forall ms, P k ms -> P k (ms ++ [d])) ->
  Forall (fun e => P (fst e) (snd e)) (append_at k d fs).
Proof.
  intros Hfs Hstep. induction Hfs as [| [r ms] fs He Hfs IH]; [constructor |].
  cbn [append_at]. destruct (Z.eqb_spec r k) as [-> | _].
  - constructor; [apply Hstep, He | assumption].
  - constructor; assumption.
Qed.

Lemma ingest_fragment fs d fs' :
  ingest fs d = Ok fs' -> is_fragment d.
Proof.
  unfold ingest, frag_key, is_fragment. destruct (frag d); [| discriminate].
  discriminate.
Qed.

Lemma ingest_well_formed fs d fs' :
  well_formed fs -> ingest fs d = Ok fs' -> well_formed fs'.
Proof.
  intros [Hnd Hall] Hing. pose proof (@ingest_fragment _ _ _ Hing) as Hd.
  unfold ingest, frag_key in Hing. unfold is_fragment in Hd.
  destruct (frag d) as [f |] eqn:Hf; [| congruence].
  assert (Hr : ref_of d = ref f) by (unfold ref_of; now rewrite Hf).
  destruct (has_key (ref f) fs) eqn:Hk; injection Hing as <-; split.
  - now rewrite append_at_keys.
  - apply (@append_at_members (ref f) d fs
             (fun r ms => ms <> [] /\
                Forall (fun m => is_fragment m /\ ref_of m = r) ms));
      [exact Hall |].
    intros ms [_ Hms]. split.
    + intros H. apply app_eq_nil in H. destruct H; discriminate.
    + apply Forall_app. split; [exact Hms |].
      constructor; [| constructor]. unfold is_fragment. split; congruence.
  - rewrite map_app. cbn [map fst].
    apply NoDup_app; [exact Hnd | repeat constructor; intros [] |].
    intros k Hin [<- | []]. apply has_key_In in Hin. congruence.
  - apply Forall_app. split; [exact Hall |].
    constructor; [| constructor]. cbn [fst snd]. split; [discriminate |].
    constructor; [| constructor]. unfold is_fragment. split; congruence.
Qed.

Lemma members_of_append_at r k d (fs : FragMap) :
  has_key k fs = true ->
  members_of r (append_at k d fs) =
  members_of r fs ++ (if k =? r then [d] else []).
Proof.
  unfold members_of. induction fs as [| [r0 ms] fs IH]; [discriminate |].
  cbn [has_key existsb fst]. intros Hk.
  cbn [append_at]. destruct (Z.eqb_spec r0 k) as [-> | Hne].
  - cbn [find fst]. destruct (Z.eqb_spec k r); cbn [snd];
      [reflexivity | now rewrite app_nil_r].
  - cbn [find fst]. destruct (Z.eqb_spec r0 r) as [-> | _].
    + cbn [snd]. destruct (Z.eqb_spec k r); [congruence |].
      now rewrite app_nil_r.
    + apply IH. cbn [orb] in Hk. exact Hk.
Qed.

Lemma members_of_new r k d (fs : FragMap) :
  has_key k fs = false ->
  members_of r (fs ++ [(k, [d])]) =
  members_of r fs ++ (if k =? r then [d] else []).
Proof.
  unfold members_of. induction fs as [| [r0 ms] fs IH]; intros Hk.
  - cbn. destruct (k =? r); reflexivity.
  - cbn [has_key existsb fst] in Hk. apply orb_false_iff in Hk.
    destruct Hk as [Hr0 Hk]. cbn [app find fst].
    destruct (Z.eqb_spec r0 r) as [-> | _].
    + cbn [snd]. rewrite Z.eqb_sym, Hr0. now rewrite app_nil_r.
    + now apply IH.
Qed.

Lemma ingest_members_of r fs d fs' :
  ingest fs d = Ok fs' ->
  members_of r fs' = members_of r fs ++ (if ref_of d =? r then [d] else []).
Proof.
  unfold ingest, frag_key, ref_of.
  destruct (frag d) as [f |]; [| discriminate].
  destruct (has_key (ref f) fs) eqn:Hk; intros H; injection H as <-.
  - now apply members_of_append_at.
  - now apply members_of_new.
Qed.

Lemma collect_ingest fs d :
  collect_fragments fs (Some d) false =
  match ingest fs d with
  | Ok fs' => Ok (fs', None)
  | Err e => Err e
  end.
Proof. unfold collect_fragments. destruct (ingest fs d); reflexivity. Qed.

Lemma ingest_all_spec records : forall fs fs',
  well_formed fs ->
  ingest_all fs records = Ok fs' ->
  well_formed fs' /\
  forall r, members_of r fs' =
            members_of r fs ++ filter (fun m => ref_of m =? r) records.
Proof.
  induction records as [| d records IH]; intros fs fs' Hwf Hall.
  - injection Hall as <-. split; [exact Hwf |].
    intros r. now rewrite app_nil_r.
  - cbn [ingest_all] in Hall. rewrite collect_ingest in Hall.
    destruct (ingest fs d) as [fs1 | e] eqn:Hing; [| discriminate].
    destruct (IH fs1 fs' (@ingest_well_formed _ _ _ Hwf Hing) Hall)
      as [Hwf' Hmem].
    split; [exact Hwf' |]. intros r.
    rewrite Hmem, (@ingest_members_of r _ _ _ Hing), <- app_assoc.
    cbn [filter].
    destruct (ref_of d =? r); reflexivity.
Qed.

Lemma members_of_In r ms (fs : FragMap) :
  NoDup (map fst fs) -> In (r, ms) fs -> members_of r fs = ms.
Proof.
  unfold members_of. induction fs as [| [r0 ms0] fs IH]; [intros _ [] |].
  cbn [map fst]. intros Hnd [Heq | Hin].
  - injection Heq as -> ->. cbn [find fst]. now rewrite Z.eqb_refl.
  - inversion Hnd as [| ? ? Hnotin Hnd']; subst. cbn [find fst].
    destruct (Z.eqb_spec r0 r) as [-> | _]; [| now apply IH].
    exfalso. apply Hnotin. apply in_map_iff. now exists (r, ms).
Qed.

Lemma well_formed_nil : well_formed [].
Proof. split; constructor. Qed.

Lemma well_formed_sets_ok fs : well_formed fs -> sets_ok fs.
Proof.
  intros [_ Hall]. eapply Forall_impl; [| exact Hall].
  intros e [Hne Hms]. split; [exact Hne |].
  eapply Forall_impl; [| exact Hms]. now intros m [Hm _].
Qed.

(** ** The counts of later members *)

Lemma alike_refl m : alike m m.
Proof. unfold alike. destruct (frag m); auto. Qed.

Lemma alike_with_cnt n m : alike m (with_cnt n m).
Proof. unfold alike, with_cnt. cbn. destruct (frag m); cbn; auto. Qed.

Lemma seq_keys_alike ms ms' :
  Forall2 alike ms ms' ->
  match seq_keys ms, seq_keys ms' with
  | Ok l, Ok l' => Forall2 alike_keyed l l'
  | Err e, Err e' => e = e'
  | _, _ => False
  end.
Proof.
  induction 1 as [| m m' ms ms' Hm _ IH]; [constructor |].
  cbn [seq_keys]. unfold frag_key.
  pose proof Hm as (_ & _ & _ & _ & Hfrag).
  destruct (frag m) as [f |], (frag m') as [f' |]; try contradiction;
    [| reflexivity].
  destruct (seq_keys ms) as [l | e], (seq_keys ms') as [l' | e'];
    try contradiction; [| exact IH].
  constructor; [| exact IH]. split; [exact Hfrag | exact Hm].
Qed.

Lemma insert_by_key_alike x x' l l' :
  alike_keyed x x' -> Forall2 alike_keyed l l' ->
  Forall2 alike_keyed (insert_by_key x l) (insert_by_key x' l').
Proof.
  intros Hx. induction 1 as [| y y' l l' Hy Hl IH]; cbn [insert_by_key].
  - constructor; [exact Hx | constructor].
  - destruct Hx as [Hkx Hmx]. destruct Hy as [Hky Hmy].
    rewrite <- Hkx, <- Hky. destruct (fst x <=? fst y).
    + do 2 (constructor; [split; assumption |]). exact Hl.
    + constructor; [split; assumption |]. apply IH.
Qed.

Lemma sort_by_key_alike l l' :
  Forall2 alike_keyed l l' ->
  Forall2 alike_keyed (sort_by_key l) (sort_by_key l').
Proof.
  induction 1; cbn [sort_by_key]; [constructor |].
  now apply insert_by_key_alike.
Qed.

Lemma alike_maps l l' :
  Forall2 alike l l' ->
  map text l = map text l' /\ map idx l = map idx l'.
Proof.
  induction 1 as [| m m' l l' (Hi & _ & _ & Ht & _) _ [IHt IHi]];
    [split; reflexivity |].
  cbn [map]. rewrite Hi, Ht, IHt, IHi. split; reflexivity.
Qed.

Lemma alike_last l l' d d' :
  Forall2 alike l l' -> alike d d' -> alike (last l d) (last l' d').
Proof.
  intros Hl Hd. induction Hl as [| m m' l l' Hm Hl IH]; [exact Hd |].
  destruct Hl; [exact Hm | exact IH].
Qed.

Lemma synthesize_alike m m' t :
  alike m m' -> synthesize m t = synthesize m' t.
Proof.
  intros (Hi & Hd & Hs & _). unfold synthesize. now rewrite Hi, Hd, Hs.
Qed.

Lemma process_set_recount g members :
  returned (process_set (recount_set g members)) =
  returned (process_set members).
Proof.
  destruct members as [| first later]; [reflexivity |].
  cbn [recount_set]. unfold process_set.
  destruct (frag_key "cnt" cnt first) as [declared | e]; [| reflexivity].
  cbn [length]. rewrite length_map.
  destruct (Z.of_nat (S (length later)) =? declared); [| reflexivity].
  assert (Hal : Forall2 alike (first :: later)
                  (first :: map (fun m => with_cnt (g m) m) later)).
  { constructor; [apply alike_refl |].
    induction later; cbn [map]; constructor;
      [apply alike_with_cnt | assumption]. }
  unfold sort_by_seq. pose proof (seq_keys_alike Hal) as Hkeys.
  destruct (seq_keys (first :: later)) as [l | e],
           (seq_keys (first :: map _ later)) as [l' | e'];
    try contradiction; [| cbn; congruence].
  apply sort_by_key_alike in Hkeys.
  assert (Hsorted : Forall2 alike (map snd (sort_by_key l))
                      (map snd (sort_by_key l'))).
  { induction Hkeys as [| a b ? ? [_ Hab] _ IH]; cbn [map]; constructor;
      assumption. }
  destruct (alike_maps Hsorted) as [Ht Hi].
  cbn [returned]. rewrite <- Ht, <- Hi.
  now rewrite (synthesize_alike _ (alike_last Hsorted (alike_refl first))).
Qed.

Lemma process_sets_recount g fragments :
  returned (process_sets (recount g fragments)) =
  returned (process_sets fragments).
Proof.
  induction fragments as [| [r members] rest IH]; [reflexivity |].
  cbn [recount map fst snd process_sets]. fold (recount g rest).
  pose proof (process_set_recount g members) as Hset.
  destruct (process_set (recount_set g members)) as [[ms1 out1] | e1],
           (process_set members) as [[ms2 out2] | e2];
    cbn [returned] in Hset; try discriminate;
    [| injection Hset as ->; reflexivity].
  injection Hset as ->.
  destruct (process_sets (recount g rest)) as [[rest1 [a1 b1]] | e1],
           (process_sets rest) as [[rest2 [a2 b2]] | e2];
    cbn [returned] in IH; try discriminate;
    [| injection IH as ->; reflexivity].
  injection IH as -> ->. reflexivity.
Qed.

(** ** The reassembler *)

Lemma ingest_all_grouped records fragments :
  ingest_all [] records = Ok fragments ->
  well_formed fragments /\ Forall (grouped records) fragments.
Proof.
  intros Hall.
  destruct (ingest_all_spec records well_formed_nil Hall) as [Hwf Hmem].
  split; [exact Hwf |]. apply Forall_forall. intros [r ms] Hin.
  unfold grouped. cbn [fst snd].
  rewrite <- (@members_of_In r ms fragments (proj1 Hwf) Hin). apply Hmem.
Qed.

Lemma Forall2_with {A A' B} (P : A -> Prop) (R : A' -> B -> Prop)
    (f : A -> A') l l' :
  Forall P l -> Forall2 R (map f l) l' ->
  Forall2 (fun a b => P a /\ R (f a) b) l l'.
Proof.
  intros HP. revert l'. induction HP as [| a l Ha _ IH]; intros l' H;
    inversion H; subst; constructor; auto.
Qed.

Lemma drain_ingested records fragments :
  ingest_all [] records = Ok fragments ->
  exists fragments' outs,
    collect_fragments fragments None true =
      Ok (fragments', Some (flat_map emitted outs, flat_map released outs)) /\
    Forall2 (fun e out => grouped records e /\ set_drained (snd e) out)
      fragments outs.
Proof.
  intros Hall. destruct (ingest_all_grouped _ Hall) as [Hwf Hgr].
  destruct (process_sets_spec (well_formed_sets_ok Hwf))
    as (fragments' & outs & Hproc & Hsets).
  exists fragments', outs. split.
  - unfold collect_fragments. cbn [negb]. now rewrite Hproc.
  - now apply Forall2_with.
Qed.

(** C2.  After any sequence of records has been ingested, draining emits
    for every set either one message with the slots of its members or
    nothing.  An emitted message has the members' texts concatenated in
    ascending sequence order, the remaining fields of the last member in
    that order, and comes with the slot of every member; where the members
    declare a count, the set is emitted exactly when the number of its
    members equals it, and a set that is not emitted adds neither a message
    nor a slot to what is returned. *)
Theorem reassembly_iff_complete records fragments :
  ingest_all [] records = Ok fragments ->
  exists fragments' outs,
    collect_fragments fragments None true =
      Ok (fragments', Some (flat_map emitted outs, flat_map released outs)) /\
    Forall2 (fun e out => grouped records e /\ drained_as (snd e) out)
      fragments outs.
Proof.
  intros Hall.
  destruct (drain_ingested _ Hall) as (fragments' & outs & Hrun & Hsets).
  exists fragments', outs. split; [exact Hrun |].
  eapply Forall2_impl; [| exact Hsets].
  intros e out [Hg Hd]. split; [exact Hg | now apply set_drained_as].
Qed.

(** C9.  Whether a set is emitted is decided by the count that its
    first-ingested member declares: the set is emitted exactly when the
    number of its members equals that count, and rewriting the counts of
    all later members changes neither the messages nor the slots
    returned. *)
Theorem first_member_count_decides records fragments :
  ingest_all [] records = Ok fragments ->
  (exists fragments' outs,
     collect_fragments fragments None true =
       Ok (fragments', Some (flat_map emitted outs, flat_map released outs)) /\
     Forall2 (fun e out => grouped records e /\ drained_by_first (snd e) out)
       fragments outs) /\
  forall g,
    returned (collect_fragments (recount g fragments) None true) =
    returned (collect_fragments fragments None true).
Proof.
  intros Hall. split.
  - destruct (drain_ingested _ Hall) as (fragments' & outs & Hrun & Hsets).
    exists fragments', outs. split; [exact Hrun |].
    eapply Forall2_impl; [| exact Hsets].
    intros e out [Hg [Hd _]]. split; assumption.
  - intros g. unfold collect_fragments. cbn [negb].
    pose proof (process_sets_recount g fragments) as H.
    destruct (process_sets (recount g fragments)) as [[? ?] |],
             (process_sets fragments) as [[? ?] |];
      cbn [returned] in *; congruence.
Qed.

Lemma reassembly_iff_complete_witness :
  exists fragments' outs,
    collect_fragments scenario_fragments None true =
      Ok (fragments', Some (flat_map emitted outs, flat_map released outs)) /\
    Forall2 (fun e out => grouped scenario_records e /\ drained_as (snd e) out)
      scenario_fragments outs.
Proof.
  apply (@reassembly_iff_complete scenario_records scenario_fragments).
  reflexivity.
Defined.

(** Parts 3, 1, 2 of a message of three parts give its text in the order
    1, 2, 3 and release all three slots; two parts of three give nothing. *)
Example reassembly_scenarios :
  returned (collect_fragments scenario_fragments None true) =
  Ok (Some ([mkMessage (lit "5") 0 (lit "+15550123") (lit "aabbcc") None],
            [lit "6"; lit "7"; lit "5"])).
Proof. reflexivity. Qed.

Lemma first_member_count_decides_witness :
  (exists fragments' outs,
     collect_fragments disagreeing_fragments None true =
       Ok (fragments', Some (flat_map emitted outs, flat_map released outs)) /\
     Forall2 (fun e out => grouped disagreeing_records e /\
                           drained_by_first (snd e) out)
       disagreeing_fragments outs) /\
  forall g,
    returned (collect_fragments (recount g disagreeing_fragments) None true) =
    returned (collect_fragments disagreeing_fragments None true).
Proof.
  apply (@first_member_count_decides disagreeing_records disagreeing_fragments).
  reflexivity.
Defined.

(** Two members whose first declares two parts are emitted, whatever the
    second declares. *)
Example disagreeing_counts_emitted :
  returned (collect_fragments disagreeing_fragments None true) =
  Ok (Some ([mkMessage (lit "2") 0 (lit "+15550123") (lit "aabb") None],
            [lit "1"; lit "2"])).
Proof. reflexivity. Qed.

(** ** The message sender *)

(** C3 (what the code does).  A chunk whose prompt request fails is passed
    over: the loop goes on to the next chunk, and when no acknowledgment
    fails afterwards the message is reported as sent.  Here the first of
    two chunks is never transmitted, the second is, and [send] returns
    [True] after printing its success message. *)
Example send_passes_over_failed_prompt :
  let r := send (demo_config Send) (demo_host "hello") demo_codec
             (demo_state failed_prompt_script) in
  fst r = Ret true /\
  wrote (lit "0011AA") (trace (snd r)) = false /\
  wrote (lit "0011BB") (trace (snd r)) = true /\
  printed Stderr (lit "Message sent successfully") (trace (snd r)) = true.
Proof. vm_compute. repeat split; reflexivity. Qed.

(** In general: when the prompt request of a chunk fails, [send_pdus] goes
    on with the remaining chunks as if the chunk were not there. *)
Lemma failed_prompt_is_skipped p rest s response s1 :
  at_command (lit "AT+CMGS=" ++ fmt_d (pdu_length p) ++ [CR]) (lit ">") 2
    false s = (Ret (false, response), s1) ->
  send_pdus (p :: rest) s = send_pdus rest s1.
Proof.
  intros Hprompt. cbn [send_pdus]. unfold bind at 1. now rewrite Hprompt.
Qed.

(** ** Exit status *)

(** C8 (what the code does).  [modem_info] returns nothing, which [run]
    reads as failure: with a modem that answers every query the exit status
    is 1. *)
Example info_exit_status_is_one :
  fst (run (demo_host "") demo_codec (Parsed (demo_config ModemInfo))
         (initial obliging_script 0 false)) = Ret 1.
Proof. vm_compute. reflexivity. Qed.

(** The same holds for a raw AT command whose terminator arrives. *)
Example at_exit_status_is_one :
  fst (run (demo_host "") demo_codec
         (Parsed (mkConfig 0 0 0 18 false At [] 1 false false
                    (Some (lit "ATI")) (lit "OK") 2))
         (initial obliging_script 0 false)) = Ret 1.
Proof. vm_compute. reflexivity. Qed.

(** In general: [modem_info] and [at] hand [run] a value that counts as
    failure whenever they return. *)
Lemma silent_commands_report_failure cfg host codec s v s' :
  cmd cfg = ModemInfo \/ cmd cfg = At ->
  run_cmd cfg host codec s = (Ret v, s') ->
  truthy v = false.
Proof.
  unfold run_cmd, bind, ret. intros [-> | ->];
    match goal with
    | |- context [match ?c s with _ => _ end] =>
      destruct (c s) as [[[] | e |] s1]
    end; intros H; try discriminate; now injection H as <- _.
Qed.

(** A command that reports success does give status 0. *)
Example clear_exit_status_is_zero :
  fst (run (demo_host "") demo_codec (Parsed (demo_config Clear))
         (initial obliging_script 0 false)) = Ret 0.
Proof. vm_compute. reflexivity. Qed.

(** ** The session *)

Lemma session_cleans_up cfg (c : M PyVal) s rc s1 :
  c s = (rc, s1) ->
  rc <> Hang ->
  session cfg c s =
  (exit_of rc (fst (cleanup cfg (after_handler rc s1))),
   snd (cleanup cfg (after_handler rc s1))).
Proof.
  intros Hc Hrc. unfold session, try_finally, try_except, bind. rewrite Hc.
  destruct rc as [v | e |]; [| | congruence]; cbn [after_handler exit_of].
  - unfold ret. destruct (cleanup cfg s1) as [[[] | e' |] s2]; reflexivity.
  - destruct (is_interrupt e) eqn:Hi.
    + unfold log, emit, ret. cbn [snd].
      match goal with |- context [cleanup cfg ?s] =>
        destruct (cleanup cfg s) as [[[] | e' |] s2] end;
        cbn; rewrite ?Hi; reflexivity.
    + destruct (cleanup cfg s1) as [[[] | e' |] s2];
        cbn; rewrite ?Hi; reflexivity.
Qed.



(** An interrupt that arrives while the command waits for the modem ends
    the session with status 0, after one cleanup that closes the port. *)
Example interrupted_run_cleans_up :
  let r := run (demo_host "") demo_codec (Parsed (demo_config Clear))
             (initial [Fault KeyboardInterrupt] 0 false) in
  fst r = Ret 0 /\
  cleanups (trace (snd r)) = 1%nat /\
  ser (snd r) = PortClosed.
Proof. vm_compute. repeat split; reflexivity. Qed.

(** ** The registration monitor *)











Lemma firstn_consumed {A} (a b : list A) :
  firstn (length (a ++ b) - length b) (a ++ b) = a.
Proof.
  rewrite length_app, Nat.add_sub, firstn_app, Nat.sub_diag, firstn_all.
  cbn. apply app_nil_r.
Qed.







Lemma check_connection_unfold cfg s :
  check_connection cfg s =
  check_connection_loop (S (Z.to_nat (wait cfg)))
    (clock s + wait cfg * 1000)
    (snd (log DEBUG "Waiting %d seconds for mobile network connection" s)).
Proof. reflexivity. Qed.






(** A status 2 (searching) is polled again after a second, and a status 1
    ends the wait as soon as it is read. *)
Example registration_accepted :
  let r := check_connection (demo_config Send)
             (demo_state registering_script) in
  fst r = Ret tt /\ clock (snd r) = 50 + 1000 + 30.
Proof. vm_compute. split; reflexivity. Qed.

(** On a silent line a wait of three seconds makes two polls that time out
    after a second each, sleeps a second after each, and fails. *)
Example registration_times_out :
  let r := check_connection
             (mkConfig 0 0 0 3 false Send [] 1 false false None [] 2)
             (demo_state []) in
  fst r = Raise no_network /\ clock (snd r) = 4000.
Proof. vm_compute. split; reflexivity. Qed.

(** Of the ten status digits a reply may report, 1, 5, 6 and 7 are the
    accepted ones; and without the terminator no status is. *)
Example accepted_statuses :
  map (fun c => accepted (Arrive (lit "+CREG: 0," ++ [48 + c] ++ CRLF ++
                                  line "OK") 0))
    [0; 1; 2; 3; 4; 5; 6; 7; 8; 9] =
  [false; true; false; false; false; true; true; true; false; false] /\
  accepted (Arrive (lit "+CREG: 0,1") 0) = false.
Proof. vm_compute. split; reflexivity. Qed.

(** ** Receiving *)

Lemma bind_ret_inv {A B} (c : M A) (k : A -> M B) s b s' :
  bind c k s = (Ret b, s') ->
  exists a s1, c s = (Ret a, s1) /\ k a s1 = (Ret b, s').
Proof.
  unfold bind. destruct (c s) as [[a | e |] s1]; try discriminate.
  intros H. now exists a, s1.
Qed.

Lemma receive_split cfg host codec s :
  receive cfg host codec s =
  bind (read_listing cfg host codec)
    (fun p => receive_rest cfg host codec (fst p) (snd p)) s.
Proof.
  unfold receive, read_listing, bind.
  repeat match goal with
         | |- context [match ?c ?s with _ => _ end] =>
           lazymatch c with
           | context [bind] => fail
           | _ => destruct (c s) as [[[] | ? |] ?]; try reflexivity
           end
         end.
Qed.

Lemma extends_refl s : extends s s.
Proof. exists []. now rewrite app_nil_r. Qed.

Lemma extends_trans s1 s2 s3 : extends s1 s2 -> extends s2 s3 -> extends s1 s3.
Proof.
  intros [a Ha] [b Hb]. exists (a ++ b). now rewrite Hb, Ha, app_assoc.
Qed.

Lemma extends_In s s' e : extends s s' -> In e (trace s) -> In e (trace s').
Proof. intros [evs ->] H. apply in_or_app. now left. Qed.

(** An exchange that returns has written its command. *)
Lemma at_command_writes command back timeout quiet s r s' :
  at_command command back timeout quiet s = (Ret r, s') ->
  extends s s' /\
  exists cmd,
    utf8_encode (command ++ CRLF) = Some cmd /\ In (SerWrite cmd) (trace s').
Proof.
  destruct s as [pw sr gl sc ck tr].
  unfold at_command, ser_reset_input_buffer, ser_write, ser_set_timeout,
    ser_read_until, next_reply, encode, decode, extends.
  run_monad.
  destruct sr as [| t |]; cbn; try discriminate.
  destruct (utf8_encode (command ++ CRLF)) as [cmd |]; cbn; try discriminate.
  destruct (timeout <? 0); cbn; try discriminate.
  destruct (utf8_encode back) as [expected |]; cbn; try discriminate.
  assert (Hfin : forall (ok : bool) (response : str) ck' sc' evs,
    (Ret (ok, response),
     mkState pw (PortOpen (Some timeout)) gl sc' ck'
       (((((tr ++ [Log DEBUG "AT command: %s"]) ++ [SerResetInput]) ++
          [SerWrite [27]]) ++ [SerWrite cmd]) ++ evs)) = (Ret r, s') ->
    (exists evs0, trace s' = tr ++ evs0) /\
    exists cmd0, Some cmd = Some cmd0 /\ In (SerWrite cmd0) (trace s')).
  { intros ok response ck' sc' evs H. injection H as <- <-. cbn [trace].
    rewrite <- !app_assoc. cbn [app]. split; [eexists; reflexivity |].
    exists cmd. split; [reflexivity |].
    apply in_or_app. right. cbn. auto. }
  assert (Hend : forall (c : M (bool * str)) s0,
    (exists ok response ck' sc' evs,
       c s0 = (Ret (ok, response),
               mkState pw (PortOpen (Some timeout)) gl sc' ck'
                 (((((tr ++ [Log DEBUG "AT command: %s"]) ++
                     [SerResetInput]) ++ [SerWrite [27]]) ++
                   [SerWrite cmd]) ++ evs))) ->
    c s0 = (Ret r, s') ->
    (exists evs0, trace s' = tr ++ evs0) /\
    exists cmd0, Some cmd = Some cmd0 /\ In (SerWrite cmd0) (trace s')).
  { intros c s0 (ok & response & ck' & sc' & evs & ->). apply Hfin. }
  destruct sc as [| [rx dt | e] sc]; cbn; try discriminate.
  - apply Hend. destruct back, quiet; cbn; do 4 eexists;
      first [ exists [Log DEBUG "%s"]; reflexivity
            | exists []; rewrite app_nil_r; reflexivity
            | exists [Log ERROR "AT ERROR:\t%s"; Log ERROR "AT Response:\t%s"];
              rewrite <- !app_assoc; reflexivity ].
  - destruct (utf8_decode (read_until_loop expected [] rx)) as [response |];
      cbn; try discriminate.
    apply Hend. destruct (contains response back), quiet; cbn; do 4 eexists;
      first [ exists [Log DEBUG "%s"]; reflexivity
            | exists []; rewrite app_nil_r; reflexivity
            | exists [Log ERROR "AT ERROR:\t%s"; Log ERROR "AT Response:\t%s"];
              rewrite <- !app_assoc; reflexivity ].
Qed.

Lemma delete_slots_writes slots : forall s s',
  delete_slots slots s = (Ret tt, s') ->
  extends s s' /\ forall slot, In slot slots -> deletes slot (trace s').
Proof.
  induction slots as [| slot0 slots IH]; intros s s' Hrun.
  - injection Hrun as <-. split; [apply extends_refl | intros slot []].
  - cbn [delete_slots] in Hrun.
    apply bind_ret_inv in Hrun. destruct Hrun as (r & s1 & Hat & Hrest).
    apply at_command_writes in Hat. destruct Hat as (Hext1 & cmd & Hcmd & Hin).
    destruct (IH _ _ Hrest) as [Hext2 Hall].
    split; [eapply extends_trans; eassumption |].
    intros slot [<- | Hslot]; [| now apply Hall].
    exists cmd. split.
    + rewrite <- Hcmd. now rewrite <- app_assoc.
    + eapply extends_In; eassumption.
Qed.

Lemma age_limit_value cfg now limit :
  age_limit cfg now = Ok limit -> limit = now - maxage cfg * hour_ms.
Proof.
  unfold age_limit, timedelta_hours, datetime_sub. cbn zeta.
  destruct (_ || _); [discriminate |].
  destruct (_ || _); [discriminate |]. now intros [= <-].
Qed.

Lemma scan_read_keeps cfg now sim_read : forall read_idx fragments r,
  scan_read cfg now sim_read read_idx fragments = Ok r ->
  incl read_idx (fst r) /\
  forall m, In m sim_read -> date m < now - maxage cfg * hour_ms ->
            In (idx m) (fst r).
Proof.
  induction sim_read as [| m0 rest IH]; intros read_idx fragments r Hscan.
  - injection Hscan as <-. split; [apply incl_refl | intros m []].
  - cbn [scan_read] in Hscan.
    destruct (age_limit cfg now) as [limit | e] eqn:Hlimit; [| discriminate].
    apply age_limit_value in Hlimit. subst limit.
    set (read_idx' := if date m0 <? now - maxage cfg * hour_ms
                      then read_idx ++ [idx m0] else read_idx) in *.
    assert (Hinc : incl read_idx read_idx').
    { subst read_idx'. destruct (date m0 <? _);
        [apply incl_appl |]; apply incl_refl. }
    assert (Hnext : exists fragments',
              scan_read cfg now rest read_idx' fragments' = Ok r).
    { destruct (frag m0);
        [destruct (collect_fragments fragments (Some m0) false)
           as [[fragments' ?] | ?]; [| discriminate] |];
        eexists; exact Hscan. }
    destruct Hnext as [fragments' Hnext].
    destruct (IH _ _ _ Hnext) as [Hkeep Hold].
    split; [eapply incl_tran; eassumption |].
    intros m [<- | Hin] Hdate; [| now apply Hold].
    apply Hkeep. subst read_idx'.
    destruct (Z.ltb_spec (date m0) (now - maxage cfg * hour_ms)); [| lia].
    apply in_or_app. right. now left.
Qed.

Lemma scan_unread_keeps unread : forall messages read_idx fragments r,
  scan_unread unread messages read_idx fragments = Ok r ->
  incl read_idx (snd (fst r)).
Proof.
  induction unread as [| m0 rest IH]; intros messages read_idx fragments r
    Hscan.
  - injection Hscan as <-. apply incl_refl.
  - cbn [scan_unread] in Hscan. destruct (frag m0).
    + destruct (collect_fragments fragments (Some m0) false)
        as [[fragments' ?] | ?]; [| discriminate].
      eapply IH; eassumption.
    + eapply incl_tran; [| eapply IH; eassumption].
      now apply incl_appl, incl_refl.
Qed.

Lemma lift_ret_inv {A} (t : Try A) s a s' :
  lift t s = (Ret a, s') -> t = Ok a /\ s' = s.
Proof.
  destruct t; cbn; intros H; [| discriminate]. injection H as <- <-. auto.
Qed.

(** The lone part of an incomplete message is not printed, and its slot is
    deleted all the same. *)
Example incomplete_old_fragment_deleted :
  let r := receive recv_config (demo_host "") demo_codec recv_state in
  fst r = Ret true /\
  printed_nothing (trace (snd r)) = true /\
  wrote (lit "AT+CMGD=4" ++ CRLF) (trace (snd r)) = true.
Proof. vm_compute. repeat split; reflexivity. Qed.

(** ** Fuel *)

Lemma utf8_decode_head_bound b0 rest c k :
  utf8_decode_head b0 rest = Some (c, k) -> (k <= length rest)%nat.
Proof.
  unfold utf8_decode_head.
  repeat match goal with
         | |- context [if ?b then _ else _] => destruct b
         | |- context [match ?l with [] => _ | _ :: _ => _ end] =>
           destruct l
         end;
    intros H; try discriminate; injection H as <- <-; cbn [length]; lia.
Qed.

(** More fuel than octets does not change what [utf8_decode_fuel] gives. *)
Lemma utf8_decode_fuel_enough fuel : forall bs,
  (length bs <= fuel)%nat ->
  utf8_decode_fuel fuel bs = utf8_decode bs.
Proof.
  unfold utf8_decode.
  induction fuel as [fuel IH] using lt_wf_ind. intros bs Hlen.
  destruct bs as [| b0 rest]; [destruct fuel; reflexivity |].
  destruct fuel as [| fuel]; [cbn in Hlen; lia |].
  cbn [utf8_decode_fuel length] in *.
  destruct (utf8_decode_head b0 rest) as [[c k] |] eqn:Hhead; [| reflexivity].
  apply utf8_decode_head_bound in Hhead.
  assert (Hskip : (length (skipn k rest) <= length rest)%nat)
    by (rewrite length_skipn; lia).
  rewrite (IH fuel ltac:(lia) (skipn k rest) ltac:(lia)).
  now rewrite ?(IH (length rest) ltac:(lia) (skipn k rest) Hskip).
Qed.

Lemma many_shorter {R} cls (k : str -> option R) (P : str -> R -> Prop) :
  forall s,
    (forall s' r, (length s' <= length s)%nat -> k s' = Some r -> P s' r) ->
    forall r, many cls k s = Some r ->
              exists s', (length s' <= length s)%nat /\ P s' r.
Proof.
  induction s as [| c s IH]; intros Hk r Hm; cbn [many] in Hm.
  - exists []. split; [lia | now apply Hk].
  - destruct (cls c).
    + destruct (many cls k s) as [r' |] eqn:Hs.
      * injection Hm as <-.
        destruct (IH (fun s' r Hl => Hk s' r ltac:(cbn; lia)) r' eq_refl)
          as (s' & Hl & HP).
        exists s'. split; [cbn; lia | exact HP].
      * exists (c :: s). split; [lia | now apply Hk].
    + exists (c :: s). split; [lia | now apply Hk].
Qed.

(** What is left after a match is a part of the input. *)
Lemma match_here_shorter p : forall opens caps s groups rest,
  match_here p opens caps s = Some (groups, rest) ->
  (length rest <= length s)%nat.
Proof.
  induction p as [| item p IH]; intros opens caps s groups rest Hm;
    cbn [match_here] in Hm.
  - injection Hm as _ <-. lia.
  - destruct item as [cls | cls | cls | |].
    + destruct s as [| c s]; [discriminate |].
      destruct (cls c); [| discriminate].
      apply IH in Hm. cbn; lia.
    + destruct (@many_shorter _ cls (match_here p opens caps)
                  (fun s' r => (length (snd r) <= length s')%nat) s
                  ltac:(intros s' [g r'] _ H; cbn; eapply IH; exact H)
                  _ Hm) as (s' & Hl & HP).
      cbn in HP. lia.
    + destruct s as [| c s]; [discriminate |].
      destruct (cls c); [| discriminate].
      destruct (@many_shorter _ cls (match_here p opens caps)
                  (fun s' r => (length (snd r) <= length s')%nat) s
                  ltac:(intros s' [g r'] _ H; cbn; eapply IH; exact H)
                  _ Hm) as (s' & Hl & HP).
      cbn in *. lia.
    + eapply IH; exact Hm.
    + destruct opens as [| o opens]; [discriminate |]. eapply IH; exact Hm.
Qed.

(** More fuel than characters does not change what [re_findall_fuel]
    gives. *)
Lemma re_findall_fuel_enough p fuel : forall s,
  (length s < fuel)%nat ->
  re_findall_fuel fuel p s = re_findall p s.
Proof.
  unfold re_findall.
  induction fuel as [fuel IH] using lt_wf_ind. intros s Hlen.
  destruct fuel as [| fuel]; [lia |].
  cbn [re_findall_fuel].
  assert (Hsub : forall s', (length s' < length s)%nat ->
            re_findall_fuel fuel p s' = re_findall_fuel (length s) p s').
  { intros s' Hs'.
    rewrite (IH fuel ltac:(lia) s' ltac:(lia)).
    now rewrite ?(IH (length s) ltac:(lia) s' Hs'). }
  destruct (match_here p [] [] s) as [[caps rest] |] eqn:Hm.
  - destruct (Nat.ltb_spec (length rest) (length s)) as [Hlt | Hge].
    + now rewrite Hsub.
    + destruct s as [| c s]; [reflexivity |]. rewrite Hsub; [reflexivity |].
      cbn; lia.
  - destruct s as [| c s]; [reflexivity |]. rewrite Hsub; [reflexivity |].
    cbn; lia.
Qed.

(** Time does not run backwards during an exchange. *)
Lemma at_command_clock command back timeout quiet s r s' :
  at_command command back timeout quiet s = (r, s') -> clock s <= clock s'.
Proof.
  destruct s as [pw sr gl sc ck tr].
  unfold at_command, ser_reset_input_buffer, ser_write, ser_set_timeout,
    ser_read_until, next_reply, encode, decode.
  run_monad.
  assert (Hdone : forall (c : Res (bool * str) * State),
            ck <= clock (snd c) -> c = (r, s') -> ck <= clock s').
  { intros c Hc ->. exact Hc. }
  destruct sr as [| t |]; cbn; try (apply Hdone; cbn; lia).
  destruct (utf8_encode (command ++ CRLF)) as [cmd |]; cbn;
    try (apply Hdone; cbn; lia).
  destruct (timeout <? 0); cbn; try (apply Hdone; cbn; lia).
  destruct (utf8_encode back) as [expected |]; cbn;
    try (apply Hdone; cbn; lia).
  destruct sc as [| [rx dt | e] sc]; cbn; try (apply Hdone; cbn; lia).
  - destruct back, quiet; cbn; apply Hdone; cbn; lia.
  - destruct (utf8_decode (read_until_loop expected [] rx)) as [response |];
      cbn; try (apply Hdone; cbn; lia).
    destruct (contains response back), quiet; cbn; apply Hdone; cbn; lia.
Qed.

Lemma loop_unfold fuel t_end s :
  check_connection_loop (S fuel) t_end s =
  if clock s <? t_end then
    match at_command (lit "AT+CREG?") (lit "OK") 1 true s with
    | (Ret (result, response), s1) =>
      if result && registered response
      then log INFO "Network connection established" s1
      else (sleep 1 ;; check_connection_loop fuel t_end) s1
    | (Raise e, s1) => (Raise e, s1)
    | (Hang, s1) => (Hang, s1)
    end
  else (Raise no_network, s).
Proof.
  cbn [check_connection_loop]. unfold bind at 1. unfold time_time, get.
  destruct (clock s <? t_end); [| reflexivity].
  unfold bind at 1.
  destruct (at_command (lit "AT+CREG?") (lit "OK") 1 true s)
    as [[[result response] | e |] s1]; try reflexivity.
  destruct result; [destruct (registered response) |]; reflexivity.
Qed.

Lemma sleep_one_then {A} (k : M A) s :
  (sleep 1 ;; k) s =
  k (mkState (powered s) (ser s) (gpio_loaded s) (script s)
       (clock s + 1000) (trace s ++ [Sleep 1000])).
Proof. reflexivity. Qed.

(** The loop of [check_connection] sleeps a second in every turn, so fuel
    beyond the number of seconds left to the deadline changes nothing. *)
Lemma check_connection_loop_fuel fuel : forall t_end s extra,
  t_end - clock s <= 1000 * Z.of_nat fuel ->
  check_connection_loop (S fuel + extra) t_end s =
  check_connection_loop (S fuel) t_end s.
Proof.
  induction fuel as [| fuel IH]; intros t_end s extra Hleft;
    cbn [Nat.add]; rewrite !loop_unfold;
    (destruct (Z.ltb_spec (clock s) t_end) as [Hlt | Hge];
     [| reflexivity]); [lia |].
  destruct (at_command (lit "AT+CREG?") (lit "OK") 1 true s)
    as [[[result response] | e |] s1] eqn:Hat; try reflexivity.
  apply at_command_clock in Hat.
  destruct (result && registered response); [reflexivity |].
  rewrite !sleep_one_then. apply IH. cbn [clock]. lia.
Qed.

(** ** Registration status codes *)

(** The codes 1, 5, 6 and 7 are accepted, the others are not, and the
    first status report in the response is the one that counts. *)
Example registered_codes :
  map (fun c => registered (lit "+CREG: 0," ++ [48 + c]))
      [0; 1; 2; 3; 4; 5; 6; 7; 8; 9] =
  [false; true; false; false; false; true; true; true; false; false] /\
  registered (line "+CREG: 0,2" ++ line "+CREG: 0,1") = false.
Proof. vm_compute. split; reflexivity. Qed.

(** * Further properties *)

(** ** More on the AT command engine *)

Lemma writes_app a b : writes (a ++ b) = writes a ++ writes b.
Proof. unfold writes. now rewrite flat_map_app. Qed.

(** X1.  Muting an exchange changes its log entries and nothing else: the
    result, the state and every other effect are the same. *)
Theorem at_command_quiet_only_mutes command back timeout s :
  fst (at_command command back timeout true s) =
  fst (at_command command back timeout false s) /\
  unlogged (snd (at_command command back timeout true s)) =
  unlogged (snd (at_command command back timeout false s)).
Proof.
  destruct s as [pw sr gl sc ck tr].
  unfold at_command, ser_reset_input_buffer, ser_write, ser_set_timeout,
    ser_read_until, next_reply, encode, decode, unlogged.
  run_monad.
  destruct sr as [| t |]; cbn; try (split; reflexivity).
  destruct (utf8_encode (command ++ CRLF)) as [cmd |]; cbn;
    try (split; reflexivity).
  destruct (timeout <? 0); cbn; try (split; reflexivity).
  destruct (utf8_encode back) as [expected |]; cbn; try (split; reflexivity).
  destruct sc as [| [rx dt | e] sc]; cbn; try (split; reflexivity).
  - destruct back; cbn; rewrite ?filter_app; cbn; rewrite ?app_nil_r;
      split; reflexivity.
  - destruct (utf8_decode (read_until_loop expected [] rx)) as [response |];
      cbn; try (split; reflexivity).
    destruct (contains response back); cbn; rewrite ?filter_app; cbn;
      rewrite ?app_nil_r; split; reflexivity.
Qed.

Lemma at_command_trace command back timeout quiet s r s' :
  at_command command back timeout quiet s = (r, s') ->
  exists evs,
    trace s' = trace s ++ evs /\
    (writes evs = [] \/
     writes evs = [[0x1B]] \/
     exists cmd, utf8_encode (command ++ CRLF) = Some cmd /\
                 writes evs = [[0x1B]; cmd]) /\
    (forall v, r = Ret v ->
       exists cmd, utf8_encode (command ++ CRLF) = Some cmd /\
                   writes evs = [[0x1B]; cmd]).
Proof.
  destruct s as [pw sr gl sc ck tr].
  unfold at_command, ser_reset_input_buffer, ser_write, ser_set_timeout,
    ser_read_until, next_reply, encode, decode.
  run_monad.
  assert (Hend : forall (c : Res (bool * str) * State) evs,
    trace (snd c) = tr ++ evs ->
    (writes evs = [] \/ writes evs = [[0x1B]] \/
     exists cmd, utf8_encode (command ++ CRLF) = Some cmd /\
                 writes evs = [[0x1B]; cmd]) ->
    (forall v, fst c = Ret v ->
       exists cmd, utf8_encode (command ++ CRLF) = Some cmd /\
                   writes evs = [[0x1B]; cmd]) ->
    c = (r, s') ->
    exists evs0,
      trace s' = tr ++ evs0 /\
      (writes evs0 = [] \/ writes evs0 = [[0x1B]] \/
       exists cmd, utf8_encode (command ++ CRLF) = Some cmd /\
                   writes evs0 = [[0x1B]; cmd]) /\
      (forall v, r = Ret v ->
         exists cmd, utf8_encode (command ++ CRLF) = Some cmd /\
                     writes evs0 = [[0x1B]; cmd])).
  { intros c evs Ht Hw Hr ->. cbn in Ht, Hr. exists evs. auto. }
  destruct sr as [| t |]; cbn.
  - apply (Hend _ [Log DEBUG "AT command: %s"]); cbn; auto; discriminate.
  - destruct (utf8_encode (command ++ CRLF)) as [cmd |] eqn:Hcmd; cbn.
    2:{ apply (Hend _ [Log DEBUG "AT command: %s"; SerResetInput;
                       SerWrite [0x1B]]); cbn;
          rewrite <- ?app_assoc; auto; discriminate. }
    assert (Hfull : forall evs, writes evs = [] ->
      forall c : Res (bool * str) * State,
      trace (snd c) =
        ((((tr ++ [Log DEBUG "AT command: %s"]) ++ [SerResetInput]) ++
          [SerWrite [27]]) ++ [SerWrite cmd]) ++ evs ->
      c = (r, s') ->
      exists evs0,
        trace s' = tr ++ evs0 /\
        (writes evs0 = [] \/ writes evs0 = [[0x1B]] \/
         exists cmd0, Some cmd = Some cmd0 /\ writes evs0 = [[0x1B]; cmd0]) /\
        (forall v, r = Ret v ->
           exists cmd0, Some cmd = Some cmd0 /\ writes evs0 = [[0x1B]; cmd0])).
    { intros evs Hw c Ht ->. cbn in Ht.
      exists ([Log DEBUG "AT command: %s"; SerResetInput; SerWrite [0x1B];
               SerWrite cmd] ++ evs).
      rewrite Ht, <- !app_assoc. split; [reflexivity |].
      rewrite writes_app, Hw. cbn. split; [right; right |]; eauto. }
    destruct (timeout <? 0); cbn.
    { apply (Hfull []); [reflexivity |]. cbn. now rewrite app_nil_r. }
    destruct (utf8_encode back) as [expected |]; cbn.
    2:{ apply (Hfull []); [reflexivity |]. cbn. now rewrite app_nil_r. }
    destruct sc as [| [rx dt | e] sc]; cbn.
    + destruct back, quiet; cbn;
        first [ apply (Hfull [Log DEBUG "%s"]); [reflexivity |]; reflexivity
              | apply (Hfull []); [reflexivity |]; cbn;
                now rewrite app_nil_r
              | apply (Hfull [Log ERROR "AT ERROR:\t%s";
                              Log ERROR "AT Response:\t%s"]);
                [reflexivity |]; cbn; now rewrite <- !app_assoc ].
    + destruct (utf8_decode (read_until_loop expected [] rx))
        as [response |]; cbn.
      2:{ apply (Hfull []); [reflexivity |]. cbn. now rewrite app_nil_r. }
      destruct (contains response back), quiet; cbn;
        first [ apply (Hfull [Log DEBUG "%s"]); [reflexivity |]; reflexivity
              | apply (Hfull []); [reflexivity |]; cbn;
                now rewrite app_nil_r
              | apply (Hfull [Log ERROR "AT ERROR:\t%s";
                              Log ERROR "AT Response:\t%s"]);
                [reflexivity |]; cbn; now rewrite <- !app_assoc ].
    + apply (Hfull []); [reflexivity |]. cbn. now rewrite app_nil_r.
  - apply (Hend _ [Log DEBUG "AT command: %s"]); cbn; auto; discriminate.
Qed.

(** X2.  Whatever its outcome, an exchange writes nothing to the serial line
    but the escape octet followed by its own command, and when it returns it
    has written both. *)
Theorem at_command_writes_only_its_command command back timeout quiet s :
  exists evs,
    trace (snd (at_command command back timeout quiet s)) = trace s ++ evs /\
    (writes evs = [] \/
     writes evs = [[0x1B]] \/
     exists cmd, utf8_encode (command ++ CRLF) = Some cmd /\
                 writes evs = [[0x1B]; cmd]) /\
    (forall v, fst (at_command command back timeout quiet s) = Ret v ->
       exists cmd, utf8_encode (command ++ CRLF) = Some cmd /\
                   writes evs = [[0x1B]; cmd]).
Proof.
  apply (@at_command_trace command back timeout quiet s).
  apply surjective_pairing.
Qed.

Lemma read_until_loop_no_terminator rx : forall line,
  read_until_loop [] line rx = line ++ rx.
Proof.
  induction rx as [| c rx IH]; intros line; cbn [read_until_loop].
  - now rewrite app_nil_r.
  - cbn [length tail_slice].
    replace (list_eqb (line ++ [c]) []) with false
      by (destruct line; reflexivity).
    now rewrite IH, <- app_assoc.
Qed.

Lemma contains_nil s : contains s [] = true.
Proof. destruct s; reflexivity. Qed.

(** X3.  With an empty terminator the read lasts until the timeout, everything
    that arrived is the response, and the exchange always counts as a
    success. *)
Theorem at_command_empty_terminator command timeout quiet s t rx dt cmd
    response :
  ser s = PortOpen t ->
  0 <= timeout ->
  utf8_encode (command ++ CRLF) = Some cmd ->
  pending s timeout = Arrive rx dt ->
  utf8_decode rx = Some response ->
  exists s',
    at_command command [] timeout quiet s = (Ret (true, response), s') /\
    clock s' = clock s + Z.of_N dt.
Proof.
  intros Hser Hto Hcmd Hpend Hdec.
  rewrite (@at_command_run command [] timeout quiet s t rx dt cmd []
             response Hser Hto Hcmd eq_refl Hpend).
  - rewrite contains_nil. eexists. split; reflexivity.
  - now rewrite read_until_loop_no_terminator.
Qed.

(** ** More on the power sequencer *)

(** X4.  With a power pin configured, [power_up] ends at its first use of
    [GPIO] with a [NameError], whatever the pulse length: it has written
    its log entry and nothing else, so the pin is not driven, no time
    passes, the powered flag is not set and the buffers of the port are
    not reset.  A [power_down] that follows is therefore skipped. *)
Theorem power_up_unbound_gpio cfg s :
  pwrpin cfg <> 0 ->
  exists msg s1,
    power_up cfg s = (Raise (NameError "GPIO"), s1) /\
    s1 = traced s [Log INFO msg] /\
    (powered s = false ->
     power_down cfg s1 = (Ret tt, skipped_power_down s1)).
Proof.
  intros Hpin. destruct s as [pw sr gl sc ck tr].
  unfold power_up, power_down, global_GPIO. run_monad.
  destruct (Z.eqb_spec (pwrpin cfg) 0) as [Hz | _]; [contradiction |].
  destruct (pwrup cfg =? 0); cbn; eexists _, _;
    (split; [reflexivity |]); (split; [reflexivity |]);
    cbn; intros ->; reflexivity.
Qed.

Lemma at_command_empty_terminator_witness :
  exists s',
    at_command (lit "ATI") [] 2 false
      (demo_state [Arrive [13; 10; 79; 75; 13; 10] 40]) =
      (Ret (true, [13; 10; 79; 75; 13; 10]), s') /\
    clock s' = clock (demo_state [Arrive [13; 10; 79; 75; 13; 10] 40]) +
               Z.of_N 40.
Proof.
  apply (@at_command_empty_terminator (lit "ATI") 2 false
           (demo_state [Arrive [13; 10; 79; 75; 13; 10] 40]) None
           [13; 10; 79; 75; 13; 10] 40%N (lit "ATI" ++ CRLF)
           [13; 10; 79; 75; 13; 10]);
    solve [reflexivity | lia].
Defined.

Lemma power_up_unbound_gpio_witness :
  exists msg s1,
    power_up (pulse_config 2 3) (demo_state []) =
      (Raise (NameError "GPIO"), s1) /\
    s1 = traced (demo_state []) [Log INFO msg] /\
    (powered (demo_state []) = false ->
     power_down (pulse_config 2 3) s1 = (Ret tt, skipped_power_down s1)).
Proof.
  apply (@power_up_unbound_gpio (pulse_config 2 3) (demo_state [])).
  discriminate.
Defined.

(** ** Reading the message *)

Lemma lstrip_split s :
  exists pre,
    s = pre ++ lstrip s /\
    forallb is_space pre = true /\
    (lstrip s = [] \/ exists c r, lstrip s = c :: r /\ is_space c = false).
Proof.
  induction s as [| c s (pre & Hs & Hpre & Hhead)].
  - exists []. repeat split. now left.
  - cbn [lstrip]. destruct (is_space c) eqn:Hc.
    + exists (c :: pre). cbn. rewrite Hc, Hpre. repeat split; auto.
      now rewrite <- Hs.
    + exists []. repeat split. right. now exists c, s.
Qed.

Lemma forallb_rev {A} (f : A -> bool) l : forallb f (rev l) = forallb f l.
Proof.
  induction l as [| a l IH]; [reflexivity |].
  cbn. rewrite forallb_app, IH. cbn. destruct (f a), (forallb f l); reflexivity.
Qed.

(** [strip] takes whitespace, and nothing else, from both ends. *)
Lemma strip_spec s :
  exists pre post,
    s = pre ++ strip s ++ post /\
    forallb is_space pre = true /\
    forallb is_space post = true /\
    (strip s = [] \/
     (exists c r, strip s = c :: r /\ is_space c = false) /\
     (exists r c, strip s = r ++ [c] /\ is_space c = false)).
Proof.
  unfold strip.
  destruct (lstrip_split s) as (pre & Hs & Hpre & Hhead).
  destruct (lstrip_split (rev (lstrip s))) as (post' & Ht & Hpost & Hhead').
  exists pre, (rev post').
  assert (Hrev : lstrip s = rev (lstrip (rev (lstrip s))) ++ rev post').
  { rewrite <- rev_app_distr, <- Ht. now rewrite rev_involutive. }
  split; [now rewrite <- Hrev |].
  split; [exact Hpre |]. split; [now rewrite forallb_rev |].
  destruct Hhead' as [Hnil | (d & u & Hu & Hd)]; [left; now rewrite Hnil |].
  right. rewrite Hu in *. cbn [rev] in *. split; [| now exists (rev u), d].
  destruct Hhead as [Hnil | (c & r & Hc & Hsp)].
  { rewrite Hnil in Hrev. symmetry in Hrev. apply app_eq_nil in Hrev.
    destruct Hrev as [Hrev _]. apply app_eq_nil in Hrev.
    destruct Hrev; discriminate. }
  rewrite Hc in Hrev.
  destruct (rev u ++ [d]) as [| c' r'] eqn:He.
  { apply app_eq_nil in He. destruct He; discriminate. }
  exists c', r'. split; [reflexivity |].
  cbn in Hrev. now injection Hrev as <- _.
Qed.

Lemma strip_blank s : strip s = [] <-> forallb is_space s = true.
Proof.
  destruct (strip_spec s) as (pre & post & Hs & Hpre & Hpost & Hends).
  split.
  - intros Hnil. rewrite Hnil in Hs. rewrite Hs, forallb_app.
    cbn [app]. now rewrite Hpre, Hpost.
  - intros Hall. destruct Hends as [Hnil | [(c & r & Hc & Hsp) _]];
      [exact Hnil |].
    rewrite Hs, Hc, !forallb_app in Hall. cbn in Hall. rewrite Hsp in Hall.
    rewrite andb_false_r in Hall. discriminate.
Qed.

Lemma read_message_run host s :
  read_message host s =
  (match strip (stdin host) with
   | [] => Raise (ValueError "No message on stdin!")
   | message => Ret message
   end, traced s (tty_prompt host)).
Proof.
  destruct s as [pw sr gl sc ck tr].
  unfold read_message, tty_prompt, traced. run_monad.
  destruct (isatty host), (strip (stdin host)); cbn;
    rewrite <- ?app_assoc, ?app_nil_r; reflexivity.
Qed.

(** X6.  [read_message] fails exactly when standard input holds nothing but
    whitespace.  Otherwise it returns the input without the whitespace at its
    two ends: the message begins and ends with a character that is not
    whitespace, and all that was cut off is whitespace. *)
Theorem read_message_spec host s :
  (forallb is_space (stdin host) = true ->
   fst (read_message host s) = Raise (ValueError "No message on stdin!")) /\
  (forallb is_space (stdin host) = false ->
   exists message pre post,
     fst (read_message host s) = Ret message /\
     stdin host = pre ++ message ++ post /\
     forallb is_space pre = true /\
     forallb is_space post = true /\
     (exists c r, message = c :: r /\ is_space c = false) /\
     (exists r c, message = r ++ [c] /\ is_space c = false)).
Proof.
  rewrite read_message_run. cbn [fst]. split.
  - intros Hall. apply strip_blank in Hall. now rewrite Hall.
  - intros Hsome.
    destruct (strip_spec (stdin host))
      as (pre & post & Hs & Hpre & Hpost & Hends).
    destruct Hends as [Hnil | [Hfirst Hlast]].
    { apply strip_blank in Hnil. congruence. }
    exists (strip (stdin host)), pre, post.
    destruct Hfirst as (c & r & Hc & Hsp).
    split; [now rewrite Hc |]. split; [exact Hs |].
    split; [exact Hpre |]. split; [exact Hpost |].
    split; [now exists c, r | exact Hlast].
Qed.

(** X7.  With nothing but whitespace on standard input [send] fails before it
    touches the modem: nothing is written to the port, no pin is driven, and
    the only effect is the prompt printed on a terminal. *)
Theorem send_blank_touches_nothing cfg host codec s :
  forallb is_space (stdin host) = true ->
  send cfg host codec s =
  (Raise (ValueError "No message on stdin!"), traced s (tty_prompt host)).
Proof.
  intros Hall. apply strip_blank in Hall.
  unfold send. unfold bind at 1. rewrite read_message_run, Hall. reflexivity.
Qed.

(** ** More on the registration monitor *)

(** X8.  With a wait of zero seconds or less, [check_connection] fails at once:
    no query is sent and no time passes. *)
Theorem check_connection_no_wait cfg s :
  wait cfg <= 0 ->
  check_connection cfg s =
  (Raise no_network,
   traced s [Log DEBUG "Waiting %d seconds for mobile network connection"]).
Proof.
  intros Hwait. rewrite check_connection_unfold.
  replace (Z.to_nat (wait cfg)) with 0%nat by lia.
  rewrite loop_unfold. cbn [log emit snd clock].
  destruct (Z.ltb_spec (clock s) (clock s + wait cfg * 1000)); [lia |].
  reflexivity.
Qed.

Lemma count_writes_app data a b :
  count_writes data (a ++ b) = (count_writes data a + count_writes data b)%nat.
Proof. unfold count_writes. now rewrite writes_app, filter_app, length_app. Qed.

Lemma loop_polls fuel : forall t_end s,
  t_end - clock s <= 1000 * Z.of_nat fuel ->
  exists evs,
    trace (snd (check_connection_loop (S fuel) t_end s)) = trace s ++ evs /\
    (count_writes creg_cmd evs <= fuel)%nat.
Proof.
  induction fuel as [| fuel IH]; intros t_end s Hleft; rewrite loop_unfold;
    (destruct (Z.ltb_spec (clock s) t_end) as [Hlt | Hge];
     [| exists []; cbn; rewrite app_nil_r; split; [reflexivity | lia]]);
    [lia |].
  destruct (at_command (lit "AT+CREG?") (lit "OK") 1 true s)
    as [r s1] eqn:Hat.
  pose proof (at_command_clock _ _ _ _ _ Hat) as Hclock.
  destruct (at_command_trace _ _ _ _ _ Hat) as (evs & Htrace & Hwrites & _).
  assert (Hone : (count_writes creg_cmd evs <= 1)%nat).
  { unfold count_writes.
    destruct Hwrites as [-> | [-> | (cmd & Hcmd & ->)]]; cbn; try lia.
    injection Hcmd as <-. cbn. lia. }
  destruct r as [[result response] | e |];
    try (exists evs; cbn [snd]; split; [exact Htrace | lia]).
  destruct (result && registered response).
  - exists (evs ++ [Log INFO "Network connection established"]).
    cbn [log emit snd trace]. rewrite Htrace, <- app_assoc, count_writes_app.
    split; [reflexivity |].
    set (n := count_writes creg_cmd evs) in *. cbn. lia.
  - rewrite sleep_one_then.
    match goal with |- context [check_connection_loop (S fuel) t_end ?s2] =>
      destruct (IH t_end s2) as (evs2 & Htrace2 & Hcount2);
        [cbn [clock]; lia |]
    end.
    exists (evs ++ [Sleep 1000] ++ evs2).
    rewrite Htrace2. cbn [trace]. rewrite Htrace, <- !app_assoc.
    split; [reflexivity |].
    rewrite !count_writes_app.
    set (n := count_writes creg_cmd evs) in *.
    set (n2 := count_writes creg_cmd evs2) in *. cbn. lia.
Qed.

(** X9.  Whatever the modem does, [check_connection] sends the registration
    query at most once for every second of the configured wait. *)
Theorem check_connection_polls_bounded cfg s :
  exists evs,
    trace (snd (check_connection cfg s)) = trace s ++ evs /\
    (count_writes creg_cmd evs <= Z.to_nat (wait cfg))%nat.
Proof.
  rewrite check_connection_unfold.
  destruct (@loop_polls (Z.to_nat (wait cfg)) (clock s + wait cfg * 1000)
              (snd (log DEBUG
                      "Waiting %d seconds for mobile network connection" s)))
    as (evs & Htrace & Hcount).
  { cbn [log emit snd clock]. lia. }
  exists ([Log DEBUG "Waiting %d seconds for mobile network connection"]
          ++ evs).
  rewrite Htrace. cbn [log emit snd trace]. rewrite <- app_assoc.
  split; [reflexivity |]. rewrite count_writes_app.
  set (n := count_writes creg_cmd evs) in *. cbn. lia.
Qed.

(** ** The patterns *)

Lemma re_search_found p s caps :
  re_search p s = Some caps ->
  exists pre s1 rest,
    s = pre ++ s1 /\ match_here p [] [] s1 = Some (caps, rest).
Proof.
  induction s as [| c s IH]; cbn [re_search];
    destruct (match_here p [] [] _) as [[caps' rest] |] eqn:Hm;
    intros H; try discriminate.
  - injection H as <-. now exists [], [], rest.
  - injection H as <-. now exists [], (c :: s), rest.
  - destruct (IH H) as (pre & s1 & rest & -> & Hm').
    now exists (c :: pre), s1, rest.
Qed.

Lemma many_split {R} cls (k : str -> option R) s r :
  many cls k s = Some r ->
  exists pre post,
    s = pre ++ post /\ forallb cls pre = true /\ k post = Some r.
Proof.
  induction s as [| c s IH]; cbn [many]; intros H.
  - now exists [], [].
  - destruct (cls c) eqn:Hc; [| now exists [], (c :: s)].
    destruct (many cls k s) as [r' |]; [| now exists [], (c :: s)].
    destruct (IH H) as (pre & post & -> & Hpre & Hk).
    exists (c :: pre), post. cbn. now rewrite Hc, Hpre.
Qed.

(** X10.  A response in which [check_connection] finds an accepted status holds
    a registration report:  [+CREG:], one whitespace character, a digit, a
    comma and one of the digits 1, 5, 6 and 7. *)
Theorem registered_sound response :
  registered response = true ->
  exists pre sp d status post,
    response = pre ++ lit "+CREG:" ++ [sp; d; 44; status] ++ post /\
    is_space sp = true /\
    is_digit d = true /\
    In status [49; 53; 54; 55].
Proof.
  unfold registered.
  destruct (re_search creg_pattern response) as [caps |] eqn:Hs;
    [| discriminate].
  apply re_search_found in Hs. destruct Hs as (pre & s1 & rest & -> & Hm).
  unfold creg_pattern, literal in Hm. cbn in Hm.
  do 10 (destruct s1 as [| ? s1]; [discriminate |];
         cbn [match_here] in Hm; unfold is_char in Hm;
         try match type of Hm with
             | context [if ?c then _ else _] =>
               destruct c eqn:?; [| discriminate]
             end).
  change (firstn (length (z8 :: s1) - length s1) (z8 :: s1))
    with (firstn (length ([z8] ++ s1) - length s1) ([z8] ++ s1)) in Hm.
  rewrite firstn_consumed in Hm. injection Hm as <- _.
  intros Hst. exists pre, z5, z6, z8, s1.
  repeat match goal with
         | H : (_ =? _) = true |- _ => apply Z.eqb_eq in H; subst
         end.
  split; [reflexivity |]. split; [assumption |]. split; [assumption |].
  cbn in Hst. rewrite !orb_true_iff, !andb_true_iff, !Z.eqb_eq in Hst.
  cbn. intuition lia.
Qed.

(** ** More on the message lister *)

Lemma cmgl_match_groups s groups rest :
  match_here cmgl_pattern [] [] s = Some (groups, rest) ->
  cmgl_groups groups.
Proof.
  intros Hm. unfold cmgl_pattern, literal in Hm. cbn in Hm.
  do 7 (destruct s as [| ? s]; [discriminate |];
        cbn [match_here] in Hm; unfold is_char in Hm;
        match type of Hm with
        | context [if ?c then _ else _] =>
          destruct c eqn:?; [| discriminate]
        end).
  cbn [match_here] in Hm.
  destruct s as [| d s]; [discriminate |].
  destruct (is_digit d) eqn:Hd; [| discriminate].
  apply many_split in Hm. destruct Hm as (ds & s2 & -> & Hds & Hm).
  cbn [match_here] in Hm.
  change (d :: ds ++ s2) with ((d :: ds) ++ s2) in Hm.
  rewrite firstn_consumed in Hm.
  destruct s2 as [| comma s2]; [discriminate |].
  destruct (comma =? 44); [| discriminate].
  apply many_split in Hm. destruct Hm as (skipped & s3 & -> & _ & Hm).
  cbn [match_here] in Hm.
  destruct s3 as [| nl s3]; [discriminate |].
  destruct (is_crlf nl); [| discriminate].
  apply many_split in Hm. destruct Hm as (nls & s4 & -> & _ & Hm).
  cbn [match_here] in Hm.
  destruct s4 as [| e s4]; [discriminate |].
  destruct (not_crlf e) eqn:He; [| discriminate].
  apply many_split in Hm. destruct Hm as (es & s5 & -> & Hes & Hm).
  cbn [match_here] in Hm.
  change (e :: es ++ s5) with ((e :: es) ++ s5) in Hm.
  rewrite firstn_consumed in Hm. injection Hm as <- _.
  exists (d :: ds), (e :: es). unfold is_slot. cbn [rev app forallb].
  rewrite Hd, Hds, He, Hes. repeat split; discriminate.
Qed.

Lemma re_findall_fuel_groups fuel : forall s,
  Forall cmgl_groups (re_findall_fuel fuel cmgl_pattern s).
Proof.
  induction fuel as [| fuel IH]; intros s; cbn [re_findall_fuel];
    [constructor |].
  destruct (match_here cmgl_pattern [] [] s) as [[groups rest] |] eqn:Hm.
  - constructor; [eapply cmgl_match_groups; exact Hm |].
    destruct (length rest <? length s)%nat; [apply IH |].
    destruct s; [constructor | apply IH].
  - destruct s; [constructor | apply IH].
Qed.

Lemma decode_entries_listed host codec matches : forall messages,
  decode_entries host codec matches = Ok messages ->
  Forall2 (listed host codec) matches messages.
Proof.
  induction matches as [| groups matches IH]; intros messages Hdec;
    cbn [decode_entries] in Hdec.
  - injection Hdec as <-. constructor.
  - destruct groups as [| slot [| entry [| ? ?]]]; try discriminate.
    destruct (SmsDeliver codec entry) as [data | e] eqn:Hdata;
      [| discriminate].
    destruct (surrogatepass_decode (big_endian host) (text data))
      as [text' | e] eqn:Htext; [| discriminate].
    destruct (decode_entries host codec matches) as [rest | e];
      [| discriminate].
    injection Hdec as <-. constructor; [| now apply IH].
    exists entry, data. cbn. repeat split; assumption.
Qed.

(** X11.  [list_messages] returns a message for every match of the listing
    pattern in the response, in order, none skipped: an entry that the codec
    rejects or whose text cannot be normalised makes the whole listing fail.
    Every index is a non-empty string of decimal digits.  When the exchange
    fails the list is empty. *)
Theorem list_messages_complete host codec status s ok messages s' :
  list_messages host codec status s = (Ret (ok, messages), s') ->
  exists response,
    at_command (lit "AT+CMGL=" ++ fmt_d status) (lit "OK") 2 false s =
      (Ret (ok, response), s') /\
    (ok = false -> messages = []) /\
    (ok = true ->
     Forall2 (listed host codec) (re_findall cmgl_pattern response)
       messages) /\
    Forall (fun m => is_slot (idx m)) messages.
Proof.
  unfold list_messages. intros Hrun.
  apply bind_ret_inv in Hrun.
  destruct Hrun as ([result response] & s1 & Hat & Hrun).
  destruct result.
  - apply bind_ret_inv in Hrun. destruct Hrun as (ms & s2 & Hdec & Hret).
    apply lift_ret_inv in Hdec. destruct Hdec as [Hdec ->].
    injection Hret as <- <- <-.
    exists response. split; [exact Hat |]. split; [discriminate |].
    pose proof (decode_entries_listed _ _ _ Hdec) as Hall.
    split; [intros _; exact Hall |].
    pose proof (re_findall_fuel_groups (S (length response)) response)
      as Hgroups. fold (re_findall cmgl_pattern response) in Hgroups.
    clear Hdec. induction Hall as [| groups m matches ms Hm _ IH];
      [constructor |].
    inversion Hgroups as [| ? ? (slot & entry & Hg & Hslot & _) Hrest];
      subst.
    constructor; [| now apply IH].
    destruct Hm as (entry' & data & Hg' & _).
    injection Hg' as <- _. exact Hslot.
  - injection Hrun as <- <- <-. exists response.
    split; [exact Hat |]. split; [reflexivity |].
    split; [discriminate | constructor].
Qed.

Lemma send_blank_touches_nothing_witness :
  send (demo_config Send) (demo_host "  ") demo_codec (demo_state []) =
  (Raise (ValueError "No message on stdin!"),
   traced (demo_state []) (tty_prompt (demo_host "  "))).
Proof.
  apply (@send_blank_touches_nothing (demo_config Send) (demo_host "  ")
           demo_codec (demo_state [])).
  reflexivity.
Defined.

Lemma check_connection_no_wait_witness :
  check_connection (mkConfig 0 0 0 0 false Send [] 1 false false None [] 2)
    (demo_state registering_script) =
  (Raise no_network,
   traced (demo_state registering_script)
     [Log DEBUG "Waiting %d seconds for mobile network connection"]).
Proof.
  apply (@check_connection_no_wait
           (mkConfig 0 0 0 0 false Send [] 1 false false None [] 2)
           (demo_state registering_script)).
  vm_compute. discriminate.
Defined.

Lemma registered_sound_witness :
  exists pre sp d status post,
    line "+CREG: 0,5" ++ line "OK" =
      pre ++ lit "+CREG:" ++ [sp; d; 44; status] ++ post /\
    is_space sp = true /\
    is_digit d = true /\
    In status [49; 53; 54; 55].
Proof.
  apply (@registered_sound (line "+CREG: 0,5" ++ line "OK")).
  reflexivity.
Defined.

Lemma list_messages_complete_witness :
  exists response,
    at_command (lit "AT+CMGL=" ++ fmt_d 1) (lit "OK") 2 false listing_state =
      (Ret (true, response),
       snd (list_messages (demo_host "") demo_codec 1 listing_state)) /\
    (true = false -> [stored_part] = []) /\
    (true = true ->
     Forall2 (listed (demo_host "") demo_codec)
       (re_findall cmgl_pattern response) [stored_part]) /\
    Forall (fun m => is_slot (idx m)) [stored_part].
Proof.
  apply (@list_messages_complete (demo_host "") demo_codec 1 listing_state
           true [stored_part]
           (snd (list_messages (demo_host "") demo_codec 1 listing_state))).
  vm_compute. reflexivity.
Defined.

(** ** More on surrogate pairs *)

Lemma with_surrogates_in_range (text : str) :
  Forall (fun c => 0 <= c <= 0x10FFFF) text ->
  with_surrogates text = Ok (flat_map utf16_units text).
Proof.
  induction 1 as [| c text Hc _ IH]; [reflexivity |].
  cbn [with_surrogates flat_map]. rewrite IH. unfold _nonbmp.
  destruct (is_nonbmp c) eqn:Hn.
  - now rewrite surrogatepair_units.
  - unfold is_nonbmp in Hn. unfold utf16_units.
    destruct (Z.ltb_spec c 0x10000); [reflexivity | lia].
Qed.

Lemma utf16_units_as_units (c : Z) : utf16_units c = as_units c.
Proof.
  unfold utf16_units, as_units.
  destruct (Z.ltb_spec c 0x10000), (Z.leb_spec 0x10000 c); try lia;
    [reflexivity |].
  now rewrite shiftr_10, land_1023.
Qed.

(** X12.  On any text of code points [with_surrogates] succeeds, and what
    it returns is the text with every character from U+10000 on replaced
    by its surrogate pair, [0xD800] plus the upper ten bits and [0xDC00]
    plus the lower ten bits of the character less [0x10000], and every
    other character left as it is, in place; all of it 16-bit code
    units. *)
Theorem with_surrogates_gives_units (text : str) :
  Forall (fun c => 0 <= c <= 0x10FFFF) text ->
  with_surrogates text = Ok (flat_map as_units text) /\
  Forall (fun u => is_unit u = true) (flat_map as_units text).
Proof.
  intros Htext.
  assert (Heq : flat_map as_units text = flat_map utf16_units text).
  { apply flat_map_ext. intros c. symmetry. apply utf16_units_as_units. }
  rewrite Heq. split; [now apply with_surrogates_in_range |].
  apply Forall_flat_map. eapply Forall_impl; [| exact Htext].
  intros c Hc. now apply utf16_units_are_units.
Qed.

Lemma with_surrogates_gives_units_witness :
  with_surrogates [72; 0x1F600; 0xD83D; 0x20AC] =
    Ok (flat_map as_units [72; 0x1F600; 0xD83D; 0x20AC]) /\
  Forall (fun u => is_unit u = true)
    (flat_map as_units [72; 0x1F600; 0xD83D; 0x20AC]).
Proof.
  apply (@with_surrogates_gives_units [72; 0x1F600; 0xD83D; 0x20AC]).
  repeat (constructor; [lia |]). constructor.
Defined.

(** A smiling face between two characters of the 16-bit range. *)
Example with_surrogates_in_place :
  flat_map as_units [72; 0x1F600; 0x20AC] = [72; 0xD83D; 0xDE00; 0x20AC].
Proof. reflexivity. Qed.

Lemma units_decode_cons (u : Z) (us : list Z) :
  units_decode (u :: us) =
  if is_high u then
    match us with
    | l :: us' =>
      if is_low l then
        match units_decode us' with
        | Some s => Some (0x10000 + (u - 0xD800) * 1024 + (l - 0xDC00) :: s)
        | None => None
        end
      else None
    | [] => None
    end
  else if is_low u then None
  else
    match units_decode us with
    | Some s => Some (u :: s)
    | None => None
    end.
Proof. rewrite <- shiftl_10. reflexivity. Qed.

Lemma units_decode_units us : forall text,
  Forall (fun u => is_unit u = true) us ->
  units_decode us = Some text ->
  with_surrogates text = Ok us.
Proof.
  induction us as [us IH] using (induction_ltof1 _ (@length Z)).
  unfold ltof in IH. intros text Hus Hdec.
  destruct us as [| u us]; [injection Hdec as <-; reflexivity |].
  pose proof (Forall_inv Hus) as Hu. pose proof (Forall_inv_tail Hus) as Hus'.
  unfold is_unit in Hu. rewrite units_decode_cons in Hdec.
  destruct (is_high u) eqn:Hhigh.
  - destruct us as [| l us]; [discriminate |].
    destruct (is_low l) eqn:Hlow; [| discriminate].
    destruct (units_decode us) as [rest |] eqn:Hrest; [| discriminate].
    remember (0x10000 + (u - 0xD800) * 1024 + (l - 0xDC00)) as c eqn:Ec.
    injection Hdec as <-. unfold is_high in Hhigh. unfold is_low in Hlow.
    cbn [with_surrogates].
    rewrite (IH us ltac:(cbn; lia) rest (Forall_inv_tail Hus') Hrest).
    assert (Hc : is_nonbmp c = true) by (unfold is_nonbmp; lia).
    unfold _nonbmp. rewrite Hc, (surrogatepair_units c Hc).
    unfold utf16_units. destruct (Z.ltb_spec c 0x10000); [lia |].
    rewrite shiftr_10, land_1023. cbn [app]. do 3 f_equal; lia.
  - destruct (is_low u) eqn:Hlow; [discriminate |].
    destruct (units_decode us) as [rest |] eqn:Hrest; [| discriminate].
    injection Hdec as <-. cbn [with_surrogates].
    rewrite (IH us ltac:(cbn; lia) rest Hus' Hrest).
    replace (_nonbmp u) with false by (unfold _nonbmp, is_nonbmp; lia).
    reflexivity.
Qed.

(** X13.  The other way round: when the normalisation of [list_messages]
    accepts a text of 16-bit code units, [with_surrogates] turns its result
    back into that text. *)
Theorem surrogate_round_trip_back (native_be : bool) (us text : str) :
  Forall (fun u => is_unit u = true) us ->
  surrogatepass_decode native_be us = Ok text ->
  with_surrogates text = Ok us.
Proof.
  intros Hus. unfold surrogatepass_decode, utf16_encode_surrogatepass.
  rewrite utf16_decode_bom, units_of_units, bytes_units_inverse by exact Hus.
  destruct (units_decode us) as [text' |] eqn:Hdec; [| discriminate].
  cbn. intros H. injection H as <-. now apply units_decode_units.
Qed.

Lemma surrogate_round_trip_back_witness :
  with_surrogates [72; 0x1F600; 0x20AC] = Ok [72; 0xD83D; 0xDE00; 0x20AC].
Proof.
  apply (@surrogate_round_trip_back true [72; 0xD83D; 0xDE00; 0x20AC]
           [72; 0x1F600; 0x20AC]).
  - repeat constructor.
  - vm_compute. reflexivity.
Defined.

Lemma surrogatepass_decode_units (native_be : bool) (text : str) :
  Forall (fun c => 0 <= c <= 0x10FFFF) text ->
  surrogatepass_decode native_be text =
  option_try UnicodeError (units_decode (flat_map utf16_units text)).
Proof.
  intros Htext. unfold surrogatepass_decode, utf16_encode_surrogatepass.
  rewrite utf16_decode_bom, bytes_units_inverse; [reflexivity |].
  apply Forall_flat_map. eapply Forall_impl; [| exact Htext].
  intros c Hc. now apply utf16_units_are_units.
Qed.

Lemma units_decode_trailing_high us h :
  is_high h = true -> units_decode (us ++ [h]) = None.
Proof.
  intros Hh.
  induction us as [us IH] using (induction_ltof1 _ (@length Z)).
  unfold ltof in IH.
  destruct us as [| u us]; cbn [app]; rewrite units_decode_cons;
    [now rewrite Hh |].
  destruct (is_high u).
  - destruct us as [| l us]; cbn [app].
    + replace (is_low h) with false; [reflexivity |].
      unfold is_high in Hh. unfold is_low. lia.
    + destruct (is_low l); [| reflexivity].
      now rewrite (IH us ltac:(cbn; lia)).
  - destruct (is_low u); [reflexivity |].
    now rewrite (IH us ltac:(cbn; lia)).
Qed.

(** X14.  A text whose last code point is a high surrogate, or whose first is a
    low surrogate, is rejected by the normalisation of [list_messages] with a
    [UnicodeError], whatever else it holds. *)
Theorem unpaired_surrogate_rejected (native_be : bool) (text : str) (c : Z) :
  Forall (fun c => 0 <= c <= 0x10FFFF) text ->
  (is_high c = true ->
   surrogatepass_decode native_be (text ++ [c]) = Err UnicodeError) /\
  (is_low c = true ->
   surrogatepass_decode native_be (c :: text) = Err UnicodeError).
Proof.
  intros Htext. split; intros Hc.
  - assert (Hu : utf16_units c = [c]).
    { unfold utf16_units, is_high in *.
      destruct (Z.ltb_spec c 0x10000); [reflexivity | lia]. }
    rewrite surrogatepass_decode_units.
    + rewrite flat_map_app. cbn [flat_map]. rewrite Hu, app_nil_r.
      now rewrite units_decode_trailing_high.
    + apply Forall_app. split; [exact Htext |].
      constructor; [| constructor]. unfold is_high in Hc. lia.
  - assert (Hu : utf16_units c = [c]).
    { unfold utf16_units, is_low in *.
      destruct (Z.ltb_spec c 0x10000); [reflexivity | lia]. }
    rewrite surrogatepass_decode_units.
    + cbn [flat_map]. rewrite Hu. cbn [app]. rewrite units_decode_cons.
      replace (is_high c) with false
        by (unfold is_high; unfold is_low in Hc; lia).
      now rewrite Hc.
    + constructor; [| exact Htext]. unfold is_low in Hc. lia.
Qed.

Lemma unpaired_surrogate_rejected_witness :
  (is_high 0xD83D = true ->
   surrogatepass_decode false ([72; 0x1F600] ++ [0xD83D]) = Err UnicodeError) /\
  (is_low 0xD83D = true ->
   surrogatepass_decode false (0xD83D :: [72; 0x1F600]) = Err UnicodeError).
Proof.
  apply (@unpaired_surrogate_rejected false [72; 0x1F600] 0xD83D).
  repeat (constructor; [lia |]). constructor.
Defined.

(** X15.  The normalisation of [list_messages] gives the same result on a
    big-endian and on a little-endian machine. *)
Theorem normalisation_ignores_byte_order (text : str) :
  Forall (fun c => 0 <= c <= 0x10FFFF) text ->
  surrogatepass_decode true text = surrogatepass_decode false text.
Proof.
  intros Htext. now rewrite !surrogatepass_decode_units.
Qed.

Lemma normalisation_ignores_byte_order_witness :
  surrogatepass_decode true [72; 0xD83D; 0xDE00; 0xDC00] =
  surrogatepass_decode false [72; 0xD83D; 0xDE00; 0xDC00].
Proof.
  apply (@normalisation_ignores_byte_order [72; 0xD83D; 0xDE00; 0xDC00]).
  repeat (constructor; [lia |]). constructor.
Defined.

(** ** The two loops of [receive] *)

Lemma ingest_all_app records : forall records' fs,
  ingest_all fs (records ++ records') =
  match ingest_all fs records with
  | Ok fs' => ingest_all fs' records'
  | Err e => Err e
  end.
Proof.
  induction records as [| d records IH]; intros records' fs; [reflexivity |].
  cbn [app ingest_all].
  destruct (collect_fragments fs (Some d) false) as [[fs1 ?] | e];
    [apply IH | reflexivity].
Qed.

Lemma ingest_all_total records : forall fs,
  forallb has_frag records = true -> exists fs', ingest_all fs records = Ok fs'.
Proof.
  induction records as [| d records IH]; intros fs Hall; [now exists fs |].
  cbn [forallb] in Hall. apply andb_prop in Hall. destruct Hall as [Hd Hall].
  cbn [ingest_all]. rewrite collect_ingest. unfold ingest, frag_key.
  unfold has_frag in Hd. destruct (frag d); [| discriminate].
  destruct (has_key _ fs); now apply IH.
Qed.

Lemma age_limit_spec cfg now :
  (limit_computable cfg now ->
   age_limit cfg now = Ok (now - maxage cfg * hour_ms)) /\
  (~ limit_computable cfg now -> age_limit cfg now = Err OverflowError).
Proof.
  unfold limit_computable, age_limit, timedelta_hours, datetime_sub.
  cbn zeta.
  destruct (Z.ltb_spec (maxage cfg / 24) (-999999999)),
           (Z.ltb_spec 999999999 (maxage cfg / 24)); cbn [orb];
    try (split; [intros; exfalso; lia | reflexivity]).
  destruct (Z.ltb_spec (now - maxage cfg * hour_ms) datetime_min),
           (Z.ltb_spec datetime_max (now - maxage cfg * hour_ms)); cbn [orb];
    try (split; [intros; exfalso; lia | reflexivity]).
  split; [reflexivity | intros Hno; exfalso; apply Hno; lia].
Qed.

Lemma scan_read_spec cfg now limit sim_read :
  age_limit cfg now = Ok limit \/ sim_read = [] ->
  forall read_idx fs,
  scan_read cfg now sim_read read_idx fs =
  match ingest_all fs (filter has_frag sim_read) with
  | Ok fs' => Ok (read_idx ++ map idx (filter (is_old limit) sim_read), fs')
  | Err e => Err e
  end.
Proof.
  intros [Hlimit | ->]; [| intros; cbn; now rewrite app_nil_r].
  induction sim_read as [| m rest IH]; intros read_idx fs.
  - cbn. now rewrite app_nil_r.
  - cbn [scan_read filter]. rewrite Hlimit. fold (is_old limit m).
    assert (Hh : has_frag m = match frag m with
                              | Some _ => true
                              | None => false
                              end) by reflexivity.
    destruct (frag m); rewrite Hh; cbn [ingest_all].
    + destruct (collect_fragments fs (Some m) false) as [[fs1 ?] | e];
        [| reflexivity].
      rewrite IH. destruct (ingest_all fs1 _); [| reflexivity].
      destruct (is_old limit m); cbn [map]; now rewrite <- ?app_assoc.
    + rewrite IH. destruct (ingest_all fs _); [| reflexivity].
      destruct (is_old limit m); cbn [map]; now rewrite <- ?app_assoc.
Qed.

Lemma scan_unread_spec unread : forall messages read_idx fs,
  scan_unread unread messages read_idx fs =
  match ingest_all fs (filter has_frag unread) with
  | Ok fs' =>
    Ok (messages ++ filter (fun m => negb (has_frag m)) unread,
        read_idx ++ map idx (filter (fun m => negb (has_frag m)) unread),
        fs')
  | Err e => Err e
  end.
Proof.
  induction unread as [| m rest IH]; intros messages read_idx fs.
  - cbn. now rewrite !app_nil_r.
  - cbn [scan_unread filter].
    assert (Hh : has_frag m = match frag m with
                              | Some _ => true
                              | None => false
                              end) by reflexivity.
    destruct (frag m); rewrite Hh; cbn [negb ingest_all].
    + destruct (collect_fragments fs (Some m) false) as [[fs1 ?] | e];
        [apply IH | reflexivity].
    + rewrite IH. destruct (ingest_all fs _); [| reflexivity].
      cbn [map]. now rewrite <- !app_assoc.
Qed.

(** X16.  The two loops of [receive] fail in one case only: the read
    listing is not empty and the age limit cannot be computed, because
    [maxage] does not fit a [timedelta] or the limit is no date of the
    years 1 to 9999; the first loop then ends with [OverflowError].
    Otherwise they leave the unread messages that are not fragments to
    be printed, in listing order; they schedule for deletion the slots of
    the read messages dated before the limit, then the slots of those
    unread messages; and they hand the reassembler the fragments of the
    read listing followed by those of the unread listing. *)
Theorem receive_loops cfg now (sim_read unread : list Message) :
  let plain := filter (fun m => negb (has_frag m)) unread in
  let limit := now - maxage cfg * hour_ms in
  let old := map idx (filter (is_old limit) sim_read) in
  (limit_computable cfg now \/ sim_read = [] ->
   exists fs1 fs2,
     scan_read cfg now sim_read [] [] = Ok (old, fs1) /\
     scan_unread unread [] old fs1 = Ok (plain, old ++ map idx plain, fs2) /\
     ingest_all [] (filter has_frag sim_read ++ filter has_frag unread) =
       Ok fs2) /\
  (~ limit_computable cfg now -> sim_read <> [] ->
   scan_read cfg now sim_read [] [] = Err OverflowError).
Proof.
  intros plain limit old. split.
  - intros Hcan.
    rewrite (@scan_read_spec cfg now limit sim_read), ingest_all_app.
    2:{ destruct Hcan as [Hcan | ->]; [left | now right].
        now apply age_limit_spec. }
    destruct (@ingest_all_total (filter has_frag sim_read) []) as [fs1 H1].
    { apply forallb_forall. intros m Hm. now apply filter_In in Hm. }
    destruct (@ingest_all_total (filter has_frag unread) fs1) as [fs2 H2].
    { apply forallb_forall. intros m Hm. now apply filter_In in Hm. }
    exists fs1, fs2. rewrite H1, scan_unread_spec, H2. auto.
  - intros Hno Hne. destruct sim_read as [| m rest]; [contradiction |].
    cbn [scan_read]. now rewrite (proj2 (age_limit_spec cfg now) Hno).
Qed.

(** ** Storing a fragment *)

Lemma append_at_fst k d (fs : FragMap) :
  map fst (append_at k d fs) = map fst fs.
Proof.
  induction fs as [| [r ms] fs IH]; [reflexivity |]. cbn [append_at].
  destruct (r =? k); cbn [map fst]; now rewrite ?IH.
Qed.

(** X17.  Storing a record without draining fails with [KeyError] exactly when
    the record is no fragment.  Otherwise nothing is returned, the record
    becomes the last member of the set of its reference, every other set is as
    it was, and the references keep their order, a new one going last. *)
Theorem collect_fragments_stores (fragments : FragMap) (data : Message) :
  match collect_fragments fragments (Some data) false with
  | Err e => frag data = None /\ e = KeyError "ref"
  | Ok (fragments', out) =>
    out = None /\ frag data <> None /\
    (forall r, members_of r fragments' =
               members_of r fragments ++
               (if ref_of data =? r then [data] else [])) /\
    map fst fragments' =
      map fst fragments ++
      (if has_key (ref_of data) fragments then [] else [ref_of data])
  end.
Proof.
  rewrite collect_ingest.
  destruct (ingest fragments data) as [fs' | e] eqn:Hing.
  - split; [reflexivity |].
    split; [eapply ingest_fragment; eassumption |].
    split; [intros r; now apply ingest_members_of |].
    revert Hing. unfold ingest, frag_key, ref_of.
    destruct (frag data) as [f |]; [| discriminate].
    destruct (has_key (ref f) fragments); intros H; injection H as <-.
    + now rewrite append_at_fst, app_nil_r.
    + now rewrite map_app.
  - revert Hing. unfold ingest, frag_key.
    destruct (frag data) as [f |].
    + destruct (has_key _ fragments); discriminate.
    + intros H. injection H as <-. auto.
Qed.

(** ** Effects, compositionally *)

Lemma only_bind {A B} P (c : M A) (k : A -> M B) :
  only P c -> (forall a, only P (k a)) -> only P (bind c k).
Proof.
  intros Hc Hk s. destruct (Hc s) as (evs1 & Ht1 & Hp1). unfold bind.
  destruct (c s) as [[a | e |] s1]; cbn [snd] in Ht1.
  - destruct (Hk a s1) as (evs2 & Ht2 & Hp2). exists (evs1 ++ evs2).
    rewrite Ht2, Ht1, <- app_assoc, forallb_app, Hp1, Hp2. auto.
  - now exists evs1.
  - now exists evs1.
Qed.

Lemma only_pure {A} P (c : M A) :
  (forall s, trace (snd (c s)) = trace s) -> only P c.
Proof. intros H s. exists []. now rewrite app_nil_r, H. Qed.

Lemma only_ret {A} P (a : A) : only P (ret a).
Proof. now apply only_pure. Qed.

Lemma only_raise {A} P e : only P (@raise A e).
Proof. now apply only_pure. Qed.

Lemma only_hang {A} P : only P (@hang A).
Proof. now apply only_pure. Qed.

Lemma only_get {A} P (f : State -> A) : only P (get f).
Proof. now apply only_pure. Qed.

Lemma only_lift {A} P (t : Try A) : only P (lift t).
Proof. apply only_pure. now destruct t. Qed.

Lemma only_tick P ms : only P (tick ms).
Proof. now apply only_pure. Qed.

Lemma only_emit P e : P e = true -> only P (emit e).
Proof. intros H s. exists [e]. cbn. now rewrite H. Qed.

Lemma only_with_port {A} P (k : option Z -> M A) :
  (forall t, only P (k t)) -> only P (with_port k).
Proof.
  intros H. unfold with_port. apply only_bind; [apply only_get |].
  intros [| t |]; [apply only_raise | apply H | apply only_raise].
Qed.

Lemma only_ser_read_until P expected : only P (ser_read_until expected).
Proof.
  unfold ser_read_until, next_reply. apply only_with_port. intros t.
  apply only_bind.
  - apply only_bind; [apply only_get |]. intros [| r sc].
    + destruct t; [apply only_ret | apply only_hang].
    + apply only_bind; [now apply only_pure | intros; apply only_ret].
  - intros [rx dt | e]; [| apply only_raise].
    apply only_bind; [apply only_tick | intros; apply only_ret].
Qed.

Lemma only_sleep_ms P ms : P (Sleep ms) = true -> only P (sleep_ms ms).
Proof.
  intros H. unfold sleep_ms. destruct (ms <? 0); [apply only_raise |].
  apply only_bind; [now apply only_emit | intros; apply only_tick].
Qed.

(** ** [monitor] *)

Lemma no_ret_bind {A B} (c : M A) (k : A -> M B) s :
  (forall a s1 b, fst (k a s1) <> Ret b) ->
  forall b, fst (bind c k s) <> Ret b.
Proof.
  intros Hk b. unfold bind. destruct (c s) as [[a | e |] s1];
    [apply Hk | discriminate | discriminate].
Qed.

Lemma monitor_loop_never_returns cfg fuel : forall s b,
  fst (monitor_loop cfg fuel s) <> Ret b.
Proof.
  induction fuel as [| fuel IH]; intros s b; [discriminate |].
  cbn [monitor_loop]. apply no_ret_bind. intros raw s1 b1.
  apply no_ret_bind. intros line s2 b2.
  apply no_ret_bind. intros [] s3 b3.
  apply no_ret_bind. intros [] s4 b4. apply IH.
Qed.

Lemma monitor_loop_listens cfg fuel :
  only (listening cfg) (monitor_loop cfg fuel).
Proof.
  induction fuel as [| fuel IH]; [apply only_hang |].
  cbn [monitor_loop].
  apply only_bind; [apply only_ser_read_until | intros raw].
  apply only_bind; [apply only_lift | intros line].
  apply only_bind; [now apply only_emit | intros _].
  apply only_bind; [| intros _; exact IH].
  destruct (contains line (lit "+CMTI:")); [| apply only_ret].
  apply only_bind; [now apply only_emit | intros _].
  apply only_bind; [now apply only_emit | intros _].
  destruct (command cfg) as [[| c rest] |] eqn:Hc;
    [apply only_ret | | apply only_ret].
  apply only_bind; [now apply only_emit | intros _].
  apply only_bind.
  - apply only_emit. unfold listening. rewrite Hc.
    now apply list_eqb_eq.
  - intros _. repeat (apply only_bind; [now apply only_emit | intros _]).
    now apply only_emit.
Qed.

(** X18.  [monitor] never returns: it ends with an exception or not at all.
    Meanwhile it only logs, prints, and runs the configured command; it writes
    nothing to the modem and leaves the port and the power pin alone. *)
Theorem monitor_only_listens cfg s :
  (forall b, fst (monitor cfg s) <> Ret b) /\
  exists evs,
    trace (snd (monitor cfg s)) = trace s ++ evs /\
    forallb (listening cfg) evs = true.
Proof.
  split.
  - unfold monitor. apply no_ret_bind. intros [] s1 b1.
    apply no_ret_bind. intros [] s2 b2.
    apply no_ret_bind. intros sc s3 b3. apply monitor_loop_never_returns.
  - revert s. change (only (listening cfg) (monitor cfg)). unfold monitor.
    apply only_bind; [now apply only_emit | intros _].
    apply only_bind; [now apply only_emit | intros _].
    apply only_bind; [apply only_get | intros sc].
    apply monitor_loop_listens.
Qed.

(** ** What [receive] deletes, and when *)

Lemma only_at_command P command back timeout quiet :
  (forall lvl msg, is_cleanup (Log lvl msg) = false ->
                   P (Log lvl msg) = true) ->
  P SerResetInput = true ->
  P (SerWrite [0x1B]) = true ->
  (forall cmd, utf8_encode (command ++ CRLF) = Some cmd ->
               P (SerWrite cmd) = true) ->
  only P (at_command command back timeout quiet).
Proof.
  intros Hlog Hreset Hesc Hcmd. unfold at_command.
  apply only_bind; [now apply only_emit, Hlog | intros _].
  apply only_bind;
    [apply only_with_port; intros; now apply only_emit | intros _].
  apply only_bind;
    [apply only_with_port; intros; now apply only_emit | intros _].
  unfold encode at 1.
  destruct (utf8_encode (command ++ CRLF)) as [cmd |] eqn:Hc;
    cbn [option_try lift]; [| now apply only_pure].
  change (only P
    (bind (ser_write cmd) (fun _ =>
       bind (ser_set_timeout timeout) (fun _ =>
         expected <- encode back ;;
         rec_buff <- ser_read_until expected ;;
         response <- decode rec_buff ;;
         if negb (contains response back) then
           (if negb quiet
            then log ERROR "AT ERROR:\t%s" ;; log ERROR "AT Response:\t%s"
            else ret tt) ;;
           ret (false, response)
         else
           log DEBUG "%s" ;;
           ret (true, response))))).
  apply only_bind;
    [apply only_with_port; intros; now apply only_emit, Hcmd | intros _].
  apply only_bind.
  { apply only_with_port. intros _.
    destruct (timeout <? 0); [apply only_raise | now apply only_pure]. }
  intros _. apply only_bind; [apply only_lift | intros expected].
  apply only_bind; [apply only_ser_read_until | intros rec_buff].
  apply only_bind; [apply only_lift | intros response].
  destruct (negb (contains response back)).
  - apply only_bind; [| intros; apply only_ret].
    destruct (negb quiet); [| apply only_ret].
    apply only_bind;
      [now apply only_emit, Hlog | intros; now apply only_emit, Hlog].
  - apply only_bind; [now apply only_emit, Hlog | intros; apply only_ret].
Qed.

Ltac effects :=
  repeat first
    [ apply only_ret | apply only_raise | apply only_hang | apply only_get
    | apply only_lift | apply only_tick | apply only_ser_read_until
    | apply only_emit; reflexivity
    | apply only_sleep_ms; reflexivity
    | apply only_with_port; intros ?
    | apply only_pure; reflexivity
    | match goal with
      | |- only _ (if ?b then _ else _) => destruct b
      | |- only _ (match ?x with _ => _ end) => destruct x
      end
    | apply only_bind; [| intros ?] ].

Lemma only_bind_stuck {A B} P (c : M A) (k : A -> M B) :
  only P c -> (forall s a, fst (c s) <> Ret a) -> only P (bind c k).
Proof.
  intros Hc Hno s. destruct (Hc s) as (evs & Ht & Hp). unfold bind.
  pose proof (Hno s) as Hs.
  destruct (c s) as [[a | e |] s1]; [now contradiction (Hs a) | |];
    now exists evs.
Qed.

Lemma only_power_up P cfg :
  (forall lvl msg, is_cleanup (Log lvl msg) = false ->
                   P (Log lvl msg) = true) ->
  only P (power_up cfg).
Proof.
  intros Hlog. unfold power_up.
  destruct (pwrpin cfg =? 0); [now apply only_emit, Hlog |].
  apply only_bind_stuck.
  - destruct (negb (pwrup cfg =? 0));
      (apply only_bind; [now apply only_emit, Hlog | intros _]);
      now apply only_pure.
  - intros s a. now destruct (negb (pwrup cfg =? 0)).
Qed.

Lemma only_listing_command command back timeout quiet cmd :
  utf8_encode (command ++ CRLF) = Some cmd ->
  is_deletion cmd = false ->
  only listing (at_command command back timeout quiet).
Proof.
  intros Hcmd Hno. apply only_at_command; try reflexivity.
  intros cmd' H. rewrite Hcmd in H. injection H as <-. cbn. now rewrite Hno.
Qed.

Lemma only_list_messages host codec status cmd :
  utf8_encode ((lit "AT+CMGL=" ++ fmt_d status) ++ CRLF) = Some cmd ->
  is_deletion cmd = false ->
  only listing (list_messages host codec status).
Proof.
  intros Hcmd Hno. unfold list_messages.
  apply only_bind; [now apply only_listing_command with (cmd := cmd) |].
  intros [[] response]; effects.
Qed.

Lemma bind_avoids {A B} (c : M A) (k : A -> M B) (b : B) s :
  (forall a s1, fst (k a s1) <> Ret b) -> fst (bind c k s) <> Ret b.
Proof.
  intros Hk. unfold bind. destruct (c s) as [[a | e |] s1];
    [apply Hk | discriminate | discriminate].
Qed.

Lemma phased_bind {A} cfg (c : M A) (k : A -> M bool) :
  only listing c -> (forall a, phased cfg (k a)) -> phased cfg (bind c k).
Proof.
  intros Hc Hk s. destruct (Hc s) as (evs1 & Ht1 & Hp1). unfold bind.
  destruct (c s) as [[a | e |] s1]; cbn [snd] in Ht1.
  - destruct (Hk a s1) as (pre & post & Ht & Hp & Hend).
    exists (evs1 ++ pre), post.
    rewrite Ht, Ht1, <- !app_assoc, forallb_app, Hp1, Hp. auto.
  - exists evs1, []. rewrite app_nil_r. cbn [fst snd].
    split; [exact Ht1 |]. split; [exact Hp1 |]. left. now split.
  - exists evs1, []. rewrite app_nil_r. cbn [fst snd].
    split; [exact Ht1 |]. split; [exact Hp1 |]. left. now split.
Qed.

Lemma phased_quiet cfg (c : M bool) :
  only listing c -> (forall s, fst (c s) <> Ret true) -> phased cfg c.
Proof.
  intros Hc Hr s. destruct (Hc s) as (evs & Ht & Hp).
  exists evs, []. rewrite app_nil_r. split; [exact Ht |].
  split; [exact Hp |]. left. split; [reflexivity | apply Hr].
Qed.

Lemma phased_print cfg ms (c : M bool) :
  only (deleting cfg) c -> (forall s, fst (c s) <> Ret false) ->
  phased cfg (emit (PrintJson ms) ;; c).
Proof.
  intros Hc Hr s. unfold bind, emit.
  match goal with |- context [c ?s1] => set (s0 := s1) end.
  destruct (Hc s0) as (del & Ht & Hp).
  exists [], (PrintJson ms :: del). cbn [app]. rewrite Ht. subst s0.
  cbn [trace]. rewrite <- app_assoc. split; [reflexivity |].
  split; [reflexivity |]. right. exists ms, del.
  split; [reflexivity |]. split; [exact Hp | apply Hr].
Qed.

Lemma only_delete_slots P slots :
  (forall lvl msg, is_cleanup (Log lvl msg) = false ->
                   P (Log lvl msg) = true) ->
  P SerResetInput = true ->
  (forall w, P (SerWrite w) = true) ->
  only P (delete_slots slots).
Proof.
  intros Hlog Hreset Hw.
  induction slots as [| slot slots IH]; [apply only_ret |].
  cbn [delete_slots]. apply only_bind; [| intros _; exact IH].
  apply only_at_command; auto.
Qed.

Lemma receive_phased cfg host codec : phased cfg (receive cfg host codec).
Proof.
  unfold receive.
  apply phased_bind; [now apply only_emit | intros _].
  apply phased_bind; [now apply only_emit | intros _].
  apply phased_bind; [now apply only_power_up | intros _].
  apply phased_bind.
  { eapply only_listing_command; [vm_compute; reflexivity | reflexivity]. }
  intros _. apply phased_bind.
  { eapply only_listing_command; [vm_compute; reflexivity | reflexivity]. }
  intros _. apply phased_bind.
  { eapply only_list_messages; [vm_compute; reflexivity | reflexivity]. }
  intros [result sim_read]. apply phased_bind.
  { destruct result; effects. }
  intros [read_idx fragments]. apply phased_bind.
  { eapply only_list_messages; [vm_compute; reflexivity | reflexivity]. }
  intros [[] unread].
  - apply phased_bind; [apply only_lift |].
    intros [[messages read_idx2] fragments2].
    apply phased_bind; [apply only_lift |].
    intros [fragments3 [[long_messages frag_read_idx] |]].
    2:{ apply phased_quiet; [apply only_raise | discriminate]. }
    apply phased_print.
    + apply only_bind; [| intros; apply only_ret].
      unfold deleting. destruct (deleteall cfg).
      * apply only_bind; [| intros; apply only_ret].
        apply only_at_command; try reflexivity.
        intros cmd H. vm_compute in H. injection H as <-. reflexivity.
      * destruct (preserve cfg); cbn [negb]; [apply only_ret |].
        now apply only_delete_slots.
    + intros s. apply bind_avoids. intros [] s1. discriminate.
  - apply phased_quiet.
    + apply only_bind; [now apply only_emit | intros _].
      apply only_bind; [now apply only_emit | intros _]. apply only_ret.
    + intros s. discriminate.
Qed.

Lemma forallb_writes (P : Event -> bool) (Q : bytes -> bool) evs :
  (forall w, P (SerWrite w) = true -> Q w = true) ->
  forallb P evs = true -> forallb Q (writes evs) = true.
Proof.
  intros HPQ. induction evs as [| e evs IH]; [reflexivity |].
  cbn [forallb]. intros H. apply andb_prop in H. destruct H as [He Hevs].
  change (e :: evs) with ([e] ++ evs). rewrite writes_app.
  rewrite forallb_app, (IH Hevs), andb_true_r.
  destruct e; try reflexivity. cbn. now rewrite (HPQ _ He).
Qed.

(** X19.  [receive] prints the listing at most once, and whatever it deletes it
    deletes afterwards: up to the listing no deletion command is written.  When
    it returns, it returns [True] exactly when the listing was printed. *)
Theorem receive_prints_before_deleting cfg host codec s :
  exists pre post,
    trace (snd (receive cfg host codec s)) = trace s ++ pre ++ post /\
    forallb listing pre = true /\
    (post = [] \/
     exists ms del,
       post = PrintJson ms :: del /\
       forallb (fun e => negb (is_json e)) del = true) /\
    (forall b, fst (receive cfg host codec s) = Ret b ->
               (b = true <-> post <> [])).
Proof.
  destruct (receive_phased cfg host codec s)
    as (pre & post & Ht & Hp & [[-> Hr] | (ms & del & -> & Hd & Hr)]);
    exists pre; eexists; (split; [exact Ht |]); (split; [exact Hp |]).
  - split; [now left |]. intros b Hb. split; [| congruence].
    intros ->. contradiction.
  - split.
    + right. exists ms, del. split; [reflexivity |].
      apply forallb_forall. intros e He.
      apply (proj1 (forallb_forall _ _) Hd) in He. now destruct e.
    + intros b Hb. split; [discriminate |]. intros _.
      destruct b; [reflexivity | contradiction].
Qed.

(** X20.  The two switches of [receive].  Under [--deleteall] the only deletion
    command ever written is the one that deletes the messages read, and no slot
    is deleted one by one; under [--preserve] alone no deletion command is
    written at all. *)
Theorem receive_deletion_switches cfg host codec s :
  exists evs,
    trace (snd (receive cfg host codec s)) = trace s ++ evs /\
    (deleteall cfg = true ->
     forallb (fun w => negb (is_deletion w) || list_eqb w wipe)
       (writes evs) = true) /\
    (deleteall cfg = false -> preserve cfg = true ->
     forallb (fun w => negb (is_deletion w)) (writes evs) = true).
Proof.
  destruct (receive_phased cfg host codec s)
    as (pre & post & Ht & Hp & Hend).
  exists (pre ++ post). split; [exact Ht |].
  assert (Hpre : forallb (fun w => negb (is_deletion w)) (writes pre) = true).
  { eapply forallb_writes; [| exact Hp]. now intros w. }
  rewrite writes_app, !forallb_app, Hpre.
  split.
  - intros Hall. apply andb_true_intro. split.
    + apply forallb_forall. intros w Hw.
      now rewrite (proj1 (forallb_forall _ _) Hpre w Hw).
    + destruct Hend as [[-> _] | (ms & del & -> & Hd & _)]; [reflexivity |].
      change (writes (PrintJson ms :: del)) with (writes del).
      eapply forallb_writes; [| exact Hd].
      intros w. cbn [deleting]. rewrite Hall. intros Hw.
      apply orb_prop in Hw. destruct Hw as [Hw | Hw].
      * apply list_eqb_eq in Hw. subst w. reflexivity.
      * rewrite Hw. apply orb_true_r.
  - intros Hall Hkeep.
    destruct Hend as [[-> _] | (ms & del & -> & Hd & _)]; [reflexivity |].
    change (writes (PrintJson ms :: del)) with (writes del).
    eapply forallb_writes; [| exact Hd].
    intros w. cbn [deleting]. rewrite Hall, Hkeep. discriminate.
Qed.

(** ** [modem_info] *)

Lemma exactly_bind {A B} l1 l2 (c : M A) (k : A -> M B) :
  writes_exactly l1 c -> (forall a, writes_exactly l2 (k a)) ->
  writes_exactly (l1 ++ l2) (bind c k).
Proof.
  intros Hc Hk s. destruct (Hc s) as (evs1 & Ht1 & [r1 Hr1] & Hv1).
  unfold bind. destruct (c s) as [[a | e |] s1]; cbn [fst snd] in *.
  - destruct (Hk a s1) as (evs2 & Ht2 & [r2 Hr2] & Hv2).
    exists (evs1 ++ evs2). rewrite Ht2, Ht1, <- app_assoc, writes_app.
    rewrite (Hv1 a eq_refl). split; [reflexivity |]. split.
    + exists r2. now rewrite Hr2, <- app_assoc.
    + intros v Hv. now rewrite (Hv2 v Hv).
  - exists evs1. split; [exact Ht1 |]. split; [| discriminate].
    exists (r1 ++ l2). now rewrite Hr1, <- app_assoc.
  - exists evs1. split; [exact Ht1 |]. split; [| discriminate].
    exists (r1 ++ l2). now rewrite Hr1, <- app_assoc.
Qed.

Lemma exactly_silent {A} (c : M A) :
  only (fun e => negb (is_write e)) c -> writes_exactly [] c.
Proof.
  intros Hc s. destruct (Hc s) as (evs & Ht & Hp). exists evs.
  split; [exact Ht |].
  assert (Hw : writes evs = []).
  { clear Ht. induction evs as [| e evs IH]; [reflexivity |].
    cbn [forallb] in Hp. apply andb_prop in Hp. destruct Hp as [He Hp].
    change (e :: evs) with ([e] ++ evs). rewrite writes_app.
    rewrite (IH Hp), app_nil_r. now destruct e. }
  rewrite Hw. split; [now exists [] | reflexivity].
Qed.

Lemma exactly_at_command command back timeout quiet cmd :
  utf8_encode (command ++ CRLF) = Some cmd ->
  writes_exactly [[0x1B]; cmd] (at_command command back timeout quiet).
Proof.
  intros Hcmd s.
  destruct (@at_command_trace command back timeout quiet s _ _
              (surjective_pairing _))
    as (evs & Ht & Hw & Hv).
  exists evs. split; [exact Ht |]. rewrite Hcmd in Hw, Hv. split.
  - destruct Hw as [-> | [-> | (cmd' & Hc & ->)]].
    + now eexists.
    + now exists [cmd].
    + injection Hc as <-. now exists [].
  - intros v Hr. destruct (Hv v Hr) as (cmd' & Hc & ->). now injection Hc as <-.
Qed.

Lemma exactly_query command echo cmd :
  utf8_encode (command ++ CRLF) = Some cmd ->
  writes_exactly [[0x1B]; cmd] (query command echo).
Proof.
  intros Hcmd. unfold query.
  rewrite <- (app_nil_r [[0x1B]; cmd]).
  apply exactly_bind; [now apply exactly_at_command |].
  intros [ok res]. apply exactly_silent. destruct echo; effects.
Qed.

(** X21.  [modem_info] writes its six queries to the modem, in order and each
    after the escape octet, and nothing else; a query that fails does not stop
    the next, so that whenever [modem_info] returns all six have been
    written. *)
Theorem modem_info_queries cfg s :
  exists evs,
    trace (snd (modem_info cfg s)) = trace s ++ evs /\
    (exists rest, info_writes = writes evs ++ rest) /\
    (forall v, fst (modem_info cfg s) = Ret v -> writes evs = info_writes).
Proof.
  revert s. change (writes_exactly info_writes (modem_info cfg)).
  unfold modem_info.
  apply (@exactly_bind _ _ [] info_writes);
    [apply exactly_silent; now apply only_emit | intros _].
  apply (@exactly_bind _ _ [] info_writes);
    [apply exactly_silent; now apply only_power_up | intros _].
  unfold info_writes. cbn [flat_map].
  repeat (apply (@exactly_bind _ _ [_; _]);
          [now apply exactly_query | intros _]).
  rewrite app_nil_r. now apply exactly_query.
Qed.

(** ** [cleanup] *)

(** X22.  [cleanup] always ends and closes the port, but it cannot reach
    the power pin: with the powered flag set [power_down] fails with
    [NameError] at its first use of [GPIO], and with ['GPIO'] in
    [sys.modules] the call of [GPIO.cleanup()] fails the same way.  So
    [cleanup] returns normally only when neither holds; it drives no pin,
    takes no time, and never gets [GPIO.cleanup()] done. *)
Theorem cleanup_outcome cfg s :
  fst (cleanup cfg s) =
    (if powered s || gpio_loaded s then Raise (NameError "GPIO")
     else Ret tt) /\
  ser (snd (cleanup cfg s)) = closed (ser s) /\
  clock (snd (cleanup cfg s)) = clock s /\
  exists evs,
    trace (snd (cleanup cfg s)) = trace s ++ evs /\
    pin_levels evs = [] /\
    existsb is_gpio_cleanup evs = false.
Proof.
  destruct s as [pw sr gl sc ck tr].
  unfold cleanup, power_down, ser_close, global_GPIO.
  run_monad.
  destruct sr, pw, gl; cbn; try destruct (pwrdown cfg =? 0); cbn;
    rewrite <- ?app_assoc; cbn [app];
    (split; [reflexivity |]); (split; [reflexivity |]);
    (split; [reflexivity |]);
    (eexists; split; [reflexivity |]); split; reflexivity.
Qed.

(** ** [setup] and [clear] *)


(** X24.  [clear] writes one command to the modem, the one that deletes every
    stored message, after the escape octet: it selects no storage first and
    writes nothing after it. *)
Theorem clear_writes_one_command cfg s :
  exists evs,
    trace (snd (clear cfg s)) = trace s ++ evs /\
    (exists rest,
       [[0x1B]; lit "AT+CMGD=1,4" ++ CRLF] = writes evs ++ rest) /\
    (forall b, fst (clear cfg s) = Ret b ->
               writes evs = [[0x1B]; lit "AT+CMGD=1,4" ++ CRLF]).
Proof.
  revert s.
  change (writes_exactly [[0x1B]; lit "AT+CMGD=1,4" ++ CRLF] (clear cfg)).
  unfold clear.
  apply (@exactly_bind _ _ [] [_; _]);
    [apply exactly_silent; now apply only_emit | intros _].
  apply (@exactly_bind _ _ [] [_; _]);
    [apply exactly_silent; now apply only_emit | intros _].
  apply (@exactly_bind _ _ [] [_; _]);
    [apply exactly_silent; now apply only_power_up | intros _].
  rewrite <- (app_nil_r [_; _]).
  apply exactly_bind; [now apply exactly_at_command |].
  intros [result response]. apply exactly_silent, only_ret.
Qed.

(** ** The exit status of [monitor] *)

Lemma run_parsed host codec cfg s :
  run host codec (Parsed cfg) s =
  if pwrpin cfg =? 0
  then bind (setup cfg host) (fun _ => session cfg (run_cmd cfg host codec)) s
  else (Raise (NameError "GPIO"), s).
Proof.
  unfold run, parse_args. now destruct (pwrpin cfg =? 0).
Qed.

Lemma monitor_never_returns cfg s b : fst (monitor cfg s) <> Ret b.
Proof.
  unfold monitor. apply bind_avoids. intros [] s1.
  apply bind_avoids. intros [] s2.
  apply bind_avoids. intros sc s3. apply monitor_loop_never_returns.
Qed.

(** X25.  A [run] of the [monitor] command ends with an exit status only
    when the command was stopped by an interrupt or a termination signal,
    and that status is 0. *)
Theorem monitor_exit_status host codec cfg s status :
  cmd cfg = Monitor ->
  fst (run host codec (Parsed cfg) s) = Ret status ->
  status = 0 /\
  exists s0 e s1,
    setup cfg host s = (Ret tt, s0) /\
    run_cmd cfg host codec s0 = (Raise e, s1) /\
    is_interrupt e = true.
Proof.
  intros Hcmd. rewrite run_parsed.
  destruct (pwrpin cfg =? 0); [| discriminate]. unfold bind at 1.
  destruct (setup cfg host s) as [[[] | e0 |] s0]; try discriminate.
  destruct (run_cmd cfg host codec s0) as [rc s1] eqn:Hrun.
  destruct rc as [v | e |].
  - exfalso. revert Hrun. unfold run_cmd. rewrite Hcmd. unfold bind.
    pose proof (@monitor_never_returns cfg s0) as Hno.
    destruct (monitor cfg s0) as [[b | e |] s2]; try discriminate.
    now contradiction (Hno b).
  - rewrite (@session_cleans_up cfg _ s0 (Raise e) s1 Hrun)
      by discriminate.
    cbn [fst].
    destruct (fst (cleanup cfg (after_handler (Raise e) s1)));
      cbn [exit_of]; try discriminate.
    destruct (is_interrupt e) eqn:Hi; [| discriminate].
    intros H. injection H as <-. split; [reflexivity |].
    now exists s0, e, s1.
  - unfold session, try_finally, try_except, bind. rewrite Hrun.
    discriminate.
Qed.

Lemma monitor_exit_status_witness :
  0 = 0 /\
  exists s0 e s1,
    setup (demo_config Monitor) (demo_host "")
      (initial [Fault SystemExit] 0 false) = (Ret tt, s0) /\
    run_cmd (demo_config Monitor) (demo_host "") demo_codec s0 =
      (Raise e, s1) /\
    is_interrupt e = true.
Proof.
  apply (@monitor_exit_status (demo_host "") demo_codec (demo_config Monitor)
           (initial [Fault SystemExit] 0 false) 0).
  - reflexivity.
  - vm_compute. reflexivity.
Defined.

(** ** What no command does *)

Lemma orderly_bind {A B} (c : M A) (k : A -> M B) :
  orderly c -> (forall a, orderly (k a)) -> orderly (bind c k).
Proof.
  intros [Hc Hs] Hk. split.
  - apply only_bind; [exact Hc | intros a; apply Hk].
  - intros s. unfold bind. specialize (Hs s).
    destruct (c s) as [[a | e |] s1]; cbn [snd] in *; try exact Hs.
    now rewrite (proj2 (Hk a) s1).
Qed.

Lemma orderly_bind_stuck {A B} (c : M A) (k : A -> M B) :
  orderly c -> (forall s a, fst (c s) <> Ret a) -> orderly (bind c k).
Proof.
  intros [Hc Hs] Hno. split; [now apply only_bind_stuck |].
  intros s. unfold bind. specialize (Hs s). pose proof (Hno s) as Hn.
  destruct (c s) as [[a | e |] s1]; [now contradiction (Hn a) | |];
    exact Hs.
Qed.

Lemma orderly_quiet {A} (c : M A) :
  (forall s, trace (snd (c s)) = trace s /\
             standing (snd (c s)) = standing s) ->
  orderly c.
Proof.
  intros H. split; [apply only_pure |]; intros s; apply H.
Qed.

Lemma orderly_ret {A} (a : A) : orderly (ret a).
Proof. now apply orderly_quiet. Qed.

Lemma orderly_raise {A} e : orderly (@raise A e).
Proof. now apply orderly_quiet. Qed.

Lemma orderly_hang {A} : orderly (@hang A).
Proof. now apply orderly_quiet. Qed.

Lemma orderly_get {A} (f : State -> A) : orderly (get f).
Proof. now apply orderly_quiet. Qed.

Lemma orderly_lift {A} (t : Try A) : orderly (lift t).
Proof. apply orderly_quiet. now destruct t. Qed.

Lemma orderly_emit e : in_command e = true -> orderly (emit e).
Proof. intros H. split; [now apply only_emit | reflexivity]. Qed.

Lemma orderly_sleep_ms ms : orderly (sleep_ms ms).
Proof.
  unfold sleep_ms. destruct (ms <? 0); [apply orderly_raise |].
  apply orderly_bind; [now apply orderly_emit | intros _].
  now apply orderly_quiet.
Qed.

Lemma orderly_ser_read_until expected : orderly (ser_read_until expected).
Proof.
  split; [apply only_ser_read_until |].
  intros [pw sr gl sc ck tr]. unfold ser_read_until, next_reply.
  run_monad. destruct sr as [| t |]; try reflexivity.
  destruct sc as [| [rx dt | e] sc]; try reflexivity. now destruct t.
Qed.

Lemma in_command_log lvl msg :
  is_cleanup (Log lvl msg) = false -> in_command (Log lvl msg) = true.
Proof. intros H. unfold in_command. now rewrite H. Qed.

Lemma orderly_at_command command back timeout quiet :
  orderly (at_command command back timeout quiet).
Proof.
  split; [apply only_at_command; auto using in_command_log |].
  intros [pw sr gl sc ck tr].
  unfold at_command, ser_reset_input_buffer, ser_write, ser_set_timeout,
    ser_read_until, next_reply, encode, decode.
  run_monad.
  destruct sr as [| t |]; cbn; try reflexivity.
  destruct (utf8_encode (command ++ CRLF)) as [cmd |]; cbn; try reflexivity.
  destruct (timeout <? 0); cbn; try reflexivity.
  destruct (utf8_encode back) as [expected |]; cbn; try reflexivity.
  destruct sc as [| [rx dt | e] sc]; cbn; try reflexivity.
  - now destruct back, quiet.
  - destruct (utf8_decode (read_until_loop expected [] rx)) as [response |];
      cbn; try reflexivity.
    now destruct (contains response back), quiet.
Qed.

Lemma orderly_power_up cfg : orderly (power_up cfg).
Proof.
  split; [apply only_power_up, in_command_log |].
  intros [pw sr gl sc ck tr]. unfold power_up, global_GPIO. run_monad.
  now destruct (pwrpin cfg =? 0), (pwrup cfg =? 0).
Qed.

Lemma orderly_check_connection_loop fuel t_end :
  orderly (check_connection_loop fuel t_end).
Proof.
  induction fuel as [| fuel IH]; [apply orderly_hang |].
  cbn [check_connection_loop].
  apply orderly_bind; [apply orderly_get | intros now].
  destruct (now <? t_end); [| apply orderly_raise].
  apply orderly_bind; [apply orderly_at_command | intros [result response]].
  assert (Hagain : orderly (sleep 1 ;; check_connection_loop fuel t_end)).
  { apply orderly_bind; [apply orderly_sleep_ms | intros _; exact IH]. }
  destruct result; [| exact Hagain].
  destruct (registered response); [now apply orderly_emit | exact Hagain].
Qed.

Lemma orderly_check_connection cfg : orderly (check_connection cfg).
Proof.
  unfold check_connection.
  apply orderly_bind; [now apply orderly_emit | intros _].
  apply orderly_bind; [apply orderly_get | intros now].
  apply orderly_check_connection_loop.
Qed.

Lemma orderly_ser_write data : orderly (ser_write data).
Proof.
  split; [apply only_with_port; intros; now apply only_emit |].
  intros [pw sr gl sc ck tr]. unfold ser_write. run_monad. now destruct sr.
Qed.

Lemma orderly_send_pdus pdus : orderly (send_pdus pdus).
Proof.
  induction pdus as [| p rest IH]; cbn [send_pdus].
  - apply orderly_bind; [now apply orderly_emit | intros _].
    apply orderly_bind; [now apply orderly_emit | intros _].
    apply orderly_ret.
  - apply orderly_bind; [apply orderly_at_command | intros [result ?]].
    destruct result; [| exact IH].
    apply orderly_bind; [now apply orderly_emit | intros _].
    apply orderly_bind; [apply orderly_lift | intros data].
    apply orderly_bind; [apply orderly_ser_write | intros _].
    apply orderly_bind; [apply orderly_ser_write | intros _].
    apply orderly_bind; [apply orderly_at_command | intros [result ?]].
    destruct (negb result); [| exact IH].
    apply orderly_bind; [now apply orderly_emit | intros _].
    apply orderly_bind; [now apply orderly_emit | intros _].
    apply orderly_ret.
Qed.

Lemma orderly_read_message host : orderly (read_message host).
Proof.
  unfold read_message. apply orderly_bind.
  - destruct (isatty host); [| apply orderly_ret].
    apply orderly_bind; [now apply orderly_emit | intros _].
    now apply orderly_emit.
  - intros _. destruct (strip (stdin host));
      [apply orderly_raise | apply orderly_ret].
Qed.

Lemma orderly_send cfg host codec : orderly (send cfg host codec).
Proof.
  unfold send.
  apply orderly_bind; [apply orderly_read_message | intros message].
  apply orderly_bind; [apply orderly_lift | intros text'].
  apply orderly_bind; [apply orderly_lift | intros sms].
  apply orderly_bind; [now apply orderly_emit | intros _].
  apply orderly_bind; [now apply orderly_emit | intros _].
  apply orderly_bind; [apply orderly_power_up | intros _].
  apply orderly_bind; [apply orderly_check_connection | intros _].
  apply orderly_bind; [apply orderly_at_command | intros _].
  apply orderly_bind; [apply orderly_lift | intros pdus].
  apply orderly_send_pdus.
Qed.

Lemma orderly_list_messages host codec status :
  orderly (list_messages host codec status).
Proof.
  unfold list_messages.
  apply orderly_bind; [apply orderly_at_command | intros [result response]].
  destruct result; [| apply orderly_ret].
  apply orderly_bind; [apply orderly_lift | intros; apply orderly_ret].
Qed.

Lemma orderly_delete_slots slots : orderly (delete_slots slots).
Proof.
  induction slots as [| slot slots IH]; [apply orderly_ret |].
  cbn [delete_slots].
  apply orderly_bind; [apply orderly_at_command | intros _; exact IH].
Qed.

Lemma orderly_receive cfg host codec : orderly (receive cfg host codec).
Proof.
  unfold receive.
  apply orderly_bind; [now apply orderly_emit | intros _].
  apply orderly_bind; [now apply orderly_emit | intros _].
  apply orderly_bind; [apply orderly_power_up | intros _].
  apply orderly_bind; [apply orderly_at_command | intros _].
  apply orderly_bind; [apply orderly_at_command | intros _].
  apply orderly_bind; [apply orderly_list_messages |].
  intros [result sim_read]. apply orderly_bind.
  { destruct result; [| apply orderly_ret].
    apply orderly_bind; [apply orderly_get | intros; apply orderly_lift]. }
  intros [read_idx fragments].
  apply orderly_bind; [apply orderly_list_messages |].
  intros [[] unread].
  - apply orderly_bind; [apply orderly_lift |].
    intros [[messages read_idx2] fragments2].
    apply orderly_bind; [apply orderly_lift |].
    intros [fragments3 [[long_messages frag_read_idx] |]];
      [| apply orderly_raise].
    apply orderly_bind; [now apply orderly_emit | intros _].
    apply orderly_bind; [| intros _; apply orderly_ret].
    destruct (deleteall cfg).
    + apply orderly_bind; [apply orderly_at_command |].
      intros _. apply orderly_ret.
    + destruct (negb (preserve cfg));
        [apply orderly_delete_slots | apply orderly_ret].
  - apply orderly_bind; [now apply orderly_emit | intros _].
    apply orderly_bind; [now apply orderly_emit | intros _].
    apply orderly_ret.
Qed.

Lemma orderly_monitor_loop cfg fuel : orderly (monitor_loop cfg fuel).
Proof.
  induction fuel as [| fuel IH]; [apply orderly_hang |].
  cbn [monitor_loop].
  apply orderly_bind; [apply orderly_ser_read_until | intros raw].
  apply orderly_bind; [apply orderly_lift | intros line].
  apply orderly_bind; [now apply orderly_emit | intros _].
  apply orderly_bind; [| intros _; exact IH].
  destruct (contains line (lit "+CMTI:")); [| apply orderly_ret].
  apply orderly_bind; [now apply orderly_emit | intros _].
  apply orderly_bind; [now apply orderly_emit | intros _].
  destruct (command cfg) as [[| c rest] |]; try apply orderly_ret.
  repeat (apply orderly_bind; [now apply orderly_emit | intros _]).
  now apply orderly_emit.
Qed.

Lemma orderly_monitor cfg : orderly (monitor cfg).
Proof.
  unfold monitor.
  apply orderly_bind; [now apply orderly_emit | intros _].
  apply orderly_bind; [now apply orderly_emit | intros _].
  apply orderly_bind; [apply orderly_get | intros sc].
  apply orderly_monitor_loop.
Qed.

Lemma orderly_clear cfg : orderly (clear cfg).
Proof.
  unfold clear.
  apply orderly_bind; [now apply orderly_emit | intros _].
  apply orderly_bind; [now apply orderly_emit | intros _].
  apply orderly_bind; [apply orderly_power_up | intros _].
  apply orderly_bind; [apply orderly_at_command | intros [result ?]].
  apply orderly_ret.
Qed.

Lemma orderly_query command echo : orderly (query command echo).
Proof.
  unfold query.
  apply orderly_bind; [apply orderly_at_command | intros [ok res]].
  apply orderly_bind; [| intros _; now apply orderly_emit].
  destruct echo; [now apply orderly_emit | apply orderly_ret].
Qed.

Lemma orderly_modem_info cfg : orderly (modem_info cfg).
Proof.
  unfold modem_info.
  apply orderly_bind; [now apply orderly_emit | intros _].
  apply orderly_bind; [apply orderly_power_up | intros _].
  repeat (apply orderly_bind; [apply orderly_query | intros _]).
  apply orderly_query.
Qed.

Lemma orderly_at cfg : orderly (at_ cfg).
Proof.
  unfold at_.
  apply orderly_bind; [now apply orderly_emit | intros _].
  destruct (command cfg) as [c |]; [| apply orderly_raise].
  apply orderly_bind; [now apply orderly_emit | intros _].
  apply orderly_bind; [apply orderly_at_command | intros [ok res]].
  now apply orderly_emit.
Qed.

Lemma orderly_run_cmd cfg host codec : orderly (run_cmd cfg host codec).
Proof.
  unfold run_cmd. destruct (cmd cfg);
    (apply orderly_bind; [| intros; apply orderly_ret]).
  - apply orderly_send.
  - apply orderly_receive.
  - apply orderly_monitor.
  - apply orderly_clear.
  - apply orderly_modem_info.
  - apply orderly_at.
Qed.

(** X5.  No command ever powers the modem: whichever command [run] selects
    and however it ends, it leaves the powered flag as it found it, drives
    no pin, and does not close the port. *)
Theorem commands_never_power cfg host codec s :
  powered (snd (run_cmd cfg host codec s)) = powered s /\
  is_open (ser (snd (run_cmd cfg host codec s))) = is_open (ser s) /\
  exists evs,
    trace (snd (run_cmd cfg host codec s)) = trace s ++ evs /\
    pin_levels evs = [] /\
    forallb in_command evs = true.
Proof.
  destruct (orderly_run_cmd cfg host codec) as [Honly Hstand].
  specialize (Hstand s). unfold standing in Hstand.
  injection Hstand as Hp Hg Ho.
  split; [exact Hp |]. split; [exact Ho |].
  destruct (Honly s) as (evs & Ht & Hall). exists evs.
  split; [exact Ht |]. split; [| exact Hall].
  clear Ht. induction evs as [| e evs IH]; [reflexivity |].
  cbn [forallb] in Hall. apply andb_prop in Hall. destruct Hall as [He Hall].
  unfold pin_levels in *. cbn [flat_map]. rewrite (IH Hall).
  now destruct e.
Qed.

(** ** The session, again *)









(** ** What [receive] deletes of the read listing *)

(** C10, as amended.  In a [recv] that returns [True], with neither
    [--preserve] nor [--deleteall], the deletion command is written for the
    slot of every message of the read listing that is dated before the age
    limit, whether or not the message is a fragment and whether or not its
    set is complete.  A [recv] that returns [False], as it does when the
    listing of the unread messages fails, writes no deletion command at
    all. *)
Theorem old_read_messages_deleted cfg host codec s :
  (forall s1 sim_read s',
     preserve cfg = false ->
     deleteall cfg = false ->
     read_listing cfg host codec s = (Ret (true, sim_read), s1) ->
     receive cfg host codec s = (Ret true, s') ->
     forall m,
       In m sim_read ->
       date m < clock s1 - maxage cfg * hour_ms ->
       deletes (idx m) (trace s')) /\
  (fst (receive cfg host codec s) = Ret false ->
   exists evs,
     trace (snd (receive cfg host codec s)) = trace s ++ evs /\
     forallb (fun w => negb (is_deletion w)) (writes evs) = true).
Proof.
  split.
  - intros s1 sim_read s' Hpres Hall Hlist Hrun m Hin Hold.
    rewrite receive_split in Hrun. unfold bind at 1 in Hrun.
    rewrite Hlist in Hrun. cbn [fst snd] in Hrun.
    unfold receive_rest in Hrun. rewrite Hpres, Hall in Hrun.
    cbn [negb] in Hrun.
    apply bind_ret_inv in Hrun.
    destruct Hrun as ([read_idx fragments] & s2 & Hscan & Hrun).
    apply bind_ret_inv in Hscan. destruct Hscan as (now & s2' & Hnow & Hscan).
    injection Hnow as <- <-.
    apply lift_ret_inv in Hscan. destruct Hscan as [Hscan ->].
    apply bind_ret_inv in Hrun.
    destruct Hrun as ([result unread] & s3 & _ & Hrun).
    destruct result.
    2:{ do 2 (apply bind_ret_inv in Hrun;
              destruct Hrun as (? & ? & _ & Hrun)).
        discriminate. }
    apply bind_ret_inv in Hrun.
    destruct Hrun as ([[messages read_idx2] fragments2] & s4 & Hun & Hrun).
    apply lift_ret_inv in Hun. destruct Hun as [Hun ->].
    apply bind_ret_inv in Hrun.
    destruct Hrun as ([fragments3 drained] & s5 & _ & Hrun).
    destruct drained as [[long_messages frag_read_idx] |]; [| discriminate].
    apply bind_ret_inv in Hrun. destruct Hrun as ([] & s6 & _ & Hrun).
    apply bind_ret_inv in Hrun. destruct Hrun as ([] & s7 & Hdel & Hrun).
    injection Hrun as <-.
    apply delete_slots_writes in Hdel. destruct Hdel as [_ Hdel].
    apply Hdel. apply in_or_app. left.
    apply (scan_unread_keeps _ _ _ _ Hun). cbn [fst snd].
    destruct (scan_read_keeps _ _ _ _ _ Hscan) as [_ Hkeep].
    now apply Hkeep.
  - intros Hfalse.
    destruct (receive_phased cfg host codec s)
      as (pre & post & Ht & Hp & [[-> _] | (ms & del & _ & _ & Hr)]);
      [| contradiction].
    exists pre. rewrite app_nil_r in Ht. split; [exact Ht |].
    eapply forallb_writes; [| exact Hp]. now intros w.
Qed.

Lemma old_read_messages_deleted_witness :
  deletes (lit "4")
    (trace (snd (receive recv_config (demo_host "") demo_codec recv_state))).
Proof.
  apply (proj1 (@old_read_messages_deleted recv_config (demo_host "")
                  demo_codec recv_state)
           (snd (read_listing recv_config (demo_host "") demo_codec
                   recv_state))
           [stored_part]
           (snd (receive recv_config (demo_host "") demo_codec recv_state))
           eq_refl eq_refl) with (m := stored_part).
  - vm_compute. reflexivity.
  - vm_compute. reflexivity.
  - simpl. left. reflexivity.
  - vm_compute. reflexivity.
Defined.

(** C10, as stated, fails where the listing of the unread messages fails:
    the read listing holds a message older than the age limit, [receive]
    returns [False], and the slot of that message is not deleted. *)
Lemma old_read_message_kept :
  let listed := read_listing recv_config (demo_host "") demo_codec
                  unlisted_state in
  let r := receive recv_config (demo_host "") demo_codec unlisted_state in
  fst listed = Ret (true, [stored_part]) /\
  date stored_part < clock (snd listed) - maxage recv_config * hour_ms /\
  fst r = Ret false /\
  wrote (lit "AT+CMGD=4" ++ CRLF) (trace (snd r)) = false.
Proof. vm_compute. repeat split; reflexivity. Qed.

(** With a maximum age that no [timedelta] can hold, the same [recv] ends
    with [OverflowError] at the first message of the read listing: nothing
    is printed and nothing is deleted. *)
Example huge_maxage_overflows :
  let r := receive
             (mkConfig 0 0 0 18 false Receive [] (10 ^ 12) false false None
                (lit "OK") 2)
             (demo_host "") demo_codec recv_state in
  fst r = Raise OverflowError /\
  wrote (lit "AT+CMGD=4" ++ CRLF) (trace (snd r)) = false /\
  existsb is_json (trace (snd r)) = false.
Proof. vm_compute. repeat split; reflexivity. Qed.

(** With a power pin on the command line [run] ends in [parse_args], before
    the port is opened. *)
Example power_pin_ends_run :
  run (demo_host "") demo_codec (Parsed (pulse_config 2 3))
    (initial obliging_script 0 false) =
  (Raise (NameError "GPIO"), initial obliging_script 0 false).
Proof. reflexivity. Qed.
